(** * Student grouping tool (tut_01/main.py): model and verified properties

    The development follows the four stages of [main.py]:
    - [split_by_branch]       (Branch Classifier),
    - [uniform_distribution]  (Uniform Distributor),
    - [mixed_distribution]    (Mixed Distributor),
    - [generate_summary]      (Summary Reporter).

    Python dictionaries keep insertion order and the code depends on it, so
    a dictionary is an association list with unique keys.  Python integers
    are [Z]; [divmod] is floor division, which is [Z.div]/[Z.modulo].
    Exceptions are values of [exn]; a function that may raise returns a
    [result].  Files written to a directory are modelled by the list of
    row lists that is written, in file order; the directories themselves
    are state that a run of [main] reads and leaves changed.

    Text is [string], a character being one of 256 codes.  Python
    compares characters of the whole Unicode range: [\d] matches the
    decimal digits of every script, and [int] reads them.  The two classes
    the model tests, [[0-9]] and [[A-Za-z]], are what the patterns of the
    program match in ASCII text, so every statement that depends on which
    characters the pattern [\d] takes is made for ASCII text ([isascii]). *)

From Stdlib Require Import ZArith Lia Ascii String DecimalString DecimalNat.
From stdpp Require Import base tactics option list strings sorting.

Local Open Scope Z_scope.
Local Open Scope list_scope.

(** ** Exceptions and results *)

Inductive exn : Type :=
| ZeroDivisionError
| ValueError
| IndexError
| KeyError.

(** [Diverged] is not a Python outcome: it is what a bounded loop of the
    model answers when its bound is used up.  The theorems show it never
    happens. *)
Inductive result (A : Type) : Type :=
| Ok (a : A)
| Raise (e : exn)
| Diverged.

Arguments Ok {A} a.
Arguments Raise {A} e.
Arguments Diverged {A}.

#[global] Instance result_ret : MRet result := fun A a => Ok a.

#[global] Instance result_bind : MBind result := fun A B k m =>
  match m with
  | Ok a => k a
  | Raise e => Raise e
  | Diverged => Diverged
  end.

(** ** Insertion-ordered dictionaries *)

Module Dict.

Definition t (V : Type) : Type := list (string * V).

Definition keys {V} (d : t V) : list string := d.*1.
Definition values {V} (d : t V) : list V := d.*2.

(** A Python [dict] holds each key once. *)
Definition wf {V} (d : t V) : Prop := NoDup (keys d).

Fixpoint get {V} (k : string) (d : t V) : option V :=
  match d with
  | [] => None
  | (k', v) :: d' => if String.eqb k k' then Some v else get k d'
  end.

(** [d[k] = v]: an existing key keeps its position, a new one goes last. *)
Fixpoint set {V} (k : string) (v : V) (d : t V) : t V :=
  match d with
  | [] => [(k, v)]
  | (k', v') :: d' =>
      if String.eqb k k' then (k', v) :: d' else (k', v') :: set k v d'
  end.

(** [del d[k]] *)
Fixpoint del {V} (k : string) (d : t V) : t V :=
  match d with
  | [] => []
  | (k', v') :: d' =>
      if String.eqb k k' then d' else (k', v') :: del k d'
  end.

(** [dict(items)] *)
Definition of_items {V} (items : list (string * V)) : t V :=
  fold_left (fun d kv => set kv.1 kv.2 d) items [].

End Dict.

(** ** Python's stable [sorted]

    [before y x] says that [y] has to come strictly before [x].  An element
    is put in front of everything that need not precede it, so equal
    elements keep their order; this is the behaviour of [sorted], also
    with [reverse=True]. *)

Section Sorted.
Context {A : Type} (before : A → A → bool).

Fixpoint sorted_insert (x : A) (l : list A) : list A :=
  match l with
  | [] => [x]
  | y :: l' => if before y x then y :: sorted_insert x l' else x :: l
  end.

Definition sorted (l : list A) : list A := foldr sorted_insert [] l.
End Sorted.

(** ** Characters and the two identifier patterns *)

Definition is_digit (a : ascii) : bool :=
  (Nat.leb 48 (nat_of_ascii a) && Nat.leb (nat_of_ascii a) 57)%bool.

Definition is_upper (a : ascii) : bool :=
  (Nat.leb 65 (nat_of_ascii a) && Nat.leb (nat_of_ascii a) 90)%bool.

Definition is_lower (a : ascii) : bool :=
  (Nat.leb 97 (nat_of_ascii a) && Nat.leb (nat_of_ascii a) 122)%bool.

(** [[A-Za-z]] *)
Definition is_letter (a : ascii) : bool := (is_upper a || is_lower a)%bool.

Definition upper_char (a : ascii) : ascii :=
  if is_lower a then ascii_of_nat (nat_of_ascii a - 32) else a.

(** [str.upper] *)
Fixpoint upper (s : string) : string :=
  match s with
  | EmptyString => EmptyString
  | String a s' => String (upper_char a) (upper s')
  end.

(** [str.isascii]: every character is one of the 128 ASCII characters. *)
Definition isascii (s : string) : bool :=
  forallb (fun a => Nat.ltb (nat_of_ascii a) 128) (list_ascii_of_string s).

(** [re.compile(r'^[0-9]{4}([A-Za-z]{2})[0-9]{2}').match(s)]: the value of
    group 1 when the pattern matches a prefix of [s]. *)
Definition pattern_match (s : string) : option string :=
  match s with
  | String d1 (String d2 (String d3 (String d4
      (String l1 (String l2 (String e1 (String e2 _))))))) =>
      if (is_digit d1 && is_digit d2 && is_digit d3 && is_digit d4
          && is_letter l1 && is_letter l2
          && is_digit e1 && is_digit e2)%bool
      then Some (String l1 (String l2 EmptyString))
      else None
  | _ => None
  end.

(** [$] without [re.MULTILINE]: the end of the string, or just before a
    newline that ends it. *)
Definition at_end (s : string) : bool :=
  match s with
  | EmptyString => true
  | String a EmptyString => Ascii.eqb a "010"%char
  | _ => false
  end.

(** [Series.str.extract(r'^(?:\d{4}([A-Za-z]{2})\d{2}|([A-Za-z]{2}))$')]:
    the two capture groups for one identifier; both are missing when the
    pattern does not match.  The class [\d] is tested as [[0-9]]: that is
    what it matches in an ASCII identifier.  In other text Python's [\d]
    also takes the decimal digits of other scripts, which this test does
    not; what is proved about the identifiers the pattern accepts is
    therefore stated for ASCII identifiers. *)
Definition extract (s : string) : option string * option string :=
  match s with
  | String d1 (String d2 (String d3 (String d4
      (String l1 (String l2 (String e1 (String e2 rest))))))) =>
      if (is_digit d1 && is_digit d2 && is_digit d3 && is_digit d4
          && is_letter l1 && is_letter l2
          && is_digit e1 && is_digit e2 && at_end rest)%bool
      then (Some (String l1 (String l2 EmptyString)), None)
      else (None, None)
  | String l1 (String l2 rest) =>
      if (is_letter l1 && is_letter l2 && at_end rest)%bool
      then (None, Some (String l1 (String l2 EmptyString)))
      else (None, None)
  | _ => (None, None)
  end.

(** ** Records *)

(** A row of the table: the text of its [Roll] cell ([str(row['Roll'])])
    and the remaining cells, which the program never inspects. *)
Record Row : Type := mkRow { Roll : string; cells : list string }.

#[global] Instance Row_eq_dec : EqDecision Row.
Proof. solve_decision. Defined.

(** ** Branch Classifier *)

(** The branch code of an identifier: [match.group(1).upper()]. *)
Definition branch_code (roll : string) : option string :=
  upper <$> pattern_match roll.

(** [grouped.setdefault(code, []).append(row)] *)
Definition setdefault_append {V} (code : string) (row : V)
    (grouped : Dict.t (list V)) : Dict.t (list V) :=
  match Dict.get code grouped with
  | Some rows => Dict.set code (rows ++ [row]) grouped
  | None => Dict.set code [row] grouped
  end.

(** One turn of the loop over [df.iterrows()].  The state is the dictionary
    [grouped] and the lines printed so far. *)
Definition classify_row (st : Dict.t (list Row) * list string) (row : Row)
    : Dict.t (list Row) * list string :=
  match pattern_match (Roll row) with
  | Some letters => (setdefault_append (upper letters) row st.1, st.2)
  | None => (st.1, st.2 ++ [Roll row])
  end.

(** [split_by_branch]: the dictionary it returns and what it prints. *)
Definition split_by_branch (df : list Row) : Dict.t (list Row) * list string :=
  fold_left classify_row df ([], []).

(** The loop after the classification, [for code, rows in grouped.items()]:
    the files written to the branch directory, name and rows, in the
    order they are written. *)
Definition branchwise_files (grouped : Dict.t (list Row)) : list (string * list Row) :=
  (fun kv => (String.append kv.1 ".csv", kv.2)) <$> grouped.

(** ** Python indexing and slicing *)

(** Where a slice bound [i] falls in a sequence of length [len]. *)
Definition slice_bound (len i : Z) : Z :=
  if i <? 0 then Z.max 0 (len + i) else Z.min i len.

(** [l[start:stop]], as [DataFrame.iloc] and lists compute it. *)
Definition slice {A} (l : list A) (start stop : Z) : list A :=
  let len := Z.of_nat (length l) in
  let s := slice_bound len start in
  let e := slice_bound len stop in
  take (Z.to_nat (e - s)) (drop (Z.to_nat s) l).

(** The position [l[i]] refers to; a negative index counts from the end. *)
Definition index_of {A} (l : list A) (i : Z) : result nat :=
  let len := Z.of_nat (length l) in
  let j := if i <? 0 then i + len else i in
  if (0 <=? j) && (j <? len) then Ok (Z.to_nat j) else Raise IndexError.

(** [d[k]] *)
Definition getitem {V} (k : string) (d : Dict.t V) : result V :=
  match Dict.get k d with
  | Some v => Ok v
  | None => Raise KeyError
  end.

(** ** Uniform Distributor *)

(** [len(x[1])] of a dictionary item. *)
Definition bucket_size {A} (item : string * list A) : Z :=
  Z.of_nat (length item.2).

(** [sorted(branch_data.items(), key=lambda x: len(x[1]), reverse=True)]:
    a larger bucket has to come before a smaller one. *)
Definition sorted_by_size {A} (items : list (string * list A))
    : list (string * list A) :=
  sorted (fun y x => bucket_size x <? bucket_size y) items.

(** The loop [for i in range(group_count)], with [n] turns left; the state
    is [remainder] and [pointer], the outcome the subsets written to
    [group_1.csv], [group_2.csv], ... in this order. *)
Fixpoint uniform_loop {A} (merged : list A) (size : Z) (n : nat)
    (remainder pointer : Z) : list (list A) :=
  match n with
  | O => []
  | S n' =>
      let start := pointer in
      let stop := pointer + size + (if 0 <? remainder then 1 else 0) in
      let subset := slice merged start stop in
      let remainder' := remainder - (if 0 <? remainder then 1 else 0) in
      subset :: uniform_loop merged size n' remainder' stop
  end.

(** [uniform_distribution]: [pd.concat] refuses an empty list of frames,
    and it runs before [divmod]. *)
Definition uniform_distribution {A} (branch_data : Dict.t (list A))
    (group_count : Z) : result (list (list A)) :=
  let ordered := Dict.of_items (sorted_by_size branch_data) in
  match Dict.values ordered with
  | [] => Raise ValueError
  | frames =>
      let merged := concat frames in
      let total := Z.of_nat (length merged) in
      if group_count =? 0 then Raise ZeroDivisionError
      else
        let size := total / group_count in
        let remainder := total mod group_count in
        Ok (uniform_loop merged size (Z.to_nat group_count) remainder 0)
  end.

(** ** Mixed Distributor *)

(** [for branch in list(pools.keys())], over the keys still to visit; the
    state is the group being filled and [pools].  The three [if]s of the
    body are kept apart as in the source; the last one is the [break]. *)
Fixpoint for_branches {A} (size : Z) (branches : list string)
    (group : list A) (pools : Dict.t (list A))
    : result (list A * Dict.t (list A)) :=
  match branches with
  | [] => Ok (group, pools)
  | branch :: rest =>
      queue ← getitem branch pools;
      let '(group1, pools1) :=
        match queue with
        | [] => (group, pools)
        | r :: queue' => (group ++ [r], Dict.set branch queue' pools)
        end in
      queue1 ← getitem branch pools1;
      let pools2 :=
        match queue1 with
        | [] => Dict.del branch pools1
        | _ :: _ => pools1
        end in
      if Z.of_nat (length group1) =? size then Ok (group1, pools2)
      else for_branches size rest group1 pools2
  end.

(** An upper bound on the passes one [while] loop can make: every pass
    over a non-empty [pools] pops a record or deletes a key. *)
Definition pools_weight {A} (pools : Dict.t (list A)) : nat :=
  sum_list_with (fun kv => S (length kv.2)) pools.

(** [while len(groups[i]) < size and pools: ...], at most [fuel] passes. *)
Fixpoint fill_while {A} (fuel : nat) (size : Z) (group : list A)
    (pools : Dict.t (list A)) : result (list A * Dict.t (list A)) :=
  if (Z.of_nat (length group) <? size) && negb (bool_decide (pools = []))
  then
    match fuel with
    | O => Diverged
    | S fuel' =>
        '(group', pools') ← for_branches size (Dict.keys pools) group pools;
        fill_while fuel' size group' pools'
    end
  else Ok (group, pools).

(** The loop [for i in range(group_count)] of the fill phase, from index
    [i] with [n] turns left. *)
Fixpoint fill_groups {A} (n : nat) (i : nat) (size : Z)
    (groups : list (list A)) (pools : Dict.t (list A))
    : result (list (list A) * Dict.t (list A)) :=
  match n with
  | O => Ok (groups, pools)
  | S n' =>
      j ← index_of groups (Z.of_nat i);
      '(group', pools') ←
        fill_while (pools_weight pools) size (groups !!! j) pools;
      fill_groups n' (S i) size (<[j := group']> groups) pools'
  end.

(** [while leftovers: groups[idx % group_count].append(leftovers.pop(0))] *)
Fixpoint leftover_loop {A} (leftovers : list A) (idx group_count : Z)
    (groups : list (list A)) : result (list (list A)) :=
  match leftovers with
  | [] => Ok groups
  | r :: leftovers' =>
      j ← index_of groups (idx mod group_count);
      leftover_loop leftovers' (idx + 1) group_count
        (<[j := groups !!! j ++ [r]]> groups)
  end.

(** [mixed_distribution]: the groups it saves as [group_1.csv], ... *)
Definition mixed_distribution {A} (branch_data : Dict.t (list A))
    (group_count : Z) : result (list (list A)) :=
  let total_students :=
    Z.of_nat (sum_list_with length (Dict.values branch_data)) in
  if group_count =? 0 then Raise ZeroDivisionError
  else
    let size := total_students / group_count in
    let pools := branch_data in
    let groups := replicate (Z.to_nat group_count) [] in
    '(groups1, pools1) ←
      fill_groups (Z.to_nat group_count) 0 size groups pools;
    let leftovers := concat (Dict.values pools1) in
    leftover_loop leftovers 0 group_count groups1.

(** ** The worked example of the specification *)

Definition student (roll : string) : Row := mkRow roll [].

Definition example_table : list Row :=
  student <$> ["2023CS01"; "2023CS02"; "2023CS03"; "2023CS04"; "2023CS05";
               "2023CS06"; "2023EC01"; "2023EC02"; "2023EC03"; "2023EC04"]%string.

(** ** Summary Reporter

    The pandas operations are modelled as pandas 3 performs them. *)

(** A cell of a table: text, an integer, or a missing value. *)
Inductive cell : Type :=
| Str (s : string)
| Int (z : Z)
| NaN.

#[global] Instance cell_eq_dec : EqDecision cell.
Proof. solve_decision. Defined.

(** A table: its column names and its rows, each with one cell per column. *)
Record DataFrame : Type := mkDF { columns : list string; rows : list (list cell) }.

(** [df.empty]: some axis has length zero. *)
Definition df_empty (df : DataFrame) : bool :=
  bool_decide (rows df = []) || bool_decide (columns df = []).

(** The cell of [row] under column [c] of a table with columns [cols]. *)
Fixpoint cell_at (cols : list string) (row : list cell) (c : string)
    : option cell :=
  match cols, row with
  | c' :: cols', x :: row' => if String.eqb c c' then Some x else cell_at cols' row' c
  | _, _ => None
  end.

(** [df.reindex(columns=cols, fill_value=fill)]: the columns named in
    [cols], in that order; a column the table lacks is filled with [fill],
    a column not named is dropped. *)
Definition reindex (cols : list string) (fill : cell) (df : DataFrame)
    : DataFrame :=
  mkDF cols
    ((fun row => (fun c => default fill (cell_at (columns df) row c)) <$> cols)
       <$> rows df).

(** The distinct names of a list, each where it first occurs. *)
Fixpoint unique (l : list string) : list string :=
  match l with
  | [] => []
  | x :: l' => x :: filter (fun y => y ≠ x) (unique l')
  end.

(** [pd.concat(frames, ignore_index=True)]: the columns are those of all
    frames in order of first appearance, cells a frame lacks are missing. *)
Definition pd_concat (frames : list DataFrame) : DataFrame :=
  let cols := unique (frames ≫= columns) in
  mkDF cols (frames ≫= (fun df => rows (reindex cols NaN df))).

(** A group directory: names and contents of its files, in the order
    [os.listdir] gives them.  A file is the list of rows [pd.read_csv]
    returns for it. *)
Definition folder : Type := list (string * list Row).

(** [f.endswith(".csv")] *)
Definition ends_with_csv (f : string) : bool :=
  let n := String.length f in
  Nat.leb 4 n && String.eqb (substring (n - 4) 4 f) ".csv".

(** The text from the first digit on: where [re.search(r'(\d+)', x)]
    starts to match in an ASCII name.  As in [extract], [\d] is tested as
    [[0-9]]; Python also finds and reads the digits of other scripts, so
    the number of a name is the program's for ASCII names. *)
Fixpoint from_first_digit (x : string) : string :=
  match x with
  | EmptyString => EmptyString
  | String a x' => if is_digit a then x else from_first_digit x'
  end.

(** [int] of the leading run of digits; [acc] is the value read so far. *)
Fixpoint read_int (x : string) (acc : Z) : Z :=
  match x with
  | EmptyString => acc
  | String a x' =>
      if is_digit a then read_int x' (10 * acc + (Z.of_nat (nat_of_ascii a) - 48))
      else acc
  end.

(** The sort key of a file name, [int(re.search(r'(\d+)', x).group(1))]
    and 0 without a match: its first number, 0 when it has none. *)
Definition file_number (x : string) : Z := read_int (from_first_digit x) 0.

(** The [.csv] files of a folder in the order [read_stats] visits them. *)
Definition csv_files (dir : folder) : folder :=
  sorted (fun y x => file_number y.1 <? file_number x.1)
         (List.filter (fun f => ends_with_csv f.1) dir).

(** The code column of a file: the first capture group, else the second,
    upper-cased; [None] is the missing value of an identifier that does
    not match. *)
Definition summary_code (roll : string) : option string :=
  let extracted := extract roll in
  upper <$> (match extracted.1 with Some c => Some c | None => extracted.2 end).

(** [Series.value_counts().to_dict()]: every value that occurs, missing
    values apart, with the number of its occurrences.  pandas lists the
    keys by falling count; their order has no influence below, where the
    columns are sorted. *)
Definition value_counts (codes : list (option string)) : Dict.t Z :=
  let present := omap id codes in
  (fun c => (c, Z.of_nat (length (filter (eq c) present))))
    <$> unique present.

(** [f"G{idx}"] *)
Definition group_label (idx : nat) : string :=
  String "G" (NilEmpty.string_of_uint (Nat.to_uint idx)).

(** The dictionary [stats] after the loop over [enumerate(files, start)]. *)
Fixpoint collect_stats (files : folder) (idx : nat) (stats : Dict.t (Dict.t Z))
    : Dict.t (Dict.t Z) :=
  match files with
  | [] => stats
  | (_, df) :: files' =>
      let codes := summary_code <$> (Roll <$> df) in
      let counts := value_counts codes in
      let entry := Dict.set "Total" (Z.of_nat (length df)) counts in
      collect_stats files' (S idx) (Dict.set (group_label idx) entry stats)
  end.

(** [sorted] on strings. *)
Definition sorted_strings (l : list string) : list string :=
  sorted String.ltb l.

(** [read_stats(folder)] *)
Definition read_stats (dir : folder) : DataFrame :=
  let stats := collect_stats (csv_files dir) 1 [] in
  match stats with
  | [] => mkDF ["Group"; "Total"]%string []
  | _ :: _ =>
      let observed := unique (stats ≫= (fun e => Dict.keys e.2)) in
      let cols :=
        sorted_strings (filter (fun c => c ≠ "Total"%string) observed) in
      mkDF ("Group" :: cols ++ ["Total"])%string
        ((fun e =>
            Str e.1 ::
            ((fun c => Int (default 0 (Dict.get c e.2))) <$> (cols ++ ["Total"]%string)))
           <$> stats)
  end.

(** The columns the summary is aligned to. *)
Definition summary_columns (uniform_df mixed_df : DataFrame) : list string :=
  if negb (df_empty uniform_df) then columns uniform_df
  else if negb (df_empty mixed_df) then columns mixed_df
  else ["Group"; "Total"]%string.

(** A one-row table: [first] in the first column, empty text elsewhere. *)
Definition title_row (first : string) (cols : list string) : DataFrame :=
  mkDF cols [Str first :: replicate (length cols - 1) (Str "")].

(** [generate_summary]: the combined table. *)
Definition generate_summary (uniform_dir mixed_dir : folder) : DataFrame :=
  let uniform_df := read_stats uniform_dir in
  let mixed_df := read_stats mixed_dir in
  let cols := summary_columns uniform_df mixed_df in
  let mixed_df := reindex cols (Int 0) mixed_df in
  let header_uniform := title_row "Uniform" cols in
  let header_mixed := title_row "Mixed" cols in
  let gap := mkDF cols [replicate (length cols) (Str "")] in
  pd_concat [header_uniform; uniform_df; gap; header_mixed; mixed_df].

(** The value of an integer cell. *)
Definition cell_value (x : option cell) : Z :=
  match x with
  | Some (Int z) => z
  | _ => 0
  end.

(** The [Total] of a row and the sum of its per-branch counts, that is of
    its cells under the columns other than [Group] and [Total]. *)
Definition row_total (cols : list string) (row : list cell) : Z :=
  cell_value (cell_at cols row "Total").

Definition branch_columns (cols : list string) : list string :=
  filter (fun c => c ≠ "Group"%string ∧ c ≠ "Total"%string) cols.

Definition row_branch_sum (cols : list string) (row : list cell) : Z :=
  foldr Z.add 0 ((fun c => cell_value (cell_at cols row c)) <$> branch_columns cols).

Definition group_file (name : string) (rolls : list string) : string * list Row :=
  (name, student <$> rolls).

(** ** The results directories and the run of [main] *)

(** [f"group_{n}.csv"], the name both distributors give to group [n]. *)
Definition group_file_name (n : nat) : string :=
  String.append "group_" (String.append (NilEmpty.string_of_uint (Nat.to_uint n)) ".csv").

(** The files a distributor writes for its groups, in the order it writes
    them: [group_1.csv], [group_2.csv], ...; reading a file back gives the
    rows that were written. *)
Definition group_files (groups : list (list Row)) : folder :=
  imap (fun i g =>
          (String.append "group_"
             (String.append (NilEmpty.string_of_uint (Nat.to_uint (S i))) ".csv"),
           g)) groups.

(** The directories under [results] that the stages write to, each with
    the files it holds. *)
Record Dirs : Type :=
  mkDirs { dir_branchwise : folder; dir_uniform : folder; dir_mixed : folder }.

(** [setup_directories]: [os.makedirs(path, exist_ok=True)] creates a
    directory that is missing and leaves one that exists as it is, with
    the files of earlier runs in it.  Nothing in the program removes a
    file. *)
Definition setup_directories (fs : Dirs) : Dirs := fs.

(** [to_csv(path)], also through [save_csv]: the file is created, and
    replaced when the directory has a file of that name. *)
Definition save_csv (name : string) (data : list Row) (dir : folder) : folder :=
  Dict.set name data dir.

(** A loop of [to_csv] calls. *)
Definition save_all (files : list (string * list Row)) (dir : folder) : folder :=
  fold_left (fun d f => save_csv f.1 f.2 d) files dir.

(** The [try] block of [main], lines 167 to 175.  [fs] holds the files of
    the directories when the run starts and [listdir] is [os.listdir],
    which gives the entries of a directory in an order of its own.  The
    answer is the directories after the run, with the summary or with the
    exception that ends the run.  The branch files are written first; each
    distributor writes its group files after everything in it that can
    raise, so a distributor that raises has written none. *)
Definition main (listdir : folder → folder) (fs : Dirs) (df : list Row)
    (group_count : Z) : Dirs * result DataFrame :=
  let dirs := setup_directories fs in
  let branchwise := (split_by_branch df).1 in
  let dirs :=
    mkDirs (save_all (branchwise_files branchwise) (dir_branchwise dirs))
           (dir_uniform dirs) (dir_mixed dirs) in
  match uniform_distribution branchwise group_count with
  | Ok uniform_groups =>
      let dirs :=
        mkDirs (dir_branchwise dirs)
               (save_all (group_files uniform_groups) (dir_uniform dirs))
               (dir_mixed dirs) in
      match mixed_distribution branchwise group_count with
      | Ok mixed_groups =>
          let dirs :=
            mkDirs (dir_branchwise dirs) (dir_uniform dirs)
                   (save_all (group_files mixed_groups) (dir_mixed dirs)) in
          (dirs, Ok (generate_summary (listdir (dir_uniform dirs))
                                      (listdir (dir_mixed dirs))))
      | Raise e => (dirs, Raise e)
      | Diverged => (dirs, Diverged)
      end
  | Raise e => (dirs, Raise e)
  | Diverged => (dirs, Diverged)
  end.

(** Directories without a file: the state before the first run. *)
Definition no_files : Dirs := mkDirs [] [] [].

(** The first run: [main] on directories without a file.  What it answers:
    the summary, or the exception that ends the run. *)
Definition pipeline (df : list Row) (group_count : Z) : result DataFrame :=
  (main id no_files df group_count).2.


(** ** Vocabulary of the statements *)

(** The identifier pattern in the words of the specification: four digits,
    then two letters, then two digits, then anything; the code is the two
    letters in upper case. *)
Definition roll_shape (s code : string) : Prop :=
  ∃ d1 d2 d3 d4 l1 l2 e1 e2 rest,
    s = String d1 (String d2 (String d3 (String d4
          (String l1 (String l2 (String e1 (String e2 rest))))))) ∧
    (is_digit d1 ∧ is_digit d2 ∧ is_digit d3 ∧ is_digit d4) ∧
    (is_letter l1 ∧ is_letter l2) ∧
    (is_digit e1 ∧ is_digit e2) ∧
    code = String (upper_char l1) (String (upper_char l2) EmptyString).

(** The rows of [df] with branch code [code], and those without a code. *)
Definition rows_of_branch (code : string) (df : list Row) : list Row :=
  filter (fun r => branch_code (Roll r) = Some code) df.

Definition unmatched_rows (df : list Row) : list Row :=
  filter (fun r => branch_code (Roll r) = None) df.

Definition matched_rows (df : list Row) : list Row :=
  filter (fun r => branch_code (Roll r) ≠ None) df.

(** The number of classified records of a bucket mapping. *)
Definition total_records {A} (branch_data : Dict.t (list A)) : Z :=
  Z.of_nat (sum_list_with length (Dict.values branch_data)).

(** The size of group [i] when [T] records go to [N] groups and the first
    [T mod N] groups take one more than [T / N]. *)
Definition size_profile (T N : Z) (i : nat) : Z :=
  T / N + (if Z.of_nat i <? T mod N then 1 else 0).

(** The sequence the Uniform Distributor cuts into groups. *)
Definition flattened {A} (branch_data : Dict.t (list A)) : list A :=
  concat (Dict.values (sorted_by_size branch_data)).

(** The bucket mapping of the worked example. *)
Definition example_buckets : Dict.t (list Row) := (split_by_branch example_table).1.

(** The records still queued in [pools]. *)
Definition queued {A} (pools : Dict.t (list A)) : list A :=
  concat (Dict.values pools).

(** The branch codes of the records of a file, in row order; a record
    whose identifier does not match has none. *)
Definition file_codes (df : list Row) : list string :=
  omap (fun r => summary_code (Roll r)) df.

(** How many records of a file have branch code [c]. *)
Definition code_count (c : string) (df : list Row) : Z :=
  Z.of_nat (length (filter (eq c) (file_codes df))).

(** The branch codes observed in the [.csv] files of a directory. *)
Definition observed_codes (dir : folder) : list string :=
  csv_files dir ≫= (fun f => file_codes f.2).

(** [row] is the summary row of the file [df] under the columns [cols]:
    [Total] is the number of records, and the cell of every branch column
    is the number of records with that code. *)
Definition row_shows (cols : list string) (row : list cell) (df : list Row) : Prop :=
  length row = length cols ∧
  cell_at cols row "Total" = Some (Int (Z.of_nat (length df))) ∧
  ∀ c, c ∈ branch_columns cols → cell_at cols row c = Some (Int (code_count c df)).

(** The entries of [stats], one per file, labelled from [idx] on. *)
Fixpoint stat_entries (files : folder) (idx : nat) : Dict.t (Dict.t Z) :=
  match files with
  | [] => []
  | (_, df) :: files' =>
      (group_label idx,
       Dict.set "Total" (Z.of_nat (length df))
         (value_counts (summary_code <$> (Roll <$> df))))
      :: stat_entries files' (S idx)
  end.

(** The rows of the combined table: the title of the uniform section, its
    rows [U], a blank row, the title of the mixed section, its rows [M]. *)
Definition summary_layout (cols : list string) (U M : list (list cell))
    : list (list cell) :=
  (Str "Uniform" :: replicate (length cols - 1) (Str "")) ::
  U ++
  replicate (length cols) (Str "") ::
  (Str "Mixed" :: replicate (length cols - 1) (Str "")) ::
  M.

(** A frame that [pd.concat] leaves as it is under the columns [cols]. *)
Definition fits (cols : list string) (df : DataFrame) : Prop :=
  (columns df = cols ∧ Forall (fun row => length row = length cols) (rows df))
  ∨ (columns df ⊆ cols ∧ rows df = []).

(** The directory the summary takes its columns from: the uniform one
    unless it has no [.csv] file. *)
Definition column_source (uniform_dir mixed_dir : folder) : folder :=
  match csv_files uniform_dir with
  | [] => mixed_dir
  | _ :: _ => uniform_dir
  end.

(** The branch codes of the rows of a table, in row order; a row without a
    code contributes none. *)
Definition classified_codes (df : list Row) : list string :=
  omap (fun r => branch_code (Roll r)) df.

(** The records of [l] that belong to branch [k], in the order of [l]. *)
Definition of_branch {A} (branch_of : A → string) (k : string) (l : list A) : list A :=
  filter (fun r => branch_of r = k) l.

(** Every record of a mapping sits in the bucket of its own branch. *)
Definition tagged {A} (branch_of : A → string) (bd : Dict.t (list A)) : Prop :=
  ∀ k q r, (k, q) ∈ bd → r ∈ q → branch_of r = k.

(** The bucket of [k], empty when [k] is no key. *)
Definition bucket_of {A} (k : string) (bd : Dict.t (list A)) : list A :=
  default [] (Dict.get k bd).

(** The records handed out so far, [given], and the queues account for
    every bucket, in its order. *)
Definition accounted {A} (branch_of : A → string) (bd : Dict.t (list A))
    (given : list A) (pools : Dict.t (list A)) : Prop :=
  ∀ k, of_branch branch_of k given ++ bucket_of k pools = bucket_of k bd.

(** The branch of a row: its code, and the empty text when it has none. *)
Definition row_branch (r : Row) : string := default EmptyString (branch_code (Roll r)).

(** The text starts with a digit. *)
Definition starts_with_digit (s : string) : bool :=
  match s with
  | String a _ => is_digit a
  | EmptyString => false
  end.

(** The [.csv] files of a directory that a distributor with [n] groups
    does not write again: files left by something else, and group files
    of an earlier run with more groups. *)
Definition stale_files (n : nat) (dir : folder) : folder :=
  List.filter
    (fun f => ends_with_csv f.1
              && negb (bool_decide (f.1 ∈ group_file_name <$> seq 1 n)))
    dir.

(** One digit of [read_int]: the digit [k] in front of [s]. *)
Ltac read_digit IH k :=
  change (read_int (String.append (String _ ?s) ?rest) ?acc)
    with (read_int (String.append s rest) (10 * acc + k));
  rewrite IH by lia; do 3 f_equal; rewrite Nat.tail_mul_spec; lia.

(** Case analysis on the test [remainder > 0] of the loop. *)
Ltac case_rem :=
  match goal with
  | |- context [0 <? ?r] => destruct (Z.ltb_spec 0 r)
  end.

(** * Properties *)

(** ** Dictionaries *)

Section DictFacts.
Context {V : Type}.
Implicit Types (d : Dict.t V) (k : string) (v : V).

Lemma get_set d k k' v :
  Dict.get k' (Dict.set k v d) = if decide (k' = k) then Some v else Dict.get k' d.
Proof.
  induction d as [|[k0 v0] d IH]; simpl.
  - destruct (String.eqb_spec k' k); case_decide; congruence.
  - destruct (String.eqb_spec k k0) as [->|Hk]; simpl.
    + destruct (String.eqb_spec k' k0); case_decide; congruence.
    + rewrite IH. destruct (String.eqb_spec k' k0); case_decide; congruence.
Qed.

Lemma get_None d k : Dict.get k d = None ↔ k ∉ Dict.keys d.
Proof.
  unfold Dict.keys. induction d as [|[k0 v0] d IH]; simpl.
  - split; [intros _; apply not_elem_of_nil | done].
  - rewrite not_elem_of_cons, <- IH.
    destruct (String.eqb_spec k k0); [|tauto].
    split; [done|]. intros [? _]; done.
Qed.

Lemma keys_set_present d k v :
  k ∈ Dict.keys d → Dict.keys (Dict.set k v d) = Dict.keys d.
Proof.
  unfold Dict.keys. induction d as [|[k0 v0] d IH]; simpl.
  - intros H. by apply elem_of_nil in H.
  - destruct (String.eqb_spec k k0) as [->|Hk]; simpl; [done|].
    intros [?|?]%elem_of_cons; [done|]. f_equal. auto.
Qed.

Lemma set_absent d k v : k ∉ Dict.keys d → Dict.set k v d = d ++ [(k, v)].
Proof.
  unfold Dict.keys. induction d as [|[k0 v0] d IH]; simpl; [done|].
  rewrite not_elem_of_cons. intros [Hk Hd].
  destruct (String.eqb_spec k k0); [done|]. f_equal. auto.
Qed.

Lemma wf_set d k v : Dict.wf d → Dict.wf (Dict.set k v d).
Proof.
  unfold Dict.wf. intros Hd. destruct (decide (k ∈ Dict.keys d)) as [Hk|Hk].
  - by rewrite keys_set_present.
  - rewrite set_absent by done. unfold Dict.keys in *.
    rewrite fmap_app. simpl. apply NoDup_app. split_and!; [done| |apply NoDup_singleton].
    intros x Hx ->%list_elem_of_singleton. done.
Qed.

Lemma keys_del_subseteq d k : Dict.keys (Dict.del k d) ⊆ Dict.keys d.
Proof.
  unfold Dict.keys. induction d as [|[k0 v0] d IH]; simpl; [done|].
  destruct (String.eqb_spec k k0); simpl.
  - by apply list_subseteq_cons.
  - intros x [->|Hx]%elem_of_cons; [left|right; auto].
Qed.

Lemma wf_del d k : Dict.wf d → Dict.wf (Dict.del k d).
Proof.
  unfold Dict.wf, Dict.keys. induction d as [|[k0 v0] d IH]; simpl; [done|].
  rewrite NoDup_cons. intros [Hk Hd].
  destruct (String.eqb_spec k k0); simpl; [done|].
  apply NoDup_cons. split; [|auto].
  intros H. apply Hk. by apply (keys_del_subseteq d k).
Qed.

Lemma of_items_wf (items : list (string * V)) :
  NoDup items.*1 → Dict.of_items items = items.
Proof.
  unfold Dict.of_items.
  enough (∀ acc : Dict.t V, NoDup (acc ++ items).*1 →
            fold_left (fun d kv => Dict.set kv.1 kv.2 d) items acc = acc ++ items)
    as H by (intros; by apply (H [])).
  induction items as [|[k v] items IH]; intros acc Hnd; simpl.
  - by rewrite app_nil_r.
  - rewrite set_absent.
    + rewrite IH; rewrite <- app_assoc; done.
    + rewrite fmap_app in Hnd. apply NoDup_app in Hnd as (_ & Hnd & _).
      intros Hk. apply (Hnd k Hk). simpl. left.
Qed.
End DictFacts.

(** ** Branch Classifier *)

Lemma branch_code_shape s code : branch_code s = Some code ↔ roll_shape s code.
Proof.
  unfold branch_code, roll_shape. split.
  - do 8 (destruct s as [|? s]; [done|]). simpl.
    match goal with |- context [if ?b then _ else _] => destruct b eqn:Hb end;
      [|done].
    simpl. intros [= <-].
    do 7 (apply andb_prop in Hb as [Hb ?]).
    do 9 eexists. split_and!; first [reflexivity | by apply Is_true_true].
  - intros (d1 & d2 & d3 & d4 & l1 & l2 & e1 & e2 & rest & -> & Hd & Hl & He & ->).
    destruct Hd as (?%Is_true_true & ?%Is_true_true & ?%Is_true_true & ?%Is_true_true).
    destruct Hl as (?%Is_true_true & ?%Is_true_true).
    destruct He as (?%Is_true_true & ?%Is_true_true).
    simpl. by repeat match goal with H : _ = true |- _ => rewrite H; clear H end.
Qed.

Lemma concat_values_set {A} (d : Dict.t (list A)) k old new :
  Dict.get k d = Some old →
  (length (concat (Dict.values (Dict.set k new d))) + length old
   = length (concat (Dict.values d)) + length new)%nat
  ∧ ∀ r, new = old ++ [r] →
         concat (Dict.values (Dict.set k new d)) ≡ₚ concat (Dict.values d) ++ [r].
Proof.
  unfold Dict.values. induction d as [|[k0 v0] d IH]; csimpl; [done|].
  destruct (String.eqb_spec k k0) as [->|Hk]; csimpl.
  - intros [= ->]. rewrite !length_app. split; [lia|].
    intros r ->. rewrite <- !app_assoc. f_equiv. apply Permutation_app_comm.
  - intros H. destruct (IH H) as [IH1 IH2]. rewrite !length_app. split; [lia|].
    intros r Hr. rewrite <- app_assoc. f_equiv. auto.
Qed.

Lemma classify_row_spec st row :
  let st' := classify_row st row in
  Dict.wf st.1 →
  (∀ k v, Dict.get k st.1 = Some v → v ≠ []) →
  Dict.wf st'.1 ∧
  (∀ k v, Dict.get k st'.1 = Some v → v ≠ []) ∧
  (∀ code, default [] (Dict.get code st'.1)
           = default [] (Dict.get code st.1) ++ rows_of_branch code [row]) ∧
  st'.2 = st.2 ++ (Roll <$> unmatched_rows [row]) ∧
  concat (Dict.values st'.1) ≡ₚ concat (Dict.values st.1) ++ matched_rows [row].
Proof.
  destruct st as [grouped out]. unfold classify_row, rows_of_branch, unmatched_rows,
    matched_rows, branch_code. simpl.
  intros Hwf Hne. rewrite !filter_cons, !filter_nil.
  destruct (pattern_match (Roll row)) as [letters|] eqn:Hm; simpl.
  - unfold setdefault_append.
    destruct (Dict.get (upper letters) grouped) as [old|] eqn:Hg.
    + split_and!.
      * by apply wf_set.
      * intros k v. rewrite get_set. case_decide; [|by apply Hne].
        intros [= <-]. by destruct old.
      * intros code. rewrite filter_cons, filter_nil, Hm, get_set. simpl.
        case_decide as Hc.
        -- subst code. rewrite Hg. simpl. by rewrite decide_True.
        -- rewrite decide_False by congruence. by rewrite app_nil_r.
      * by rewrite app_nil_r.
      * by eapply concat_values_set.
    + split_and!.
      * by apply wf_set.
      * intros k v. rewrite get_set. case_decide; [|by apply Hne].
        by intros [= <-].
      * intros code. rewrite filter_cons, filter_nil, Hm, get_set. simpl.
        case_decide as Hc.
        -- subst code. rewrite Hg. simpl. by rewrite decide_True.
        -- rewrite decide_False by congruence. by rewrite app_nil_r.
      * by rewrite app_nil_r.
      * apply get_None in Hg. rewrite set_absent by done. unfold Dict.values.
        rewrite fmap_app, concat_app. done.
  - split_and!; try done.
    + intros code. rewrite filter_cons, filter_nil, Hm. simpl. by rewrite app_nil_r.
    + by rewrite app_nil_r.
Qed.

Lemma classify_fold_spec df st :
  let st' := fold_left classify_row df st in
  Dict.wf st.1 →
  (∀ k v, Dict.get k st.1 = Some v → v ≠ []) →
  Dict.wf st'.1 ∧
  (∀ k v, Dict.get k st'.1 = Some v → v ≠ []) ∧
  (∀ code, default [] (Dict.get code st'.1)
           = default [] (Dict.get code st.1) ++ rows_of_branch code df) ∧
  st'.2 = st.2 ++ (Roll <$> unmatched_rows df) ∧
  concat (Dict.values st'.1) ≡ₚ concat (Dict.values st.1) ++ matched_rows df.
Proof.
  revert st. induction df as [|row df IH]; intros st; simpl.
  - intros Hwf Hne. split_and!; try done.
    + intros code. by rewrite app_nil_r.
    + by rewrite app_nil_r.
    + by rewrite app_nil_r.
  - intros Hwf Hne.
    destruct (classify_row_spec st row Hwf Hne) as (Hwf1 & Hne1 & Hb1 & Ho1 & Hp1).
    destruct (IH _ Hwf1 Hne1) as (Hwf2 & Hne2 & Hb2 & Ho2 & Hp2).
    split_and!; try done.
    + intros code. rewrite Hb2, Hb1. unfold rows_of_branch.
      rewrite <- app_assoc. f_equal. by rewrite <- filter_app.
    + rewrite Ho2, Ho1. unfold unmatched_rows.
      rewrite <- app_assoc, <- fmap_app. do 2 f_equal. by rewrite <- filter_app.
    + rewrite Hp2, Hp1. unfold matched_rows.
      rewrite <- app_assoc. f_equiv. by rewrite <- filter_app.
Qed.

(** C1. Branch Classifier partition.  For every table [df]: an identifier
    has a branch code exactly when it starts with four digits, two letters
    and two digits, and the code is the two letters in upper case; the
    dictionary returned has one entry per code that occurs, and the bucket
    of a code holds exactly the rows with that code, in the order of [df];
    the rows without a code are in no bucket and their identifiers are
    the ones printed; the buckets together with the rows without a code
    are the rows of [df], each as often as it occurs there. *)
Theorem split_by_branch_partition (df : list Row) :
  let grouped := (split_by_branch df).1 in
  let printed := (split_by_branch df).2 in
  (∀ s code, branch_code s = Some code ↔ roll_shape s code) ∧
  Dict.wf grouped ∧
  (∀ code, Dict.get code grouped = None ↔ rows_of_branch code df = []) ∧
  (∀ code bucket, Dict.get code grouped = Some bucket →
                  bucket = rows_of_branch code df) ∧
  (∀ code bucket r, Dict.get code grouped = Some bucket → r ∈ bucket →
                    branch_code (Roll r) = Some code) ∧
  printed = Roll <$> unmatched_rows df ∧
  concat (Dict.values grouped) ++ unmatched_rows df ≡ₚ df.
Proof.
  intros grouped printed.
  destruct (classify_fold_spec df ([], [])) as (Hwf & Hne & Hb & Ho & Hp).
  { apply NoDup_nil_2. }
  { done. }
  fold (split_by_branch df) in Hwf, Hne, Hb, Ho, Hp. simpl in Hb, Ho, Hp.
  assert (Hsome : ∀ code bucket, Dict.get code grouped = Some bucket →
                                 bucket = rows_of_branch code df).
  { intros code bucket Hg. specialize (Hb code). subst grouped.
    by rewrite Hg in Hb. }
  split_and!; try done.
  - apply branch_code_shape.
  - intros code. specialize (Hb code). fold grouped in Hb. split.
    + intros Hg. by rewrite Hg in Hb.
    + intros Hf. destruct (Dict.get code grouped) as [v|] eqn:Hg; [|done].
      exfalso. apply (Hne code v Hg). simpl in Hb. congruence.
  - intros code bucket r Hg Hr. rewrite (Hsome _ _ Hg) in Hr.
    by apply list_elem_of_filter in Hr as [? _].
  - subst grouped. rewrite Hp. unfold matched_rows, unmatched_rows.
    rewrite <- (filter_app_complement (fun r => branch_code (Roll r) = None) df) at 3.
    apply Permutation_app_comm.
Qed.

(** ** Sorting *)

Section SortedFacts.
Context {A : Type} (before : A → A → bool).

Lemma sorted_insert_perm x l : sorted_insert before x l ≡ₚ x :: l.
Proof.
  induction l as [|y l IH]; simpl; [done|].
  destruct (before y x); [|done].
  rewrite IH. apply Permutation_swap.
Qed.

Lemma sorted_perm l : sorted before l ≡ₚ l.
Proof.
  induction l as [|x l IH]; simpl; [done|].
  by rewrite sorted_insert_perm, IH.
Qed.

(** Stability: elements that no element has to precede or follow relative
    to [x] keep their order; stated for a class [P] of elements none of
    which has to come before another. *)
Lemma sorted_insert_stable (P : A → Prop) `{!∀ a, Decision (P a)} x l :
  (∀ a b, P a → P b → before a b = false) →
  filter P (sorted_insert before x l) = filter P (x :: l).
Proof.
  intros HP. induction l as [|y l IH]; simpl; [done|].
  destruct (before y x) eqn:Hyx; [|done].
  rewrite filter_cons, IH, !filter_cons.
  destruct (decide (P y)) as [Hy|]; [|done].
  destruct (decide (P x)) as [Hx|]; [|done].
  by rewrite HP in Hyx.
Qed.

Lemma sorted_stable (P : A → Prop) `{!∀ a, Decision (P a)} l :
  (∀ a b, P a → P b → before a b = false) →
  filter P (sorted before l) = filter P l.
Proof.
  intros HP. induction l as [|x l IH]; simpl; [done|].
  rewrite sorted_insert_stable by done. by rewrite !filter_cons, IH.
Qed.
End SortedFacts.

Section SortedOrder.
Context {A : Type} (before : A → A → bool) (R : A → A → Prop) `{!Transitive R}.
Context (before_true : ∀ y x, before y x = true → R y x).
Context (before_false : ∀ y x, before y x = false → R x y).

Lemma sorted_insert_ordered x l :
  StronglySorted R l → StronglySorted R (sorted_insert before x l).
Proof.
  induction 1 as [|y l Hl IH Hy]; simpl.
  - repeat constructor.
  - destruct (before y x) eqn:Hyx.
    + constructor; [done|].
      rewrite sorted_insert_perm. constructor; [by apply before_true|done].
    + constructor; [by constructor|].
      constructor; [by apply before_false|].
      eapply Forall_impl; [exact Hy|]. intros z Hz. simpl in Hz.
      etrans; [by apply before_false|done].
Qed.

Lemma sorted_ordered l : StronglySorted R (sorted before l).
Proof.
  induction l as [|x l IH]; simpl; [constructor|].
  by apply sorted_insert_ordered.
Qed.
End SortedOrder.

Lemma sorted_strings_ordered (l : list string) :
  StronglySorted String.le (sorted_strings l).
Proof.
  apply sorted_ordered.
  - apply _.
  - intros y x. unfold String.ltb, String.le, String.leb.
    destruct (String.compare y x); done.
  - intros y x. unfold String.ltb, String.le, String.leb.
    rewrite (String.compare_antisym x y).
    destruct (String.compare y x); done.
Qed.

Lemma sorted_strings_perm (l : list string) : sorted_strings l ≡ₚ l.
Proof. apply sorted_perm. Qed.

Lemma sorted_by_size_perm {A} (items : list (string * list A)) :
  sorted_by_size items ≡ₚ items.
Proof. apply sorted_perm. Qed.

Lemma sorted_by_size_desc {A} (items : list (string * list A)) :
  StronglySorted (fun a b => bucket_size b ≤ bucket_size a) (sorted_by_size items).
Proof.
  apply sorted_ordered.
  - intros a b c Hab Hbc. simpl in *. lia.
  - intros y x H%Z.ltb_lt. lia.
  - intros y x H%Z.ltb_ge. lia.
Qed.

Lemma sorted_by_size_stable {A} (items : list (string * list A)) (n : Z) :
  filter (fun kv => bucket_size kv = n) (sorted_by_size items)
  = filter (fun kv => bucket_size kv = n) items.
Proof.
  apply sorted_stable. intros a b -> Hb. apply Z.ltb_ge. lia.
Qed.

(** ** Uniform Distributor *)

Lemma length_concat_sum {A} (ls : list (list A)) :
  length (concat ls) = sum_list_with length ls.
Proof. induction ls as [|l ls IH]; simpl; [done|]. rewrite length_app. lia. Qed.

Lemma length_flattened {A} (bd : Dict.t (list A)) :
  Z.of_nat (length (flattened bd)) = total_records bd.
Proof.
  unfold flattened, total_records, Dict.values.
  by rewrite length_concat_sum, (sorted_by_size_perm bd).
Qed.

Lemma slice_inside {A} (l : list A) (start stop : Z) :
  0 ≤ start → start ≤ stop → stop ≤ Z.of_nat (length l) →
  slice l start stop = take (Z.to_nat (stop - start)) (drop (Z.to_nat start) l).
Proof.
  intros H0 H1 H2. unfold slice, slice_bound.
  destruct (Z.ltb_spec start 0); [lia|]. destruct (Z.ltb_spec stop 0); [lia|].
  by rewrite !Z.min_l by lia.
Qed.

(** The loop cuts consecutive pieces: with [n] turns left from offset
    [pointer], turn [i] takes [size] records, one more while the remainder
    lasts. *)
Lemma uniform_loop_lookup {A} (merged : list A) size n remainder pointer i :
  0 ≤ size → 0 ≤ remainder → 0 ≤ pointer →
  pointer + Z.of_nat n * size + Z.min remainder (Z.of_nat n)
    ≤ Z.of_nat (length merged) →
  (i < n)%nat →
  uniform_loop merged size n remainder pointer !! i
  = Some (take (Z.to_nat (size + (if Z.of_nat i <? remainder then 1 else 0)))
            (drop (Z.to_nat (pointer + Z.of_nat i * size
                             + Z.min (Z.of_nat i) remainder)) merged)).
Proof.
  revert remainder pointer i.
  induction n as [|n IH]; intros remainder pointer i Hs Hr Hp Hlen Hi; [lia|].
  simpl uniform_loop. destruct i as [|i].
  - simpl lookup. rewrite slice_inside; [|lia|case_rem; lia|].
    + change (Z.of_nat 0) with 0.
      f_equal. f_equal; [|f_equal; lia].
      case_rem; f_equal; lia.
    + case_rem; nia.
  - rewrite lookup_cons_ne_0 by lia. simpl pred.
    rewrite IH; [| lia | case_rem; lia
                 | case_rem; lia | | lia].
    + f_equal. f_equal.
      * case_rem;
          destruct (Z.ltb_spec (Z.of_nat i) (remainder - 1));
          destruct (Z.ltb_spec (Z.of_nat (S i)) remainder);
          try destruct (Z.ltb_spec (Z.of_nat i) (remainder - 0)); f_equal; lia.
      * f_equal. case_rem; nia.
    + case_rem; nia.
Qed.

Lemma length_uniform_loop {A} (merged : list A) size n remainder pointer :
  length (uniform_loop merged size n remainder pointer) = n.
Proof.
  revert remainder pointer. induction n as [|n IH]; intros; simpl; [done|].
  by rewrite IH.
Qed.

Lemma uniform_loop_concat {A} (merged : list A) size n remainder pointer :
  0 ≤ size → 0 ≤ remainder → 0 ≤ pointer →
  pointer + Z.of_nat n * size + Z.min remainder (Z.of_nat n)
    ≤ Z.of_nat (length merged) →
  concat (uniform_loop merged size n remainder pointer)
  = take (Z.to_nat (Z.of_nat n * size + Z.min remainder (Z.of_nat n)))
      (drop (Z.to_nat pointer) merged).
Proof.
  revert remainder pointer.
  induction n as [|n IH]; intros remainder pointer Hs Hr Hp Hlen.
  - simpl. by rewrite Z.min_r by lia.
  - simpl uniform_loop. simpl concat.
    rewrite slice_inside; [|lia|case_rem; lia
                           |case_rem; nia].
    rewrite IH; [| lia | case_rem; lia
                 | case_rem; lia
                 | case_rem; nia].
    set (a := Z.to_nat (pointer + size + (if 0 <? remainder then 1 else 0) - pointer)).
    replace (Z.to_nat (pointer + size + (if 0 <? remainder then 1 else 0)))
      with (Z.to_nat pointer + a)%nat
      by (subst a; case_rem; lia).
    rewrite <- drop_drop, take_take_drop. f_equal.
    subst a. case_rem; nia.
Qed.

Lemma example_buckets_wf : Dict.wf example_buckets.
Proof. apply (bool_decide_unpack _). vm_compute. exact I. Defined.

Lemma example_buckets_nonempty : example_buckets ≠ [].
Proof. vm_compute. discriminate. Defined.

(** On a non-empty mapping and a positive count the function reaches the
    loop, with the flattened buckets and the quotient and remainder of the
    total. *)
Lemma uniform_distribution_Ok {A} (bd : Dict.t (list A)) (N : Z) :
  Dict.wf bd → bd ≠ [] → 1 ≤ N →
  uniform_distribution bd N
  = Ok (uniform_loop (flattened bd) (total_records bd / N) (Z.to_nat N)
          (total_records bd mod N) 0).
Proof.
  intros Hwf Hne HN. unfold uniform_distribution.
  rewrite of_items_wf by (by rewrite (sorted_by_size_perm bd)).
  destruct (Dict.values (sorted_by_size bd)) as [|f fs] eqn:Hv.
  - exfalso. apply Hne. apply fmap_nil_inv in Hv.
    apply Permutation_nil_r. by rewrite <- Hv, sorted_by_size_perm.
  - destruct (Z.eqb_spec N 0); [lia|].
    rewrite <- Hv. fold (flattened bd). by rewrite length_flattened.
Qed.

Lemma concat_lookup_slice {A} (gs : list (list A)) i g :
  gs !! i = Some g →
  g = take (length g) (drop (length (concat (take i gs))) (concat gs)).
Proof.
  intros Hi. rewrite <- (take_drop_middle gs i g Hi) at 2.
  rewrite concat_app. simpl. by rewrite drop_app_length, take_app_length.
Qed.

(** The sizes of the groups the loop writes. *)
Lemma uniform_sizes {A} (bd : Dict.t (list A)) (N : Z) :
  Dict.wf bd → bd ≠ [] → 1 ≤ N →
  ∃ groups,
    uniform_distribution bd N = Ok groups ∧
    length groups = Z.to_nat N ∧
    (∀ i g, groups !! i = Some g →
            Z.of_nat (length g) = size_profile (total_records bd) N i) ∧
    Z.of_nat (sum_list_with length groups) = total_records bd ∧
    (∀ g1 g2, g1 ∈ groups → g2 ∈ groups →
              Z.of_nat (length g1) - Z.of_nat (length g2) ≤ 1).
Proof.
  intros Hwf Hne HN. eexists. split; [by apply uniform_distribution_Ok|].
  set (T := total_records bd).
  assert (HT : 0 ≤ T) by (unfold T, total_records; lia).
  pose proof (Z.div_pos T N HT ltac:(lia)) as Hq.
  pose proof (Z.mod_pos_bound T N ltac:(lia)) as Hr.
  pose proof (Z.div_mod T N ltac:(lia)) as Hdm.
  pose proof (length_flattened bd) as Hlen. fold T in Hlen.
  assert (Hfit : 0 + Z.of_nat (Z.to_nat N) * (T / N)
                 + Z.min (T mod N) (Z.of_nat (Z.to_nat N))
                 ≤ Z.of_nat (length (flattened bd))) by lia.
  assert (Hsize : ∀ i g,
    uniform_loop (flattened bd) (T / N) (Z.to_nat N) (T mod N) 0 !! i = Some g →
    Z.of_nat (length g) = size_profile T N i).
  { intros i g Hi.
    assert (i < Z.to_nat N)%nat as Hlt.
    { apply lookup_lt_Some in Hi. by rewrite length_uniform_loop in Hi. }
    rewrite uniform_loop_lookup in Hi by lia. injection Hi as <-.
    rewrite length_take, length_drop. unfold size_profile.
    destruct (Z.ltb_spec (Z.of_nat i) (T mod N)); nia. }
  split_and!.
  - apply length_uniform_loop.
  - exact Hsize.
  - rewrite <- length_concat_sum, uniform_loop_concat by lia.
    rewrite drop_0, take_ge by lia. done.
  - intros g1 g2 [i1 H1]%list_elem_of_lookup [i2 H2]%list_elem_of_lookup.
    rewrite (Hsize _ _ H1), (Hsize _ _ H2). unfold size_profile.
    destruct (Z.of_nat i1 <? T mod N), (Z.of_nat i2 <? T mod N); lia.
Qed.

(** C2. Uniform Distributor group sizes.  For a non-empty bucket mapping
    with [T] records and [N >= 1] groups the function returns [N] groups;
    group [i] has [T / N] records and one more when [i < T mod N]; the
    sizes add up to [T] and two sizes differ by at most one. *)
Theorem uniform_group_sizes {A} (bd : Dict.t (list A)) (N : Z) :
  Dict.wf bd → bd ≠ [] → 1 ≤ N →
  ∃ groups,
    uniform_distribution bd N = Ok groups ∧
    length groups = Z.to_nat N ∧
    (∀ i g, groups !! i = Some g →
            Z.of_nat (length g) = size_profile (total_records bd) N i) ∧
    Z.of_nat (sum_list_with length groups) = total_records bd ∧
    (∀ g1 g2, g1 ∈ groups → g2 ∈ groups →
              Z.of_nat (length g1) - Z.of_nat (length g2) ≤ 1).
Proof. apply uniform_sizes. Qed.

Lemma uniform_group_sizes_witness :
  ∃ groups,
    uniform_distribution example_buckets 3 = Ok groups ∧
    length groups = Z.to_nat 3 ∧
    (∀ i g, groups !! i = Some g →
            Z.of_nat (length g) = size_profile (total_records example_buckets) 3 i) ∧
    Z.of_nat (sum_list_with length groups) = total_records example_buckets ∧
    (∀ g1 g2, g1 ∈ groups → g2 ∈ groups →
              Z.of_nat (length g1) - Z.of_nat (length g2) ≤ 1).
Proof.
  apply (uniform_group_sizes example_buckets 3).
  - exact example_buckets_wf.
  - exact example_buckets_nonempty.
  - lia.
Defined.

(** C4. Uniform Distributor round trip.  For a non-empty bucket mapping
    and [N >= 1] the function produces exactly [N] groups; concatenated in
    index order they are the flattened sequence; group [i] is the piece of
    that sequence that starts where the groups before it end; and the
    flattened sequence takes the buckets by falling size, buckets of equal
    size in the order of the mapping. *)
Theorem uniform_round_trip {A} (bd : Dict.t (list A)) (N : Z) :
  Dict.wf bd → bd ≠ [] → 1 ≤ N →
  ∃ groups,
    uniform_distribution bd N = Ok groups ∧
    length groups = Z.to_nat N ∧
    concat groups = flattened bd ∧
    (∀ i g, groups !! i = Some g →
            g = take (length g)
                  (drop (length (concat (take i groups))) (flattened bd))) ∧
    sorted_by_size bd ≡ₚ bd ∧
    StronglySorted (fun a b => bucket_size b ≤ bucket_size a) (sorted_by_size bd) ∧
    (∀ n, filter (fun kv => bucket_size kv = n) (sorted_by_size bd)
          = filter (fun kv => bucket_size kv = n) bd).
Proof.
  intros Hwf Hne HN. eexists. split; [by apply uniform_distribution_Ok|].
  set (T := total_records bd).
  assert (HT : 0 ≤ T) by (unfold T, total_records; lia).
  pose proof (Z.div_pos T N HT ltac:(lia)) as Hq.
  pose proof (Z.mod_pos_bound T N ltac:(lia)) as Hr.
  pose proof (Z.div_mod T N ltac:(lia)) as Hdm.
  pose proof (length_flattened bd) as Hlen. fold T in Hlen.
  assert (Hcat : concat (uniform_loop (flattened bd) (T / N) (Z.to_nat N) (T mod N) 0)
                 = flattened bd).
  { rewrite uniform_loop_concat by lia. rewrite drop_0, take_ge by lia. done. }
  split_and!.
  - apply length_uniform_loop.
  - exact Hcat.
  - intros i g Hi. rewrite <- Hcat at 2. by apply concat_lookup_slice.
  - apply sorted_by_size_perm.
  - apply sorted_by_size_desc.
  - apply sorted_by_size_stable.
Qed.

Lemma uniform_round_trip_witness :
  ∃ groups,
    uniform_distribution example_buckets 3 = Ok groups ∧
    length groups = Z.to_nat 3 ∧
    concat groups = flattened example_buckets ∧
    (∀ i g, groups !! i = Some g →
            g = take (length g)
                  (drop (length (concat (take i groups))) (flattened example_buckets))) ∧
    sorted_by_size example_buckets ≡ₚ example_buckets ∧
    StronglySorted (fun a b => bucket_size b ≤ bucket_size a)
      (sorted_by_size example_buckets) ∧
    (∀ n, filter (fun kv => bucket_size kv = n) (sorted_by_size example_buckets)
          = filter (fun kv => bucket_size kv = n) example_buckets).
Proof.
  apply (uniform_round_trip example_buckets 3).
  - exact example_buckets_wf.
  - exact example_buckets_nonempty.
  - lia.
Defined.

(** C6. The failing input: the empty mapping, which the classifier returns
    for a table without a classified row, with one group.  It holds
    [T = 0 < 1] records, and the Uniform Distributor ends with the
    [ValueError] of [pd.concat] before any group is written, where the
    claim asks for one empty group.  The Mixed Distributor writes the
    empty group on this input, and so does the Uniform Distributor itself
    on a mapping whose only bucket is empty. *)
Lemma uniform_empty_mapping_raises :
  total_records (split_by_branch []).1 < 1 ∧
  uniform_distribution (split_by_branch []).1 1 = Raise ValueError ∧
  mixed_distribution (split_by_branch []).1 1 = Ok [[]] ∧
  uniform_distribution [("CS"%string, @nil Row)] 1 = Ok [[]].
Proof. split_and!; [vm_compute| | |]; reflexivity. Qed.

(** ** Mixed Distributor *)

Section PoolFacts.
Context {A : Type}.
Implicit Types (pools : Dict.t (list A)) (k : string).

Lemma getitem_present pools k :
  k ∈ Dict.keys pools → ∃ q, Dict.get k pools = Some q.
Proof.
  intros Hk. destruct (Dict.get k pools) as [q|] eqn:Hg; [by exists q|].
  by apply get_None in Hg.
Qed.

Lemma keys_del pools k k' :
  Dict.wf pools → k' ∈ Dict.keys (Dict.del k pools) ↔ k' ∈ Dict.keys pools ∧ k' ≠ k.
Proof.
  unfold Dict.wf, Dict.keys. induction pools as [|[k0 v0] d IH]; csimpl.
  - intros _. split; [by intros ?%elem_of_nil | by intros [?%elem_of_nil _]].
  - rewrite NoDup_cons. intros [Hk0 Hd].
    destruct (String.eqb_spec k k0) as [->|Hne]; csimpl.
    + rewrite elem_of_cons. split.
      * intros Hk'. split; [by right|]. by intros ->.
      * intros [[->|?] ?]; done.
    + rewrite !elem_of_cons, IH by done. split.
      * intros [->|[? ?]]; split; auto.
      * intros [[->|?] ?]; auto.
Qed.

Lemma queued_del pools k q :
  Dict.get k pools = Some q → queued pools ≡ₚ q ++ queued (Dict.del k pools).
Proof.
  unfold queued, Dict.values. induction pools as [|[k0 v0] d IH]; csimpl; [done|].
  destruct (String.eqb_spec k k0) as [->|Hne]; csimpl.
  - by intros [= ->].
  - intros Hg. rewrite (IH Hg), !app_assoc. f_equiv. apply Permutation_app_comm.
Qed.

Lemma weight_del pools k q :
  Dict.get k pools = Some q →
  pools_weight pools = (S (length q) + pools_weight (Dict.del k pools))%nat.
Proof.
  unfold pools_weight. induction pools as [|[k0 v0] d IH]; csimpl; [done|].
  destruct (String.eqb_spec k k0) as [->|Hne]; csimpl.
  - by intros [= ->].
  - intros Hg. rewrite (IH Hg). lia.
Qed.

Lemma del_set pools k q : Dict.del k (Dict.set k q pools) = Dict.del k pools.
Proof.
  induction pools as [|[k0 v0] d IH]; csimpl.
  - by rewrite String.eqb_refl.
  - destruct (String.eqb_spec k k0) as [->|Hne]; csimpl.
    + by rewrite String.eqb_refl.
    + destruct (String.eqb_spec k k0); [done|]. by rewrite IH.
Qed.

Lemma get_set_same pools k q : Dict.get k (Dict.set k q pools) = Some q.
Proof. rewrite get_set. by rewrite decide_True. Qed.

Lemma queued_set pools k q q' :
  Dict.get k pools = Some q →
  queued (Dict.set k q' pools) ≡ₚ q' ++ queued (Dict.del k pools).
Proof.
  intros _. rewrite (queued_del (Dict.set k q' pools) k q') by apply get_set_same.
  by rewrite del_set.
Qed.

Lemma weight_set pools k q q' :
  Dict.get k pools = Some q →
  pools_weight (Dict.set k q' pools)
  = (S (length q') + pools_weight (Dict.del k pools))%nat.
Proof.
  intros _. rewrite (weight_del (Dict.set k q' pools) k q') by apply get_set_same.
  by rewrite del_set.
Qed.

Lemma weight_nonempty pools : pools ≠ [] → (0 < pools_weight pools)%nat.
Proof. destruct pools as [|[??] ?]; [done|]. unfold pools_weight. csimpl. lia. Qed.
End PoolFacts.

Section FillFacts.
Context {A : Type}.
Implicit Types (pools : Dict.t (list A)) (group g : list A) (groups : list (list A)).

(** A visit of a branch whose queue is empty deletes the key. *)
Lemma visit_empty pools b :
  Dict.wf pools → Dict.get b pools = Some [] →
  Dict.wf (Dict.del b pools) ∧
  queued pools ≡ₚ queued (Dict.del b pools) ∧
  (pools_weight (Dict.del b pools) < pools_weight pools)%nat ∧
  (∀ x, x ∈ Dict.keys pools → x ≠ b → x ∈ Dict.keys (Dict.del b pools)).
Proof.
  intros Hwf Hg. split_and!.
  - by apply wf_del.
  - by rewrite (queued_del pools b []).
  - rewrite (weight_del pools b []) by done. lia.
  - intros x Hx Hne. by apply keys_del.
Qed.

(** A visit of a branch with a record pops it, and deletes the key when the
    queue is empty afterwards. *)
Lemma visit_pop pools b r q :
  Dict.wf pools → Dict.get b pools = Some (r :: q) →
  let pools1 := Dict.set b q pools in
  let pools2 := match q with [] => Dict.del b pools1 | _ :: _ => pools1 end in
  Dict.wf pools2 ∧
  queued pools ≡ₚ r :: queued pools2 ∧
  (pools_weight pools2 < pools_weight pools)%nat ∧
  (∀ x, x ∈ Dict.keys pools → x ≠ b → x ∈ Dict.keys pools2).
Proof.
  intros Hwf Hg pools1 pools2.
  assert (Hb : b ∈ Dict.keys pools).
  { destruct (decide (b ∈ Dict.keys pools)) as [|Hn]; [done|].
    apply get_None in Hn. congruence. }
  destruct q as [|r2 q]; subst pools1 pools2.
  - rewrite del_set. split_and!.
    + by apply wf_del.
    + by rewrite (queued_del pools b [r]).
    + rewrite (weight_del pools b [r]) by done. lia.
    + intros x Hx Hne. by apply keys_del.
  - split_and!.
    + by apply wf_set.
    + rewrite (queued_set pools b (r :: r2 :: q)) by done.
      by rewrite (queued_del pools b (r :: r2 :: q)).
    + rewrite (weight_set pools b (r :: r2 :: q)) by done.
      rewrite (weight_del pools b (r :: r2 :: q)) by done. simpl. lia.
    + intros x Hx _. by rewrite keys_set_present.
Qed.

Lemma for_branches_cons size b rest g pools :
  for_branches size (b :: rest) g pools
  = (queue ← getitem b pools;
     let '(group1, pools1) :=
       match queue with
       | [] => (g, pools)
       | r :: queue' => (g ++ [r], Dict.set b queue' pools)
       end in
     queue1 ← getitem b pools1;
     let pools2 :=
       match queue1 with
       | [] => Dict.del b pools1
       | _ :: _ => pools1
       end in
     if Z.of_nat (length group1) =? size then Ok (group1, pools2)
     else for_branches size rest group1 pools2).
Proof. reflexivity. Qed.

(** One pass over the branches: no key is missing, no record is lost, the
    group does not pass [size], and the pass makes progress. *)
Lemma for_branches_spec size branches g pools :
  Dict.wf pools → NoDup branches → branches ⊆ Dict.keys pools →
  Z.of_nat (length g) < size →
  ∃ g' pools',
    for_branches size branches g pools = Ok (g', pools') ∧
    Dict.wf pools' ∧
    g' ++ queued pools' ≡ₚ g ++ queued pools ∧
    Z.of_nat (length g') ≤ size ∧
    (pools_weight pools' ≤ pools_weight pools)%nat ∧
    (branches ≠ [] → (pools_weight pools' < pools_weight pools)%nat).
Proof.
  revert g pools.
  induction branches as [|b rest IH]; intros g pools Hwf Hnd Hsub Hlt.
  - exists g, pools. simpl. split_and!; try done; lia.
  - apply NoDup_cons in Hnd as [Hb Hnd].
    destruct (getitem_present pools b) as [q Hq]; [apply Hsub; left|].
    rewrite for_branches_cons. unfold getitem. rewrite Hq. simpl.
    destruct q as [|r q].
    + destruct (visit_empty pools b Hwf Hq) as (Hwf2 & Hperm & Hw & Hkeys).
      rewrite Hq. simpl.
      destruct (Z.eqb_spec (Z.of_nat (length g)) size); [lia|].
      destruct (IH g (Dict.del b pools)) as (g' & pools' & Hok & ? & Hp' & ? & ? & _);
        [done|done| |done|].
      { intros x Hx. apply Hkeys; [apply Hsub; by right|]. by intros ->. }
      exists g', pools'. split_and!; try done.
      * by rewrite Hp', Hperm.
      * lia.
      * intros _. lia.
    + destruct (visit_pop pools b r q Hwf Hq) as (Hwf2 & Hperm & Hw & Hkeys).
      rewrite get_set_same. simpl.
      set (pools2 := match q with
                     | [] => Dict.del b (Dict.set b q pools)
                     | _ :: _ => Dict.set b q pools
                     end) in *.
      assert (Hlen : length (g ++ [r]) = S (length g)) by (rewrite length_app; simpl; lia).
      destruct (Z.eqb_spec (Z.of_nat (length (g ++ [r]))) size) as [Heq|Hne].
      * exists (g ++ [r]), pools2. split_and!; try done.
        -- rewrite Hperm, <- app_assoc. f_equiv. simpl. done.
        -- lia.
        -- lia.
      * destruct (IH (g ++ [r]) pools2) as (g' & pools' & Hok & ? & Hp' & ? & ? & _);
          [done|done| |lia|].
        { intros x Hx. apply Hkeys; [apply Hsub; by right|]. by intros ->. }
        exists g', pools'. split_and!; try done.
        -- rewrite Hp', Hperm, <- app_assoc. by f_equiv.
        -- lia.
        -- intros _. lia.
Qed.

Lemma fill_while_eq fuel size g pools :
  fill_while fuel size g pools
  = if (Z.of_nat (length g) <? size) && negb (bool_decide (pools = []))
    then match fuel with
         | O => Diverged
         | S fuel' =>
             '(g', pools') ← for_branches size (Dict.keys pools) g pools;
             fill_while fuel' size g' pools'
         end
    else Ok (g, pools).
Proof. by destruct fuel. Qed.

(** The [while] loop ends within its bound, keeps every record, and stops
    with a full group or with no queue left. *)
Lemma fill_while_spec fuel size g pools :
  Dict.wf pools → (pools_weight pools ≤ fuel)%nat → Z.of_nat (length g) ≤ size →
  ∃ g' pools',
    fill_while fuel size g pools = Ok (g', pools') ∧
    Dict.wf pools' ∧
    g' ++ queued pools' ≡ₚ g ++ queued pools ∧
    Z.of_nat (length g') ≤ size ∧
    (Z.of_nat (length g') = size ∨ pools' = []).
Proof.
  revert g pools. induction fuel as [|fuel IH]; intros g pools Hwf Hfuel Hle;
    rewrite fill_while_eq.
  - destruct (Z.ltb_spec (Z.of_nat (length g)) size) as [Hlt|Hge]; simpl.
    + destruct (decide (pools = [])) as [->|Hne].
      * exists g, []. rewrite bool_decide_eq_true_2 by done. simpl.
        split_and!; try done. by right.
      * apply weight_nonempty in Hne. lia.
    + exists g, pools. split_and!; try done. left. lia.
  - destruct (Z.ltb_spec (Z.of_nat (length g)) size) as [Hlt|Hge]; simpl.
    + destruct (decide (pools = [])) as [->|Hne].
      * exists g, []. rewrite bool_decide_eq_true_2 by done. simpl.
        split_and!; try done. by right.
      * rewrite bool_decide_eq_false_2 by done. simpl.
        destruct (for_branches_spec size (Dict.keys pools) g pools)
          as (g1 & pools1 & Hok & Hwf1 & Hp1 & Hle1 & _ & Hw1); [done|done|done|done|].
        rewrite Hok. simpl.
        assert (Dict.keys pools ≠ []) as Hk by (by destruct pools).
        specialize (Hw1 Hk).
        destruct (IH g1 pools1) as (g' & pools' & Hok' & ? & Hp' & ? & ?);
          [done|lia|done|].
        exists g', pools'. split_and!; try done. by rewrite Hp'.
    + exists g, pools. split_and!; try done. left. lia.
Qed.

Lemma index_of_nat groups (i : nat) :
  (i < length groups)%nat → index_of groups (Z.of_nat i) = Ok i.
Proof.
  intros Hi. unfold index_of.
  destruct (Z.ltb_spec (Z.of_nat i) 0); [lia|].
  destruct (Z.leb_spec 0 (Z.of_nat i)); [|lia].
  destruct (Z.ltb_spec (Z.of_nat i) (Z.of_nat (length groups))); [|lia].
  simpl. by rewrite Nat2Z.id.
Qed.

Lemma concat_insert groups i new :
  (i < length groups)%nat →
  concat (<[i := new]> groups)
  = concat (take i groups) ++ new ++ concat (drop (S i) groups).
Proof.
  intros Hi. rewrite insert_take_drop by done. by rewrite concat_app.
Qed.

Lemma concat_middle groups i old :
  groups !! i = Some old →
  concat groups = concat (take i groups) ++ old ++ concat (drop (S i) groups).
Proof.
  intros Hi. rewrite <- (take_drop_middle groups i old Hi) at 1.
  by rewrite concat_app.
Qed.

(** The fill phase: every group from [i] on is filled to [size] as long as
    the queues hold [size] records for each of them. *)
Lemma fill_groups_spec n i size groups pools :
  Dict.wf pools → 0 ≤ size → length groups = (i + n)%nat →
  (∀ j, (i ≤ j)%nat → (j < i + n)%nat → groups !! j = Some []) →
  Z.of_nat n * size ≤ Z.of_nat (length (queued pools)) →
  ∃ groups' pools',
    fill_groups n i size groups pools = Ok (groups', pools') ∧
    Dict.wf pools' ∧
    length groups' = length groups ∧
    (∀ j, (j < i)%nat → groups' !! j = groups !! j) ∧
    (∀ j g, (i ≤ j)%nat → groups' !! j = Some g → Z.of_nat (length g) = size) ∧
    concat groups' ++ queued pools' ≡ₚ concat groups ++ queued pools.
Proof.
  revert i groups pools.
  induction n as [|n IH]; intros i groups pools Hwf Hsize Hlen Hempty Hfit.
  - exists groups, pools. simpl. split_and!; try done.
    intros j g Hj Hg. apply lookup_lt_Some in Hg. lia.
  - simpl. rewrite index_of_nat by lia. simpl.
    assert (Hi : groups !! i = Some []) by (apply Hempty; lia).
    rewrite (list_lookup_total_correct _ _ _ Hi).
    destruct (fill_while_spec (pools_weight pools) size [] pools)
      as (g1 & pools1 & Hok & Hwf1 & Hp1 & Hle1 & Hfull); [done|lia|simpl; lia|].
    rewrite Hok. simpl.
    pose proof (Permutation_length Hp1) as Hl1. rewrite length_app in Hl1. simpl in Hl1.
    assert (Hg1 : Z.of_nat (length g1) = size).
    { destruct Hfull as [?| ->]; [done|]. unfold queued in Hl1 at 1. simpl in Hl1. nia. }
    destruct (IH (S i) (<[i := g1]> groups) pools1)
      as (groups' & pools' & Hok' & ? & Hlen' & Hlow & Hhigh & Hp'); [done|done| | | |].
    { rewrite length_insert. lia. }
    { intros j ? ?. rewrite list_lookup_insert_ne by lia. apply Hempty; lia. }
    { nia. }
    exists groups', pools'. rewrite length_insert in Hlen'. split_and!; try done.
    + intros j Hj. rewrite Hlow by lia. apply list_lookup_insert_ne. lia.
    + intros j g Hj Hg. destruct (decide (j = i)) as [->|Hne].
      * rewrite Hlow, list_lookup_insert_eq in Hg by lia. by injection Hg as <-.
      * apply (Hhigh j); [lia|done].
    + rewrite Hp', concat_insert by lia. rewrite (concat_middle groups i [] Hi).
      simpl. rewrite <- !app_assoc.
      rewrite (Permutation_app_comm g1), <- !app_assoc.
      do 2 f_equiv. by rewrite (Permutation_app_comm _ g1).
Qed.

(** The leftover loop while fewer records are left than groups follow:
    the groups from [idx] on take one record each. *)
Lemma leftover_loop_spec leftovers idx N groups :
  length groups = Z.to_nat N → 0 ≤ idx →
  idx + Z.of_nat (length leftovers) ≤ N →
  ∃ groups',
    leftover_loop leftovers idx N groups = Ok groups' ∧
    length groups' = length groups ∧
    concat groups' ≡ₚ concat groups ++ leftovers ∧
    (∀ (j : nat) g, groups !! j = Some g →
       ∃ g', groups' !! j = Some g' ∧
             Z.of_nat (length g')
             = Z.of_nat (length g)
               + (if (idx <=? Z.of_nat j)
                     && (Z.of_nat j <? idx + Z.of_nat (length leftovers))
                  then 1 else 0)).
Proof.
  revert idx groups.
  induction leftovers as [|r rest IH]; intros idx groups Hlen Hidx Hfit.
  - exists groups. simpl. split_and!; try done.
    + by rewrite app_nil_r.
    + intros j g Hg. exists g. split; [done|].
      simpl length.
      destruct (Z.leb_spec idx (Z.of_nat j)),
        (Z.ltb_spec (Z.of_nat j) (idx + Z.of_nat 0)); simpl; lia.
  - simpl length in Hfit. simpl leftover_loop.
    rewrite Z.mod_small by lia.
    set (k := Z.to_nat idx).
    assert (Hix : index_of groups idx = Ok k).
    { replace idx with (Z.of_nat k) by lia. apply index_of_nat. lia. }
    rewrite Hix. simpl.
    destruct (lookup_lt_is_Some_2 groups k) as [old Hold]; [lia|].
    rewrite (list_lookup_total_correct _ _ _ Hold).
    destruct (IH (idx + 1) (<[k := old ++ [r]]> groups))
      as (groups' & Hok & Hlen' & Hp & Hsz); [by rewrite length_insert|lia|lia|].
    exists groups'. rewrite length_insert in Hlen'. split_and!; try done.
    + rewrite Hp, concat_insert by lia. rewrite (concat_middle groups k old Hold).
      rewrite <- !app_assoc. do 2 f_equiv.
      rewrite (Permutation_app_comm (concat (drop (S k) groups)) (r :: rest)).
      simpl. f_equiv. apply Permutation_app_comm.
    + intros j g Hg. destruct (decide (j = k)) as [->|Hne].
      * destruct (Hsz k (old ++ [r])) as (g' & Hg' & Hl').
        { apply list_lookup_insert_eq. lia. }
        exists g'. split; [done|]. rewrite Hl', length_app. simpl.
        assert (g = old) as -> by congruence.
        destruct (Z.leb_spec (idx + 1) (Z.of_nat k)); [lia|].
        destruct (Z.leb_spec idx (Z.of_nat k)); [|lia].
        destruct (Z.ltb_spec (Z.of_nat k) (idx + Z.of_nat (S (length rest)))); [|lia].
        simpl. lia.
      * destruct (Hsz j g) as (g' & Hg' & Hl').
        { by rewrite list_lookup_insert_ne. }
        exists g'. split; [done|]. rewrite Hl'. f_equal.
        destruct (Z.leb_spec (idx + 1) (Z.of_nat j)), (Z.leb_spec idx (Z.of_nat j)),
          (Z.ltb_spec (Z.of_nat j) (idx + 1 + Z.of_nat (length rest))),
          (Z.ltb_spec (Z.of_nat j) (idx + Z.of_nat (S (length rest)))); simpl; lia.
Qed.
End FillFacts.

Lemma length_queued {A} (bd : Dict.t (list A)) :
  Z.of_nat (length (queued bd)) = total_records bd.
Proof. unfold queued, total_records. by rewrite length_concat_sum. Qed.

Lemma length_concat_const {A} (ls : list (list A)) (n : nat) :
  (∀ g, g ∈ ls → length g = n) → length (concat ls) = (length ls * n)%nat.
Proof.
  induction ls as [|g ls IH]; intros Hall; simpl; [done|].
  rewrite length_app, IH.
  - rewrite (Hall g) by left. lia.
  - intros g' Hg'. apply Hall. by right.
Qed.

(** The two phases of [mixed_distribution] for a positive group count. *)
Lemma mixed_phases {A} (bd : Dict.t (list A)) (N : Z) :
  Dict.wf bd → 1 ≤ N →
  ∃ filled pools1 groups,
    fill_groups (Z.to_nat N) 0 (total_records bd / N) (replicate (Z.to_nat N) []) bd
    = Ok (filled, pools1) ∧
    length filled = Z.to_nat N ∧
    (∀ g, g ∈ filled → Z.of_nat (length g) = total_records bd / N) ∧
    Z.of_nat (length (queued pools1)) = total_records bd mod N ∧
    leftover_loop (queued pools1) 0 N filled = Ok groups ∧
    mixed_distribution bd N = Ok groups ∧
    length groups = Z.to_nat N ∧
    (∀ i g, groups !! i = Some g →
            Z.of_nat (length g) = size_profile (total_records bd) N i) ∧
    concat groups ≡ₚ queued bd.
Proof.
  intros Hwf HN. set (T := total_records bd).
  assert (HT : 0 ≤ T) by (unfold T, total_records; lia).
  pose proof (Z.div_pos T N HT ltac:(lia)) as Hq.
  pose proof (Z.mod_pos_bound T N ltac:(lia)) as Hr.
  pose proof (Z.div_mod T N ltac:(lia)) as Hdm.
  pose proof (length_queued bd) as HlenT. fold T in HlenT.
  destruct (fill_groups_spec (Z.to_nat N) 0 (T / N) (replicate (Z.to_nat N) []) bd)
    as (filled & pools1 & Hfill & Hwf1 & Hlen1 & _ & Hsz1 & Hp1);
    [done|done|by rewrite length_replicate| |lia|].
  { intros j _ Hj. by apply lookup_replicate_2. }
  rewrite length_replicate in Hlen1.
  assert (Hall : ∀ g, g ∈ filled → Z.of_nat (length g) = T / N).
  { intros g [j Hj]%list_elem_of_lookup. apply (Hsz1 j); [lia|done]. }
  assert (Hcat0 : concat (replicate (Z.to_nat N) (@nil A)) = []).
  { clear. induction (Z.to_nat N) as [|n IH]; simpl; done. }
  rewrite Hcat0 in Hp1. simpl in Hp1.
  assert (Hfilled : Z.of_nat (length (concat filled)) = N * (T / N)).
  { rewrite (length_concat_const filled (Z.to_nat (T / N))); [nia|].
    intros g Hg. apply Hall in Hg. lia. }
  pose proof (Permutation_length Hp1) as Hl1. rewrite length_app in Hl1.
  assert (Hleft : Z.of_nat (length (queued pools1)) = T mod N) by lia.
  destruct (leftover_loop_spec (queued pools1) 0 N filled)
    as (groups & Hlo & Hlen2 & Hp2 & Hsz2); [done|done|lia|].
  exists filled, pools1, groups. split_and!; try done.
  - unfold mixed_distribution. destruct (Z.eqb_spec N 0); [lia|].
    fold (total_records bd). fold T. rewrite Hfill. simpl. exact Hlo.
  - lia.
  - intros i g Hg.
    assert (i < length filled)%nat as Hi.
    { apply lookup_lt_Some in Hg. lia. }
    destruct (lookup_lt_is_Some_2 filled i Hi) as [g0 Hg0].
    destruct (Hsz2 i g0 Hg0) as (g' & Hg' & Hl').
    assert (g' = g) as -> by congruence.
    rewrite Hl', (Hsz1 i g0) by (done || lia). unfold size_profile. f_equal.
    rewrite Hleft.
    destruct (Z.leb_spec 0 (Z.of_nat i)); [|lia].
    destruct (Z.ltb_spec (Z.of_nat i) (0 + T mod N)), (Z.ltb_spec (Z.of_nat i) (T mod N));
      simpl; lia.
  - by rewrite Hp2.
Qed.

(** C3. Mixed Distributor preservation.  For every bucket mapping and
    [N >= 1] the function returns groups whose sizes add up to the number
    of classified records and whose records, taken together, are the
    records of the buckets, each as often as it occurs there; when the
    records are pairwise distinct no record is in two groups or twice in
    one. *)
Theorem mixed_preserves_records {A} (bd : Dict.t (list A)) (N : Z) :
  Dict.wf bd → 1 ≤ N →
  ∃ groups,
    mixed_distribution bd N = Ok groups ∧
    Z.of_nat (sum_list_with length groups) = total_records bd ∧
    concat groups ≡ₚ concat (Dict.values bd) ∧
    (NoDup (concat (Dict.values bd)) → NoDup (concat groups)).
Proof.
  intros Hwf HN.
  destruct (mixed_phases bd N Hwf HN)
    as (_ & _ & groups & _ & _ & _ & _ & _ & Hok & _ & _ & Hperm).
  exists groups. split_and!; try done.
  - by rewrite <- length_concat_sum, Hperm, length_queued.
  - intros Hnd. by rewrite Hperm.
Qed.

Lemma mixed_preserves_records_witness :
  ∃ groups,
    mixed_distribution example_buckets 3 = Ok groups ∧
    Z.of_nat (sum_list_with length groups) = total_records example_buckets ∧
    concat groups ≡ₚ concat (Dict.values example_buckets) ∧
    (NoDup (concat (Dict.values example_buckets)) → NoDup (concat groups)).
Proof.
  apply (mixed_preserves_records example_buckets 3).
  - exact example_buckets_wf.
  - lia.
Defined.

(** C10. Mixed Distributor size profile.  For every bucket mapping with
    [T] records and [N >= 1]: the fill phase ends with [N] groups of
    exactly [T / N] records and [T mod N] records still queued; the
    leftover loop hands these out from group 0 on, after which group [i]
    has [T / N] records and one more when [i < T mod N]; two group sizes
    differ by at most one. *)
Theorem mixed_size_profile {A} (bd : Dict.t (list A)) (N : Z) :
  Dict.wf bd → 1 ≤ N →
  ∃ filled pools1 groups,
    fill_groups (Z.to_nat N) 0 (total_records bd / N) (replicate (Z.to_nat N) []) bd
    = Ok (filled, pools1) ∧
    length filled = Z.to_nat N ∧
    (∀ g, g ∈ filled → Z.of_nat (length g) = total_records bd / N) ∧
    Z.of_nat (length (queued pools1)) = total_records bd mod N ∧
    leftover_loop (queued pools1) 0 N filled = Ok groups ∧
    mixed_distribution bd N = Ok groups ∧
    length groups = Z.to_nat N ∧
    (∀ i g, groups !! i = Some g →
            Z.of_nat (length g) = size_profile (total_records bd) N i) ∧
    (∀ g1 g2, g1 ∈ groups → g2 ∈ groups →
              Z.of_nat (length g1) - Z.of_nat (length g2) ≤ 1).
Proof.
  intros Hwf HN.
  destruct (mixed_phases bd N Hwf HN)
    as (filled & pools1 & groups & Hfill & Hlen1 & Hall & Hleft & Hlo & Hok & Hlen & Hsz & _).
  exists filled, pools1, groups. split_and!; try done.
  intros g1 g2 [i1 H1]%list_elem_of_lookup [i2 H2]%list_elem_of_lookup.
  rewrite (Hsz _ _ H1), (Hsz _ _ H2). unfold size_profile.
  destruct (Z.of_nat i1 <? total_records bd mod N),
    (Z.of_nat i2 <? total_records bd mod N); lia.
Qed.

Lemma mixed_size_profile_witness :
  ∃ filled pools1 groups,
    fill_groups (Z.to_nat 3) 0 (total_records example_buckets / 3)
      (replicate (Z.to_nat 3) []) example_buckets
    = Ok (filled, pools1) ∧
    length filled = Z.to_nat 3 ∧
    (∀ g, g ∈ filled → Z.of_nat (length g) = total_records example_buckets / 3) ∧
    Z.of_nat (length (queued pools1)) = total_records example_buckets mod 3 ∧
    leftover_loop (queued pools1) 0 3 filled = Ok groups ∧
    mixed_distribution example_buckets 3 = Ok groups ∧
    length groups = Z.to_nat 3 ∧
    (∀ i g, groups !! i = Some g →
            Z.of_nat (length g) = size_profile (total_records example_buckets) 3 i) ∧
    (∀ g1 g2, g1 ∈ groups → g2 ∈ groups →
              Z.of_nat (length g1) - Z.of_nat (length g2) ≤ 1).
Proof.
  apply (mixed_size_profile example_buckets 3).
  - exact example_buckets_wf.
  - lia.
Defined.

(** C5, as the code has it.  [mixed_distribution] has no check of its
    own on the group count: with 0 it raises [ZeroDivisionError] at
    [divmod]; with a negative count it creates no group, and then raises
    [IndexError] at the first leftover record, or returns normally with no
    group when there is no record. *)
Theorem mixed_nonpositive_count {A} (bd : Dict.t (list A)) (N : Z) :
  N ≤ 0 →
  mixed_distribution bd N
  = if N =? 0 then Raise ZeroDivisionError
    else if total_records bd =? 0 then Ok []
    else Raise IndexError.
Proof.
  intros HN. unfold mixed_distribution.
  destruct (Z.eqb_spec N 0) as [|Hne]; [done|].
  replace (Z.to_nat N) with 0%nat by lia. simpl.
  fold (queued bd). pose proof (length_queued bd) as Hlen.
  destruct (queued bd) as [|r rest]; simpl in *.
  - by rewrite <- Hlen.
  - destruct (Z.eqb_spec (total_records bd) 0); [lia|]. reflexivity.
Qed.

Lemma mixed_nonpositive_count_witness :
  mixed_distribution example_buckets (-2)
  = if -2 =? 0 then Raise ZeroDivisionError
    else if total_records example_buckets =? 0 then Ok []
    else Raise IndexError.
Proof. apply (mixed_nonpositive_count example_buckets (-2)). lia. Defined.

(** C5 as stated fails: a count of 0 is divided by, and a negative count
    on a mapping without records returns normally. *)
Lemma mixed_zero_count_divides :
  mixed_distribution example_buckets 0 = Raise ZeroDivisionError ∧
  mixed_distribution (@nil (string * list Row)) (-1) = Ok [].
Proof. split; reflexivity. Qed.

(** C9. The worked example: ten records, six of branch CS and four of
    branch EC, three groups. *)
Theorem worked_example :
  let rows := fun rolls => student <$> rolls in
  split_by_branch example_table
  = ([("CS", rows ["2023CS01"; "2023CS02"; "2023CS03"; "2023CS04"; "2023CS05"; "2023CS06"]);
      ("EC", rows ["2023EC01"; "2023EC02"; "2023EC03"; "2023EC04"])]%string, []) ∧
  flattened example_buckets
  = rows ["2023CS01"; "2023CS02"; "2023CS03"; "2023CS04"; "2023CS05"; "2023CS06";
          "2023EC01"; "2023EC02"; "2023EC03"; "2023EC04"]%string ∧
  uniform_distribution example_buckets 3
  = Ok [rows ["2023CS01"; "2023CS02"; "2023CS03"; "2023CS04"];
        rows ["2023CS05"; "2023CS06"; "2023EC01"];
        rows ["2023EC02"; "2023EC03"; "2023EC04"]]%string ∧
  total_records example_buckets / 3 = 3 ∧
  total_records example_buckets mod 3 = 1 ∧
  fill_groups 3 0 3 [[]; []; []] example_buckets
  = Ok ([rows ["2023CS01"; "2023EC01"; "2023CS02"];
         rows ["2023CS03"; "2023EC02"; "2023CS04"];
         rows ["2023CS05"; "2023EC03"; "2023CS06"]],
        [("EC", rows ["2023EC04"])])%string ∧
  mixed_distribution example_buckets 3
  = Ok [rows ["2023CS01"; "2023EC01"; "2023CS02"; "2023EC04"];
        rows ["2023CS03"; "2023EC02"; "2023CS04"];
        rows ["2023CS05"; "2023EC03"; "2023CS06"]]%string.
Proof. intros rows. split_and!; vm_compute; reflexivity. Qed.

(** ** Summary Reporter *)

Lemma filter_all {A} (P : A → Prop) `{!∀ a, Decision (P a)} (l : list A) :
  (∀ a, a ∈ l → P a) → filter P l = l.
Proof.
  induction l as [|a l IH]; intros Hall; [done|].
  rewrite filter_cons, decide_True by (apply Hall; left).
  f_equal. apply IH. intros b Hb. apply Hall. by right.
Qed.

Lemma filter_none {A} (P : A → Prop) `{!∀ a, Decision (P a)} (l : list A) :
  (∀ a, a ∈ l → ¬ P a) → filter P l = [].
Proof.
  induction l as [|a l IH]; intros Hall; [done|].
  rewrite filter_cons, decide_False by (apply Hall; left).
  apply IH. intros b Hb. apply Hall. by right.
Qed.

Lemma elem_of_unique (l : list string) x : x ∈ unique l ↔ x ∈ l.
Proof.
  induction l as [|y l IH]; simpl; [done|].
  rewrite !elem_of_cons, list_elem_of_filter, IH.
  destruct (decide (x = y)); tauto.
Qed.

Lemma NoDup_unique (l : list string) : NoDup (unique l).
Proof.
  induction l as [|y l IH]; simpl; [constructor|].
  apply NoDup_cons. split.
  - rewrite list_elem_of_filter. by intros [? _].
  - by apply NoDup_filter.
Qed.

Lemma unique_app (l1 l2 : list string) :
  unique (l1 ++ l2) = unique l1 ++ filter (fun y => y ∉ l1) (unique l2).
Proof.
  induction l1 as [|x l1 IH]; simpl.
  - symmetry. apply filter_all. intros y _. apply not_elem_of_nil.
  - f_equal. rewrite IH, filter_app. f_equal.
    rewrite list_filter_filter. apply list_filter_iff.
    intros y. rewrite not_elem_of_cons. tauto.
Qed.

Lemma unique_NoDup (l : list string) : NoDup l → unique l = l.
Proof.
  induction 1 as [|x l Hx Hl IH]; simpl; [done|].
  rewrite IH. f_equal. apply filter_all. by intros y Hy ->.
Qed.

Lemma unique_absorb (l1 l2 : list string) :
  NoDup l1 → l2 ⊆ l1 → unique (l1 ++ l2) = l1.
Proof.
  intros Hnd Hsub. rewrite unique_app, unique_NoDup by done.
  rewrite (filter_none _ (unique l2)); [by rewrite app_nil_r|].
  intros y Hy Hn. rewrite elem_of_unique in Hy. apply Hn. by apply Hsub.
Qed.

Lemma summary_code_length s c : summary_code s = Some c → String.length c = 2%nat.
Proof.
  unfold summary_code, extract. intros H.
  repeat case_match; simplify_eq/=; reflexivity.
Qed.

Lemma code_not_reserved s c :
  summary_code s = Some c → c ≠ "Group"%string ∧ c ≠ "Total"%string.
Proof. intros H%summary_code_length. split; intros ->; discriminate. Qed.

Lemma file_codes_not_reserved df c :
  c ∈ file_codes df → c ≠ "Group"%string ∧ c ≠ "Total"%string.
Proof.
  unfold file_codes. rewrite list_elem_of_omap. intros (r & _ & Hr).
  by eapply code_not_reserved.
Qed.

Lemma omap_id_codes (df : list Row) :
  omap id (summary_code <$> (Roll <$> df)) = file_codes df.
Proof.
  unfold file_codes. induction df as [|r df IH]; csimpl; [done|].
  rewrite IH. done.
Qed.

Lemma get_keyed {V} (f : string → V) (l : list string) c :
  Dict.get c ((fun c' => (c', f c')) <$> l)
  = if decide (c ∈ l) then Some (f c) else None.
Proof.
  induction l as [|x l IH].
  - destruct (decide (c ∈ [])) as [H|]; [by apply elem_of_nil in H|done].
  - rewrite fmap_cons. simpl Dict.get.
    destruct (String.eqb_spec c x) as [->|Hne].
    + by rewrite decide_True by left.
    + rewrite IH. destruct (decide (c ∈ l)).
      * by rewrite decide_True by (by right).
      * rewrite decide_False; [done|]. by intros [?|?]%elem_of_cons.
Qed.

Lemma get_value_counts (df : list Row) c :
  default 0 (Dict.get c (value_counts (summary_code <$> (Roll <$> df))))
  = code_count c df.
Proof.
  unfold value_counts, code_count. rewrite omap_id_codes, get_keyed.
  destruct (decide (c ∈ unique (file_codes df))) as [|Hn]; [done|].
  rewrite elem_of_unique in Hn. simpl.
  rewrite (filter_none _ (file_codes df)); [done|]. by intros a Ha <-.
Qed.

Lemma keys_value_counts (df : list Row) :
  Dict.keys (value_counts (summary_code <$> (Roll <$> df))) = unique (file_codes df).
Proof.
  unfold value_counts, Dict.keys. rewrite omap_id_codes, <- list_fmap_compose.
  apply list_fmap_id.
Qed.

(** The entry of a file in [stats]. *)
Lemma entry_get (df : list Row) c :
  let entry := Dict.set "Total" (Z.of_nat (length df))
                 (value_counts (summary_code <$> (Roll <$> df))) in
  Dict.get "Total" entry = Some (Z.of_nat (length df)) ∧
  (c ≠ "Total"%string → default 0 (Dict.get c entry) = code_count c df) ∧
  (∀ k, k ∈ Dict.keys entry ↔ k = "Total"%string ∨ k ∈ file_codes df).
Proof.
  intros entry. subst entry. split_and!.
  - by rewrite get_set, decide_True.
  - intros Hc. rewrite get_set, decide_False by done. apply get_value_counts.
  - intros k.
    assert (Hfresh : "Total"%string ∉ Dict.keys
                       (value_counts (summary_code <$> (Roll <$> df)))).
    { rewrite keys_value_counts, elem_of_unique.
      intros [_ H]%file_codes_not_reserved. done. }
    rewrite set_absent by done. unfold Dict.keys at 1.
    rewrite fmap_app, elem_of_app. fold (Dict.keys
      (value_counts (summary_code <$> (Roll <$> df)))).
    rewrite keys_value_counts, elem_of_unique. simpl.
    rewrite list_elem_of_singleton. tauto.
Qed.

Lemma group_label_inj i j : group_label i = group_label j → i = j.
Proof.
  unfold group_label. intros [= H].
  apply (f_equal NilEmpty.uint_of_string) in H.
  rewrite !NilEmpty.usu in H. injection H as H.
  by apply Unsigned.to_uint_inj.
Qed.

Lemma collect_stats_entries files idx acc :
  (∀ k, k ∈ Dict.keys acc → ∃ j, (j < idx)%nat ∧ k = group_label j) →
  collect_stats files idx acc = acc ++ stat_entries files idx.
Proof.
  revert idx acc. induction files as [|[name df] files IH]; intros idx acc Hacc; simpl.
  - by rewrite app_nil_r.
  - rewrite set_absent.
    + rewrite IH; [by rewrite <- app_assoc|].
      intros k. unfold Dict.keys. rewrite fmap_app, elem_of_app. simpl.
      rewrite list_elem_of_singleton. intros [Hk| ->].
      * destruct (Hacc k Hk) as (j & ? & ->). exists j. split; [lia|done].
      * exists idx. split; [lia|done].
    + intros Hk. destruct (Hacc _ Hk) as (j & Hj & Heq).
      apply group_label_inj in Heq. lia.
Qed.

Lemma keys_stat_entries files idx k :
  k ∈ stat_entries files idx ≫= (fun e => Dict.keys e.2)
  ↔ (files ≠ [] ∧ k = "Total"%string) ∨ k ∈ files ≫= (fun f => file_codes f.2).
Proof.
  revert idx. induction files as [|[name df] files IH]; intros idx; csimpl.
  - split; [by intros ?%elem_of_nil|]. intros [[? _]|?%elem_of_nil]; done.
  - rewrite !elem_of_app, IH.
    destruct (entry_get df k) as (_ & _ & Hkeys). rewrite Hkeys.
    split.
    + intros [[->|?]|[[_ ->]|?]]; auto.
    + intros [[_ ->]|[?|?]]; auto.
Qed.

(** Reading a cell by its column name. *)
Lemma cell_at_fmap (f : string → cell) (cols : list string) c :
  c ∈ cols → cell_at cols (f <$> cols) c = Some (f c).
Proof.
  induction cols as [|c' cols IH]; [by intros ?%elem_of_nil|].
  rewrite fmap_cons. simpl.
  destruct (String.eqb_spec c c') as [->|Hne]; [done|].
  intros [?|?]%elem_of_cons; [done|auto].
Qed.

Lemma cell_at_absent (cols : list string) (row : list cell) c :
  c ∉ cols → cell_at cols row c = None.
Proof.
  revert row. induction cols as [|c' cols IH]; intros row Hc; [done|].
  destruct row as [|x row]; [done|]. simpl.
  apply not_elem_of_cons in Hc as [Hne Hc].
  destruct (String.eqb_spec c c'); [done|]. auto.
Qed.

Lemma cell_at_self (cols : list string) (row : list cell) :
  NoDup cols → length row = length cols →
  (fun c => cell_at cols row c) <$> cols = Some <$> row.
Proof.
  revert row. induction cols as [|c cols IH]; intros [|x row] Hnd Hlen;
    simplify_eq/=; [done|].
  apply NoDup_cons in Hnd as [Hc Hnd]. rewrite String.eqb_refl. f_equal.
  rewrite <- (IH row) by done.
  apply list_fmap_ext. intros i c' Hc'.
  destruct (String.eqb_spec c' c) as [->|]; [|done].
  exfalso. apply Hc. by eapply list_elem_of_lookup_2.
Qed.

Lemma reindex_same cols fill rws :
  NoDup cols → Forall (fun row => length row = length cols) rws →
  reindex cols fill (mkDF cols rws) = mkDF cols rws.
Proof.
  intros Hnd Hall. unfold reindex. simpl. f_equal.
  induction Hall as [|row rws Hrow _ IH]; csimpl; [done|].
  f_equal; [|done].
  transitivity (default fill <$> ((fun c => cell_at cols row c) <$> cols)).
  { by rewrite <- list_fmap_compose. }
  rewrite cell_at_self by done. rewrite <- list_fmap_compose.
  apply list_fmap_id.
Qed.

(** The row that [read_stats] builds from an entry of [stats]. *)
Lemma stat_rows_show (cs : list string) files idx :
  Forall2 (fun row f => row_shows ("Group"%string :: cs ++ ["Total"%string]) row f.2)
    ((fun e => Str e.1 ::
               ((fun c => Int (default 0 (Dict.get c e.2))) <$> (cs ++ ["Total"%string])))
       <$> stat_entries files idx)
    files.
Proof.
  revert idx. induction files as [|[name df] files IH]; intros idx; csimpl;
    constructor; [|by apply IH].
  destruct (entry_get df "Total") as (Htotal & _ & _).
  unfold row_shows. split_and!.
  - simpl. by rewrite length_fmap.
  - simpl. rewrite cell_at_fmap by (rewrite elem_of_app, list_elem_of_singleton; by right).
    by rewrite Htotal.
  - intros c (Hc & Hin)%list_elem_of_filter. destruct Hc as [HG HT].
    apply elem_of_cons in Hin as [?|Hin]; [done|]. simpl.
    destruct (String.eqb_spec c "Group"); [done|].
    rewrite cell_at_fmap by done.
    destruct (entry_get df c) as (_ & Hget & _). by rewrite Hget.
Qed.

Lemma read_stats_empty dir :
  csv_files dir = [] → read_stats dir = mkDF ["Group"; "Total"]%string [].
Proof. unfold read_stats. by intros ->. Qed.

Lemma read_stats_nonempty dir :
  csv_files dir ≠ [] →
  read_stats dir
  = let stats := stat_entries (csv_files dir) 1 in
    let observed := unique (stats ≫= (fun e => Dict.keys e.2)) in
    let cols := sorted_strings (filter (fun c => c ≠ "Total"%string) observed) in
    mkDF ("Group" :: cols ++ ["Total"])%string
      ((fun e =>
          Str e.1 ::
          ((fun c => Int (default 0 (Dict.get c e.2))) <$> (cols ++ ["Total"]%string)))
         <$> stats).
Proof.
  intros Hne. unfold read_stats.
  rewrite collect_stats_entries by (by intros k ?%elem_of_nil).
  destruct (csv_files dir) as [|[name df] fs]; [done|]. reflexivity.
Qed.

(** The table of one directory: its columns are [Group], the observed
    branch codes in alphabetical order without repetition, and [Total];
    it has one row per [.csv] file, with the counts of that file. *)
Lemma read_stats_spec dir :
  ∃ cs,
    columns (read_stats dir) = ("Group" :: cs ++ ["Total"])%string ∧
    NoDup cs ∧
    StronglySorted String.le cs ∧
    (∀ c, c ∈ cs ↔ c ∈ observed_codes dir) ∧
    (rows (read_stats dir) = [] ↔ csv_files dir = []) ∧
    Forall2 (fun row f => row_shows ("Group" :: cs ++ ["Total"])%string row f.2)
      (rows (read_stats dir)) (csv_files dir).
Proof.
  destruct (decide (csv_files dir = [])) as [Hfiles|Hfiles].
  - exists []. rewrite read_stats_empty by done. unfold observed_codes.
    rewrite Hfiles. simpl. split_and!; try done; constructor.
  - rewrite read_stats_nonempty by done. simpl.
    set (stats := stat_entries (csv_files dir) 1).
    set (cs := sorted_strings
                 (filter (fun c => c ≠ "Total"%string)
                    (unique (stats ≫= (fun e => Dict.keys e.2))))).
    exists cs. split_and!.
    + done.
    + unfold cs. rewrite sorted_strings_perm. apply NoDup_filter, NoDup_unique.
    + apply sorted_strings_ordered.
    + intros c. unfold cs. rewrite sorted_strings_perm, list_elem_of_filter,
        elem_of_unique. unfold stats. rewrite keys_stat_entries.
      fold (observed_codes dir). split.
      * intros [Hc [[_ ->]|?]]; done.
      * intros Hc. split; [|by right].
        unfold observed_codes in Hc. apply list_elem_of_bind in Hc as (f & Hc & _).
        by apply file_codes_not_reserved in Hc as [_ ?].
    + split; [|done]. intros Hrows. apply fmap_nil_inv in Hrows.
      unfold stats in Hrows. by destruct (csv_files dir) as [|[??]?].
    + apply stat_rows_show.
Qed.

Lemma Forall2_with_elem {X Y} (P : X → Y → Prop) (l : list X) (k : list Y) :
  Forall2 P l k → Forall2 (fun a b => P a b ∧ b ∈ k) l k.
Proof.
  induction 1 as [|a b l k Hab _ IH]; constructor.
  - split; [done|left].
  - eapply Forall2_impl; [exact IH|]. intros a' b' [? ?]. split; [done|by right].
Qed.

Lemma code_count_absent c df : c ∉ file_codes df → code_count c df = 0.
Proof.
  intros Hc. unfold code_count.
  rewrite (filter_none _ (file_codes df)); [done|]. by intros a Ha <-.
Qed.

(** Re-indexing a summary row to other columns keeps it a summary row of
    its file, provided the old columns held every code of the file. *)
Lemma reindex_row_shows (cols mcs : list string) row df :
  let mcols := ("Group" :: mcs ++ ["Total"])%string in
  row_shows mcols row df →
  (∀ c, c ∈ file_codes df → c ∈ mcs) →
  "Total"%string ∈ cols →
  row_shows cols ((fun c => default (Int 0) (cell_at mcols row c)) <$> cols) df.
Proof.
  intros mcols (Hlen & Htotal & Hbranch) Hcodes HT. unfold row_shows. split_and!.
  - by rewrite length_fmap.
  - rewrite cell_at_fmap by done. by rewrite Htotal.
  - intros c (Hc & Hin)%list_elem_of_filter. destruct Hc as [HG HTc].
    rewrite cell_at_fmap by done. f_equal.
    destruct (decide (c ∈ mcs)) as [Hm|Hm].
    + rewrite Hbranch; [done|]. apply list_elem_of_filter. split; [done|].
      unfold mcols. right. apply elem_of_app. by left.
    + rewrite cell_at_absent, code_count_absent; [done| |].
      * intros Hc. by apply Hm, Hcodes.
      * unfold mcols. rewrite elem_of_cons, elem_of_app, list_elem_of_singleton.
        tauto.
Qed.

Lemma df_empty_read_stats dir :
  df_empty (read_stats dir) = bool_decide (csv_files dir = []).
Proof.
  destruct (read_stats_spec dir) as (cs & Hcols & _ & _ & _ & Hrows & _).
  unfold df_empty. rewrite Hcols.
  rewrite (bool_decide_eq_false_2 (_ :: _ = [])) by done. rewrite orb_false_r.
  by apply bool_decide_ext.
Qed.

Lemma summary_columns_source u m :
  summary_columns (read_stats u) (read_stats m)
  = columns (read_stats (column_source u m)).
Proof.
  unfold summary_columns, column_source. rewrite !df_empty_read_stats.
  destruct (csv_files u) as [|f fs] eqn:Hu.
  - rewrite bool_decide_eq_true_2 by done. simpl.
    destruct (decide (csv_files m = [])) as [Hm|Hm].
    + rewrite bool_decide_eq_true_2 by done. simpl.
      by rewrite (read_stats_empty m).
    + by rewrite bool_decide_eq_false_2.
  - by rewrite bool_decide_eq_false_2.
Qed.

Lemma reindex_fits cols fill df :
  NoDup cols → fits cols df → rows (reindex cols fill df) = rows df.
Proof.
  intros Hnd [[Hc Hr]|[_ Hr]].
  - destruct df as [dc dr]. simpl in *. subst dc.
    exact (f_equal rows (reindex_same cols fill dr Hnd Hr)).
  - unfold reindex. simpl. by rewrite Hr.
Qed.

Lemma bind_ext_elem {X Y} (f g : X → list Y) (l : list X) :
  (∀ a, a ∈ l → f a = g a) → l ≫= f = l ≫= g.
Proof.
  induction l as [|a l IH]; intros Hfg; csimpl; [done|].
  rewrite Hfg by left. f_equal. apply IH. intros b Hb. apply Hfg. by right.
Qed.

Lemma pd_concat_fits cols r0 (frames : list DataFrame) :
  NoDup cols → Forall (fun row => length row = length cols) r0 →
  Forall (fits cols) frames →
  pd_concat (mkDF cols r0 :: frames) = mkDF cols (r0 ++ frames ≫= rows).
Proof.
  intros Hnd Hr0 Hfits. unfold pd_concat.
  assert (Hcols : unique ((mkDF cols r0 :: frames) ≫= columns) = cols).
  { csimpl. apply unique_absorb; [done|].
    intros c (df & Hc & Hdf)%list_elem_of_bind.
    rewrite Forall_forall in Hfits. destruct (Hfits df Hdf) as [[<- _]|[Hsub _]]; auto. }
  rewrite Hcols. f_equal.
  rewrite (bind_ext_elem _ rows).
  - done.
  - intros df [->|Hdf]%elem_of_cons.
    + by rewrite reindex_same.
    + apply reindex_fits; [done|]. rewrite Forall_forall in Hfits. auto.
Qed.

Lemma row_shows_length cols (rws : list (list cell)) (files : folder) :
  Forall2 (fun row f => row_shows cols row f.2) rws files →
  Forall (fun row => length row = length cols) rws.
Proof.
  induction 1 as [|row f rws files [Hlen _] _ IH]; constructor; done.
Qed.

(** The combined table. *)
Lemma generate_summary_spec u m :
  ∃ cs U M,
    let cols := ("Group" :: cs ++ ["Total"])%string in
    generate_summary u m = mkDF cols (summary_layout cols U M) ∧
    NoDup cs ∧
    StronglySorted String.le cs ∧
    (∀ c, c ∈ cs ↔ c ∈ observed_codes (column_source u m)) ∧
    Forall2 (fun row f => row_shows cols row f.2) U (csv_files u) ∧
    Forall2 (fun row f => row_shows cols row f.2) M (csv_files m).
Proof.
  destruct (read_stats_spec (column_source u m))
    as (cs & Hcols & Hnd & Hsorted & Hmem & _ & _).
  set (cols := ("Group" :: cs ++ ["Total"])%string) in *.
  assert (Hreserved : ∀ c, c ∈ cs → c ≠ "Group"%string ∧ c ≠ "Total"%string).
  { intros c Hc. apply Hmem in Hc. unfold observed_codes in Hc.
    apply list_elem_of_bind in Hc as (f & Hc & _).
    by apply file_codes_not_reserved in Hc. }
  assert (Hndc : NoDup cols).
  { unfold cols. apply NoDup_cons. split.
    - rewrite elem_of_app, list_elem_of_singleton.
      intros [H%Hreserved|H]; [by destruct H|done].
    - apply NoDup_app. split_and!; [done| |apply NoDup_singleton].
      intros c Hc%Hreserved ->%list_elem_of_singleton. by destruct Hc. }
  assert (HT : "Total"%string ∈ cols).
  { unfold cols. right. apply elem_of_app. right. left. }
  destruct (read_stats_spec u) as (ucs & Hucols & _ & _ & _ & Hurows & HU).
  destruct (read_stats_spec m) as (mcs & Hmcols & _ & _ & Hmmem & _ & HM).
  exists cs, (rows (read_stats u)),
    (rows (reindex cols (Int 0) (read_stats m))).
  assert (HUfit : fits cols (read_stats u)
                  ∧ Forall2 (fun row f => row_shows cols row f.2)
                      (rows (read_stats u)) (csv_files u)).
  { destruct (decide (csv_files u = [])) as [Hu|Hu].
    - rewrite read_stats_empty by done. simpl. rewrite Hu. split; [|constructor].
      right. split; [|done].
      intros c [->|[->|?%elem_of_nil]%elem_of_cons]%elem_of_cons; [left|done|done].
    - assert (column_source u m = u) as Hsrc.
      { unfold column_source. by destruct (csv_files u). }
      rewrite Hsrc in Hcols. rewrite Hcols in Hucols. unfold cols in Hucols.
      injection Hucols as Hucols. apply app_inj_2 in Hucols as [<- _]; [|done].
      split; [|done]. left. split; [done|]. by eapply row_shows_length. }
  destruct HUfit as [HUfit HUshow].
  assert (HMshow : Forall2 (fun row f => row_shows cols row f.2)
                     (rows (reindex cols (Int 0) (read_stats m))) (csv_files m)).
  { unfold reindex. simpl. apply Forall2_fmap_l. rewrite Hmcols.
    eapply Forall2_impl; [apply Forall2_with_elem, HM|].
    intros row f [Hrow Hf]. simpl in Hrow.
    apply (reindex_row_shows cols mcs row f.2); [done| |done].
    intros c Hc. apply Hmmem. unfold observed_codes.
    apply list_elem_of_bind. by exists f. }
  split_and!; try done.
  unfold generate_summary. rewrite summary_columns_source, Hcols.
  unfold title_row. rewrite pd_concat_fits.
  - unfold summary_layout. csimpl. by rewrite app_nil_r.
  - done.
  - repeat constructor. simpl. rewrite length_replicate. unfold cols. simpl. lia.
  - apply Forall_cons. split; [exact HUfit|].
    apply Forall_cons. split.
    { left. split; [done|]. repeat constructor. by rewrite length_replicate. }
    apply Forall_cons. split.
    { left. split; [done|]. repeat constructor. simpl.
      rewrite length_replicate. unfold cols. simpl. lia. }
    apply Forall_cons. split; [|constructor].
    left. split; [done|]. by eapply row_shows_length.
Qed.

Lemma count_by_code (cs l : list string) :
  NoDup cs →
  foldr Z.add 0 ((fun c => Z.of_nat (length (filter (eq c) l))) <$> cs)
  = Z.of_nat (length (filter (fun x => x ∈ cs) l)).
Proof.
  induction 1 as [|c cs Hc Hnd IH]; csimpl.
  - rewrite (filter_none _ l); [done|]. intros a _. apply not_elem_of_nil.
  - rewrite IH. clear IH.
    induction l as [|x l IHl]; [done|].
    rewrite !filter_cons.
    destruct (decide (c = x)) as [Heq|Hne], (decide (x ∈ cs)) as [Hx|Hx],
      (decide (x ∈ c :: cs)) as [Hx'|Hx']; simpl; try lia; exfalso.
    + by subst x.
    + by subst x.
    + apply Hx'. subst x. left.
    + apply Hx'. by right.
    + by apply elem_of_cons in Hx' as [?|?].
Qed.

Lemma length_file_codes df : (length (file_codes df) ≤ length df)%nat.
Proof.
  unfold file_codes. induction df as [|r df IH]; csimpl; [done|].
  destruct (summary_code (Roll r)); simpl; lia.
Qed.

Lemma file_codes_all df (cs : list string) :
  (∀ r, r ∈ df → ∃ c, summary_code (Roll r) = Some c ∧ c ∈ cs) →
  length (filter (fun x => x ∈ cs) (file_codes df)) = length df.
Proof.
  unfold file_codes. induction df as [|r df IH]; intros Hall; csimpl; [done|].
  destruct (Hall r) as (c & Hr & Hc); [left|]. rewrite Hr. simpl.
  rewrite filter_cons, decide_True by done. simpl. f_equal.
  apply IH. intros r' Hr'. apply Hall. by right.
Qed.

Lemma branch_columns_cols (cs : list string) :
  (∀ c, c ∈ cs → c ≠ "Group"%string ∧ c ≠ "Total"%string) →
  branch_columns ("Group" :: cs ++ ["Total"])%string = cs.
Proof.
  intros Hcs. unfold branch_columns.
  rewrite filter_cons, decide_False by (by intros [? _]).
  rewrite filter_app, filter_all by done.
  rewrite filter_cons, decide_False by (by intros [_ ?]).
  by rewrite filter_nil, app_nil_r.
Qed.

(** Total and sum of the branch counts of a summary row. *)
Lemma row_sums (cs : list string) row df :
  let cols := ("Group" :: cs ++ ["Total"])%string in
  NoDup cs →
  (∀ c, c ∈ cs → c ≠ "Group"%string ∧ c ≠ "Total"%string) →
  row_shows cols row df →
  row_total cols row = Z.of_nat (length df) ∧
  row_branch_sum cols row
  = Z.of_nat (length (filter (fun x => x ∈ cs) (file_codes df))).
Proof.
  intros cols Hnd Hcs (_ & Htotal & Hbranch). split.
  - unfold row_total. by rewrite Htotal.
  - unfold row_branch_sum. rewrite <- count_by_code by done.
    unfold cols in *. rewrite branch_columns_cols in * by done. f_equal.
    apply list_fmap_ext. intros i c Hc. rewrite Hbranch; [done|].
    by eapply list_elem_of_lookup_2.
Qed.

(** C8, as the code has it.  The columns of the combined table are
    [Group], then the branch codes observed in the files of one directory
    in alphabetical order without repetition, then [Total]; that directory
    is the uniform one unless it has no [.csv] file, and then the mixed
    one.  Under these columns every row of either section shows the
    counts of its file, so the cell of a branch absent from the file is
    zero.  A branch code observed only in mixed files has no column when
    there is a uniform file. *)
Theorem summary_columns_aligned (u m : folder) :
  ∃ cs U M,
    let cols := ("Group" :: cs ++ ["Total"])%string in
    generate_summary u m = mkDF cols (summary_layout cols U M) ∧
    NoDup cs ∧
    StronglySorted String.le cs ∧
    (∀ c, c ∈ cs ↔ c ∈ observed_codes (column_source u m)) ∧
    Forall2 (fun row f =>
               row_shows cols row f.2 ∧
               ∀ c, c ∈ cs → c ∉ file_codes f.2 → cell_at cols row c = Some (Int 0))
      (U ++ M) (csv_files u ++ csv_files m) ∧
    length U = length (csv_files u) ∧
    (csv_files u ≠ [] →
     ∀ c, c ∈ observed_codes m → c ∉ observed_codes u → c ∉ cols).
Proof.
  destruct (generate_summary_spec u m)
    as (cs & U & M & Heq & Hnd & Hsorted & Hmem & HU & HM).
  assert (Hreserved : ∀ c, c ∈ cs → c ≠ "Group"%string ∧ c ≠ "Total"%string).
  { intros c Hc. apply Hmem in Hc. unfold observed_codes in Hc.
    apply list_elem_of_bind in Hc as (f & Hc & _).
    by apply file_codes_not_reserved in Hc. }
  exists cs, U, M. cbv zeta. split_and!; try done.
  - apply Forall2_app; (eapply Forall2_impl; [eassumption|]);
      intros row f Hrow; (split; [done|]); intros c Hc Hn;
      destruct Hrow as (_ & _ & Hbranch);
      (rewrite Hbranch, code_count_absent; [done|done|]);
      by rewrite branch_columns_cols.
  - by eapply Forall2_length.
  - intros Hu c Hcm Hcu.
    assert (column_source u m = u) as Hsrc.
    { unfold column_source. by destruct (csv_files u). }
    rewrite Hsrc in Hmem.
    rewrite elem_of_cons, elem_of_app, list_elem_of_singleton, Hmem.
    unfold observed_codes in Hcm. apply list_elem_of_bind in Hcm as (f & Hcm & _).
    apply file_codes_not_reserved in Hcm. tauto.
Qed.

(** C8 as stated fails: with a CS record in the uniform directory and an
    EC record in the mixed one, EC is observed but has no column. *)
Lemma summary_drops_mixed_only_branch :
  let u := [group_file "group_1.csv" ["2023CS01"]]%string in
  let m := [group_file "group_1.csv" ["2023EC01"]]%string in
  observed_codes u = ["CS"]%string ∧
  observed_codes m = ["EC"]%string ∧
  generate_summary u m
  = mkDF ["Group"; "CS"; "Total"]%string
      [[Str "Uniform"; Str ""; Str ""];
       [Str "G1"; Int 1; Int 1];
       [Str ""; Str ""; Str ""];
       [Str "Mixed"; Str ""; Str ""];
       [Str "G1"; Int 0; Int 1]].
Proof. split_and!; vm_compute; reflexivity. Qed.

(** C7, as the code has it.  In every row of either section [Total] is
    the number of records of the group file.  The branch counts of a
    uniform row add up to the number of records whose identifier matches
    the reporter's pattern; those of a mixed row to the number of records
    whose code is one of the columns.  So the sum never exceeds [Total],
    and it equals [Total] when every record of the file has a code that is
    a column. *)
Theorem summary_row_totals (u m : folder) :
  ∃ cs U M,
    let cols := ("Group" :: cs ++ ["Total"])%string in
    generate_summary u m = mkDF cols (summary_layout cols U M) ∧
    Forall2 (fun row f =>
               row_total cols row = Z.of_nat (length f.2) ∧
               row_branch_sum cols row = Z.of_nat (length (file_codes f.2)) ∧
               row_branch_sum cols row ≤ row_total cols row ∧
               ((∀ r, r ∈ f.2 → is_Some (summary_code (Roll r))) →
                row_branch_sum cols row = row_total cols row))
      U (csv_files u) ∧
    Forall2 (fun row f =>
               row_total cols row = Z.of_nat (length f.2) ∧
               row_branch_sum cols row
               = Z.of_nat (length (filter (fun c => c ∈ cs) (file_codes f.2))) ∧
               row_branch_sum cols row ≤ row_total cols row ∧
               ((∀ r, r ∈ f.2 → ∃ c, summary_code (Roll r) = Some c ∧ c ∈ cs) →
                row_branch_sum cols row = row_total cols row))
      M (csv_files m).
Proof.
  destruct (generate_summary_spec u m)
    as (cs & U & M & Heq & Hnd & Hsorted & Hmem & HU & HM).
  assert (Hreserved : ∀ c, c ∈ cs → c ≠ "Group"%string ∧ c ≠ "Total"%string).
  { intros c Hc. apply Hmem in Hc. unfold observed_codes in Hc.
    apply list_elem_of_bind in Hc as (f & Hc & _).
    by apply file_codes_not_reserved in Hc. }
  exists cs, U, M. cbv zeta. split_and!; [done| |].
  - eapply Forall2_impl; [apply Forall2_with_elem, HU|].
    intros row f [Hrow Hf].
    destruct (row_sums cs row f.2 Hnd Hreserved Hrow) as [Htot Hsum].
    assert (Hcodes : ∀ c, c ∈ file_codes f.2 → c ∈ cs).
    { intros c Hc. apply Hmem. unfold column_source.
      destruct (csv_files u) as [|f0 fs] eqn:Hu; [by apply elem_of_nil in Hf|].
      unfold observed_codes. rewrite Hu. apply list_elem_of_bind. by exists f. }
    rewrite (filter_all _ (file_codes f.2)) in Hsum by done.
    pose proof (length_file_codes f.2). split_and!; [done|done|lia|].
    intros Hall. rewrite Hsum, Htot. f_equal.
    rewrite <- (file_codes_all f.2 cs).
    + by rewrite (filter_all _ (file_codes f.2)).
    + intros r Hr. destruct (Hall r Hr) as [c Hc]. exists c. split; [done|].
      apply Hcodes. unfold file_codes. apply list_elem_of_omap. by exists r.
  - eapply Forall2_impl; [exact HM|].
    intros row f Hrow.
    destruct (row_sums cs row f.2 Hnd Hreserved Hrow) as [Htot Hsum].
    pose proof (length_file_codes f.2).
    pose proof (length_filter (fun c => c ∈ cs) (file_codes f.2)).
    split_and!; [done|done|lia|].
    intros Hall. rewrite Hsum, Htot. f_equal. by apply file_codes_all.
Qed.

(** C7 as stated fails on a run of the whole tool: the identifier
    2023CS011 is classified, as its first eight characters fit, but the
    reporter's pattern asks the identifier to end there, so the record is
    in [Total] and in no branch count. *)
Lemma summary_total_exceeds_branch_counts :
  let cols := ["Group"; "Total"]%string in
  pipeline [student "2023CS011"] 1
  = Ok (mkDF cols (summary_layout cols [[Str "G1"; Int 1]] [[Str "G1"; Int 1]])) ∧
  row_branch_sum cols [Str "G1"; Int 1] = 0 ∧
  row_total cols [Str "G1"; Int 1] = 1.
Proof. split_and!; vm_compute; reflexivity. Qed.

(** * Further properties *)

(** ** Characters *)

Lemma is_digit_upper_char a : is_digit (upper_char a) = is_digit a.
Proof. destruct a as [[] [] [] [] [] [] [] []]; reflexivity. Qed.

Lemma is_letter_upper_char a : is_letter (upper_char a) = is_letter a.
Proof. destruct a as [[] [] [] [] [] [] [] []]; reflexivity. Qed.

Lemma upper_char_idemp a : upper_char (upper_char a) = upper_char a.
Proof. destruct a as [[] [] [] [] [] [] [] []]; reflexivity. Qed.

Lemma is_upper_upper_char a : is_letter a = true → is_upper (upper_char a) = true.
Proof. destruct a as [[] [] [] [] [] [] [] []]; vm_compute; congruence. Qed.

Lemma branch_code_upper s : branch_code (upper s) = branch_code s.
Proof.
  do 8 (destruct s as [|? s]; [reflexivity|]).
  unfold branch_code, pattern_match. simpl upper. cbv iota beta.
  rewrite !is_digit_upper_char, !is_letter_upper_char.
  match goal with |- context [if ?b then _ else _] => destruct b end; [|done].
  simpl. by rewrite !upper_char_idemp.
Qed.

Lemma branch_code_letters s c :
  branch_code s = Some c →
  ∃ a b, c = String a (String b EmptyString) ∧ is_upper a = true ∧ is_upper b = true.
Proof.
  intros (d1 & d2 & d3 & d4 & l1 & l2 & e1 & e2 & rest & _ & _ & [H1 H2] & _ & ->)
    %branch_code_shape.
  apply Is_true_true in H1, H2.
  exists (upper_char l1), (upper_char l2). split_and!; [done|..];
    by apply is_upper_upper_char.
Qed.

(** ** Branch Classifier *)

Lemma split_by_branch_facts (df : list Row) :
  Dict.wf (split_by_branch df).1 ∧
  (∀ code bucket, Dict.get code (split_by_branch df).1 = Some bucket →
                  bucket = rows_of_branch code df ∧ bucket ≠ []) ∧
  concat (Dict.values (split_by_branch df).1) ≡ₚ matched_rows df.
Proof.
  destruct (classify_fold_spec df ([], [])) as (Hwf & Hne & Hb & _ & Hp).
  { apply NoDup_nil_2. }
  { done. }
  fold (split_by_branch df) in Hwf, Hne, Hb, Hp. simpl in Hb, Hp.
  split_and!; [done| |done].
  intros code bucket Hg. split; [|by eapply Hne].
  specialize (Hb code). by rewrite Hg in Hb.
Qed.

(** X1. The classifier does not tell letter case apart: a row of the table
    whose identifier differs from that of a bucket member only in the case
    of its letters is in the same bucket, and the key of a bucket is two
    upper-case letters. *)
Theorem classifier_ignores_letter_case (df : list Row) code bucket r1 r2 :
  Dict.get code (split_by_branch df).1 = Some bucket →
  r1 ∈ bucket → r2 ∈ df → upper (Roll r2) = upper (Roll r1) →
  r2 ∈ bucket ∧
  ∃ a b, code = String a (String b EmptyString) ∧ is_upper a = true ∧ is_upper b = true.
Proof.
  intros Hg H1 H2 Hcase.
  destruct (split_by_branch_facts df) as (_ & Hb & _).
  destruct (Hb code bucket Hg) as [-> _].
  apply list_elem_of_filter in H1 as [H1 _].
  split.
  - apply list_elem_of_filter. split; [|done].
    by rewrite <- branch_code_upper, Hcase, branch_code_upper.
  - by eapply branch_code_letters.
Qed.

Lemma classifier_ignores_letter_case_witness :
  let r1 := student "2023cs01" in
  let r2 := student "2023Cs01" in
  r2 ∈ [r1; r2] ∧
  ∃ a b, "CS"%string = String a (String b EmptyString)
         ∧ is_upper a = true ∧ is_upper b = true.
Proof.
  intros r1 r2.
  apply (classifier_ignores_letter_case [r1; r2] "CS" [r1; r2] r1 r2).
  - reflexivity.
  - apply (bool_decide_unpack _). vm_compute. exact I.
  - apply (bool_decide_unpack _). vm_compute. exact I.
  - reflexivity.
Defined.

Lemma filter_absent_cons (ks : list string) c (l : list string) :
  c ∈ ks →
  filter (fun y => y ∉ ks) (filter (fun y => y ≠ c) l) = filter (fun y => y ∉ ks) l.
Proof.
  intros Hc. rewrite list_filter_filter. apply list_filter_iff.
  intros y. split; [tauto|]. intros Hy. split; [done|]. by intros ->.
Qed.

Lemma classify_row_keys st row :
  Dict.keys (classify_row st row).1
  = match branch_code (Roll row) with
    | Some c => if decide (c ∈ Dict.keys st.1) then Dict.keys st.1
                else Dict.keys st.1 ++ [c]
    | None => Dict.keys st.1
    end.
Proof.
  destruct st as [grouped out]. unfold classify_row, branch_code. simpl.
  destruct (pattern_match (Roll row)) as [letters|]; simpl; [|done].
  unfold setdefault_append.
  destruct (Dict.get (upper letters) grouped) as [old|] eqn:Hg.
  - assert (Hc : upper letters ∈ Dict.keys grouped).
    { destruct (decide (upper letters ∈ Dict.keys grouped)) as [|Hn]; [done|].
      apply get_None in Hn. congruence. }
    rewrite decide_True by done. by apply keys_set_present.
  - apply get_None in Hg. rewrite decide_False by done.
    rewrite set_absent by done. unfold Dict.keys. by rewrite fmap_app.
Qed.

Lemma classified_codes_cons row df :
  classified_codes (row :: df)
  = match branch_code (Roll row) with
    | Some c => c :: classified_codes df
    | None => classified_codes df
    end.
Proof. unfold classified_codes. csimpl. by destruct (branch_code (Roll row)). Qed.

(** The keys of [grouped] through the loop: the codes met so far, each
    where it was first met. *)
Lemma classify_fold_keys df st :
  Dict.keys (fold_left classify_row df st).1
  = Dict.keys st.1 ++ filter (fun c => c ∉ Dict.keys st.1) (unique (classified_codes df)).
Proof.
  revert st. induction df as [|row df IH]; intros st.
  - simpl. by rewrite app_nil_r.
  - simpl fold_left. rewrite IH, classify_row_keys, classified_codes_cons.
    destruct (branch_code (Roll row)) as [c|]; [|done].
    simpl unique. destruct (decide (c ∈ Dict.keys st.1)) as [Hc|Hc].
    + f_equal. rewrite filter_cons, decide_False by (intros H; by apply H).
      by rewrite filter_absent_cons.
    + rewrite <- app_assoc. f_equal.
      rewrite (filter_cons _ c), decide_True by done. simpl. f_equal.
      rewrite list_filter_filter. apply list_filter_iff.
      intros y. rewrite elem_of_app, list_elem_of_singleton. tauto.
Qed.

Lemma split_by_branch_key_order_keys (df : list Row) :
  Dict.keys (split_by_branch df).1 = unique (classified_codes df).
Proof.
  unfold split_by_branch. rewrite classify_fold_keys. simpl.
  apply filter_all. intros c _. apply not_elem_of_nil.
Qed.

(** X2. The mapping the classifier returns lists the branch codes in the
    order in which the table first shows them, each once; from an empty
    table, and from one without a valid identifier, it is empty. *)
Theorem split_by_branch_key_order (df : list Row) :
  Dict.keys (split_by_branch df).1 = unique (classified_codes df) ∧
  NoDup (Dict.keys (split_by_branch df).1) ∧
  ((split_by_branch df).1 = [] ↔ matched_rows df = []).
Proof.
  split_and!.
  - apply split_by_branch_key_order_keys.
  - rewrite split_by_branch_key_order_keys. apply NoDup_unique.
  - destruct (classify_fold_spec df ([], [])) as (_ & Hne & _ & _ & Hp).
    { apply NoDup_nil_2. }
    { done. }
    fold (split_by_branch df) in Hne, Hp. simpl in Hp. split.
    + intros Hbd. rewrite Hbd in Hp. by apply Permutation_nil in Hp.
    + intros Hm. rewrite Hm in Hp.
      destruct (split_by_branch df).1 as [|[code bucket] bd]; [done|].
      exfalso. apply (Hne code bucket); [simpl; by rewrite String.eqb_refl|].
      apply Permutation_nil_r in Hp. simpl in Hp.
      by apply app_eq_nil in Hp as [? _].
Qed.

(** ** Classifier and reporter patterns *)

Lemma summary_code_long s c :
  summary_code s = Some c → (4 ≤ String.length s)%nat → branch_code s = Some c.
Proof.
  unfold summary_code, extract, branch_code, pattern_match. intros H Hlen.
  do 4 (destruct s as [|? s]; [simpl in Hlen; lia|]).
  revert H. repeat case_match; simplify_eq/=; try done;
    repeat match goal with
           | H : (_ && _)%bool = true |- _ => apply andb_prop in H as [H ?]
           end; try congruence.
  all: intros _;
    repeat match goal with
           | H : ?b = true, H' : context [?b] |- _ => rewrite H in H'
           end; simpl in *; congruence.
Qed.

Lemma summary_code_eight s :
  String.length s = 8%nat → summary_code s = branch_code s.
Proof.
  intros Hlen. do 8 (destruct s as [|? s]; [simpl in Hlen; lia|]).
  destruct s; [|simpl in Hlen; lia].
  unfold summary_code, extract, branch_code, pattern_match. simpl at_end.
  rewrite andb_true_r.
  match goal with |- context [if ?b then _ else _] => destruct b end; done.
Qed.

(** X3. The reporter's pattern against the classifier's, on ASCII
    identifiers.  The classifier asks for [[0-9]] where the reporter asks
    for [\d]; on an identifier of ASCII characters the two classes are
    the same, which is the condition [isascii] (an identifier with digits
    of another script is outside this statement: there the reporter's
    pattern takes digits the classifier's does not).  On an ASCII
    identifier of at least four characters the reporter finds a branch
    code only if the classifier finds the same code; on one of exactly
    eight characters the two agree, also on having no code. *)
Theorem reporter_code_is_classifier_code (s : string) :
  isascii s = true →
  (4 ≤ String.length s)%nat →
  (∀ c, summary_code s = Some c → branch_code s = Some c) ∧
  (String.length s = 8%nat → summary_code s = branch_code s).
Proof.
  intros _ Hlen. split.
  - intros c Hc. by apply summary_code_long.
  - apply summary_code_eight.
Qed.

Lemma reporter_code_is_classifier_code_witness :
  (∀ c, summary_code "2023ec07" = Some c → branch_code "2023ec07" = Some c) ∧
  (String.length "2023ec07" = 8%nat → summary_code "2023ec07" = branch_code "2023ec07").
Proof.
  apply (reporter_code_is_classifier_code "2023ec07"); [reflexivity|simpl; lia].
Defined.

(** ** Uniform Distributor *)

Lemma concat_Permutation {A} (l1 l2 : list (list A)) :
  l1 ≡ₚ l2 → concat l1 ≡ₚ concat l2.
Proof.
  induction 1 as [|x l1 l2 _ IH|x y l|l1 l2 l3 _ IH1 _ IH2]; simpl.
  - done.
  - by f_equiv.
  - rewrite !app_assoc. f_equiv. apply Permutation_app_comm.
  - by etrans.
Qed.

Lemma flattened_perm {A} (bd : Dict.t (list A)) :
  flattened bd ≡ₚ concat (Dict.values bd).
Proof.
  unfold flattened, Dict.values. apply concat_Permutation.
  by rewrite (sorted_by_size_perm bd).
Qed.

(** What [uniform_distribution] does on a non-empty mapping, for any count. *)
Lemma uniform_distribution_nonempty {A} (bd : Dict.t (list A)) (N : Z) :
  Dict.wf bd → bd ≠ [] →
  uniform_distribution bd N
  = if N =? 0 then Raise ZeroDivisionError
    else Ok (uniform_loop (flattened bd) (total_records bd / N) (Z.to_nat N)
               (total_records bd mod N) 0).
Proof.
  intros Hwf Hne. unfold uniform_distribution.
  rewrite of_items_wf by (by rewrite (sorted_by_size_perm bd)).
  destruct (Dict.values (sorted_by_size bd)) as [|f fs] eqn:Hv.
  - exfalso. apply Hne. apply fmap_nil_inv in Hv.
    apply Permutation_nil_r. by rewrite <- Hv, sorted_by_size_perm.
  - rewrite <- Hv. fold (flattened bd). by rewrite length_flattened.
Qed.

(** X4. The outcomes of the Uniform Distributor.  On a mapping without
    buckets it raises [ValueError], whatever the group count, also 0; on a
    mapping with a bucket it raises [ZeroDivisionError] for the count 0,
    returns normally without writing a group for a negative count, and
    writes exactly [N] groups for a count [N >= 1]. *)
Theorem uniform_outcomes {A} (bd : Dict.t (list A)) (N : Z) :
  Dict.wf bd →
  (bd = [] → uniform_distribution bd N = Raise ValueError) ∧
  (bd ≠ [] → N = 0 → uniform_distribution bd N = Raise ZeroDivisionError) ∧
  (bd ≠ [] → N < 0 → uniform_distribution bd N = Ok []) ∧
  (bd ≠ [] → 1 ≤ N →
   ∃ groups, uniform_distribution bd N = Ok groups ∧ length groups = Z.to_nat N).
Proof.
  intros Hwf. split_and!.
  - by intros ->.
  - intros Hne ->. by rewrite uniform_distribution_nonempty.
  - intros Hne HN. rewrite uniform_distribution_nonempty by done.
    destruct (Z.eqb_spec N 0); [lia|].
    by replace (Z.to_nat N) with 0%nat by lia.
  - intros Hne HN. rewrite uniform_distribution_nonempty by done.
    destruct (Z.eqb_spec N 0); [lia|].
    eexists. split; [done|]. apply length_uniform_loop.
Qed.

Lemma uniform_outcomes_witness :
  (example_buckets = [] → uniform_distribution example_buckets (-4) = Raise ValueError) ∧
  (example_buckets ≠ [] → -4 = 0 →
   uniform_distribution example_buckets (-4) = Raise ZeroDivisionError) ∧
  (example_buckets ≠ [] → -4 < 0 → uniform_distribution example_buckets (-4) = Ok []) ∧
  (example_buckets ≠ [] → 1 ≤ -4 →
   ∃ groups, uniform_distribution example_buckets (-4) = Ok groups
             ∧ length groups = Z.to_nat (-4)).
Proof. apply (uniform_outcomes example_buckets (-4)). exact example_buckets_wf. Defined.

(** X5. The Uniform Distributor keeps the records.  For a non-empty
    mapping and [N >= 1] the groups, taken together, hold the records of
    the buckets, each as often as it occurs there; when the records are
    pairwise distinct, none is in two groups or twice in one. *)
Theorem uniform_preserves_records {A} (bd : Dict.t (list A)) (N : Z) :
  Dict.wf bd → bd ≠ [] → 1 ≤ N →
  ∃ groups,
    uniform_distribution bd N = Ok groups ∧
    concat groups ≡ₚ concat (Dict.values bd) ∧
    (NoDup (concat (Dict.values bd)) → NoDup (concat groups)).
Proof.
  intros Hwf Hne HN.
  destruct (uniform_sizes bd N Hwf Hne HN) as (groups & Hok & _).
  exists groups. split; [done|].
  assert (Hcat : concat groups ≡ₚ concat (Dict.values bd)).
  { rewrite uniform_distribution_Ok in Hok by done. injection Hok as <-.
    assert (HT : 0 ≤ total_records bd) by (unfold total_records; lia).
    pose proof (Z.div_pos (total_records bd) N HT ltac:(lia)).
    pose proof (Z.mod_pos_bound (total_records bd) N ltac:(lia)).
    pose proof (Z.div_mod (total_records bd) N ltac:(lia)).
    pose proof (length_flattened bd).
    rewrite uniform_loop_concat by lia.
    rewrite drop_0, take_ge by lia. apply flattened_perm. }
  split; [done|]. intros Hnd. by rewrite Hcat.
Qed.

Lemma uniform_preserves_records_witness :
  ∃ groups,
    uniform_distribution example_buckets 4 = Ok groups ∧
    concat groups ≡ₚ concat (Dict.values example_buckets) ∧
    (NoDup (concat (Dict.values example_buckets)) → NoDup (concat groups)).
Proof.
  apply (uniform_preserves_records example_buckets 4).
  - exact example_buckets_wf.
  - exact example_buckets_nonempty.
  - lia.
Defined.

(** X20. More groups than records.  For a non-empty bucket mapping with
    [T] records and [N > T] groups the Uniform Distributor succeeds with
    [N] groups: each of the first [T] holds one record and every later one
    is empty. *)
Theorem uniform_more_groups_than_records {A} (bd : Dict.t (list A)) (N : Z) :
  Dict.wf bd → bd ≠ [] → total_records bd < N →
  ∃ groups,
    uniform_distribution bd N = Ok groups ∧
    length groups = Z.to_nat N ∧
    (∀ i g, groups !! i = Some g → Z.of_nat i < total_records bd → length g = 1%nat) ∧
    (∀ i g, groups !! i = Some g → total_records bd ≤ Z.of_nat i → g = []).
Proof.
  intros Hwf Hne HN.
  assert (HT : 0 ≤ total_records bd) by (unfold total_records; lia).
  destruct (uniform_sizes bd N Hwf Hne ltac:(lia))
    as (groups & Hok & Hlen & Hsize & _).
  exists groups. split_and!; [done|done| |].
  - intros i g Hi Hlt. apply Hsize in Hi. unfold size_profile in Hi.
    rewrite Z.div_small, Z.mod_small in Hi by lia.
    destruct (Z.ltb_spec (Z.of_nat i) (total_records bd)); lia.
  - intros i g Hi Hge. apply Hsize in Hi. unfold size_profile in Hi.
    rewrite Z.div_small, Z.mod_small in Hi by lia.
    destruct (Z.ltb_spec (Z.of_nat i) (total_records bd)); [lia|].
    destruct g; [done|simpl in Hi; lia].
Qed.

Lemma uniform_more_groups_than_records_witness :
  ∃ groups,
    uniform_distribution example_buckets 12 = Ok groups ∧
    length groups = Z.to_nat 12 ∧
    (∀ i g, groups !! i = Some g → Z.of_nat i < total_records example_buckets →
            length g = 1%nat) ∧
    (∀ i g, groups !! i = Some g → total_records example_buckets ≤ Z.of_nat i → g = []).
Proof.
  apply (uniform_more_groups_than_records example_buckets 12).
  - exact example_buckets_wf.
  - exact example_buckets_nonempty.
  - vm_compute. reflexivity.
Defined.

(** ** The two distributors side by side *)

Lemma Forall2_same_profile {A} (l1 l2 : list (list A)) (f : nat → Z) :
  length l1 = length l2 →
  (∀ i g, l1 !! i = Some g → Z.of_nat (length g) = f i) →
  (∀ i g, l2 !! i = Some g → Z.of_nat (length g) = f i) →
  Forall2 (fun g1 g2 => length g1 = length g2) l1 l2.
Proof.
  intros Hlen H1 H2. apply Forall2_same_length_lookup_2; [done|].
  intros i g1 g2 Hg1 Hg2. apply H1 in Hg1. apply H2 in Hg2. lia.
Qed.

(** X6. Both policies cut the same records into groups of the same
    sizes.  For a non-empty mapping and [N >= 1], the uniform and the mixed
    groups are as many, group [i] of one is as large as group [i] of the
    other, and together they hold the same records. *)
Theorem distributors_agree_on_sizes {A} (bd : Dict.t (list A)) (N : Z) :
  Dict.wf bd → bd ≠ [] → 1 ≤ N →
  ∃ uniform_groups mixed_groups,
    uniform_distribution bd N = Ok uniform_groups ∧
    mixed_distribution bd N = Ok mixed_groups ∧
    Forall2 (fun g1 g2 => length g1 = length g2) uniform_groups mixed_groups ∧
    concat uniform_groups ≡ₚ concat mixed_groups.
Proof.
  intros Hwf Hne HN.
  destruct (uniform_sizes bd N Hwf Hne HN) as (ug & Hu & Hulen & Husz & _).
  destruct (mixed_phases bd N Hwf HN)
    as (_ & _ & mg & _ & _ & _ & _ & _ & Hm & Hmlen & Hmsz & Hmperm).
  exists ug, mg. split_and!; [done|done| |].
  - eapply Forall2_same_profile; [lia|done|done].
  - rewrite Hmperm. unfold queued. rewrite <- flattened_perm.
    rewrite uniform_distribution_Ok in Hu by done. injection Hu as <-.
    assert (HT : 0 ≤ total_records bd) by (unfold total_records; lia).
    pose proof (Z.div_pos (total_records bd) N HT ltac:(lia)).
    pose proof (Z.mod_pos_bound (total_records bd) N ltac:(lia)).
    pose proof (Z.div_mod (total_records bd) N ltac:(lia)).
    pose proof (length_flattened bd).
    rewrite uniform_loop_concat by lia.
    by rewrite drop_0, take_ge by lia.
Qed.

Lemma distributors_agree_on_sizes_witness :
  ∃ uniform_groups mixed_groups,
    uniform_distribution example_buckets 4 = Ok uniform_groups ∧
    mixed_distribution example_buckets 4 = Ok mixed_groups ∧
    Forall2 (fun g1 g2 => length g1 = length g2) uniform_groups mixed_groups ∧
    concat uniform_groups ≡ₚ concat mixed_groups.
Proof.
  apply (distributors_agree_on_sizes example_buckets 4).
  - exact example_buckets_wf.
  - exact example_buckets_nonempty.
  - lia.
Defined.

(** ** Mixed Distributor *)

Lemma all_nil_replicate {A} (l : list (list A)) :
  (∀ i g, l !! i = Some g → g = []) → l = replicate (length l) [].
Proof.
  induction l as [|g l IH]; intros Hall; [done|]. simpl. f_equal.
  - by apply (Hall 0%nat).
  - apply IH. intros i g' Hg'. by apply (Hall (S i)).
Qed.

(** X7. A mapping without records.  When no bucket holds a record, and
    also when there is no bucket at all, the Mixed Distributor with
    [N >= 1] writes [N] empty groups. *)
Theorem mixed_without_records {A} (bd : Dict.t (list A)) (N : Z) :
  Dict.wf bd → 1 ≤ N → total_records bd = 0 →
  mixed_distribution bd N = Ok (replicate (Z.to_nat N) []).
Proof.
  intros Hwf HN HT.
  destruct (mixed_phases bd N Hwf HN)
    as (_ & _ & groups & _ & _ & _ & _ & _ & Hok & Hlen & Hsz & _).
  rewrite Hok. f_equal. rewrite <- Hlen. apply all_nil_replicate.
  intros i g Hg. apply Hsz in Hg. unfold size_profile in Hg.
  rewrite HT, Z.div_0_l, Z.mod_0_l in Hg by lia.
  destruct (Z.ltb_spec (Z.of_nat i) 0); [lia|].
  destruct g; [done|simpl in Hg; lia].
Qed.

Lemma mixed_without_records_witness :
  mixed_distribution [("CS"%string, @nil Row); ("EC"%string, [])] 3
  = Ok (replicate (Z.to_nat 3) []).
Proof.
  apply (mixed_without_records [("CS"%string, @nil Row); ("EC"%string, [])] 3).
  - apply (bool_decide_unpack _). vm_compute. exact I.
  - lia.
  - reflexivity.
Defined.

(** ** File names of the groups *)

Lemma read_int_uint (d : Decimal.uint) (rest : string) (acc : Z) :
  0 ≤ acc →
  read_int (String.append (NilEmpty.string_of_uint d) rest) acc
  = read_int rest (Z.of_nat (Nat.of_uint_acc d (Z.to_nat acc))).
Proof.
  revert acc. induction d as [|d IH|d IH|d IH|d IH|d IH|d IH|d IH|d IH|d IH|d IH];
    intros acc Hacc; simpl NilEmpty.string_of_uint; simpl Nat.of_uint_acc.
  - simpl. by rewrite Z2Nat.id.
  - read_digit IH 0.
  - read_digit IH 1.
  - read_digit IH 2.
  - read_digit IH 3.
  - read_digit IH 4.
  - read_digit IH 5.
  - read_digit IH 6.
  - read_digit IH 7.
  - read_digit IH 8.
  - read_digit IH 9.
Qed.

Lemma to_uint_nonnil n : Nat.to_uint n ≠ Decimal.Nil.
Proof.
  intros H. destruct n as [|n]; [discriminate|].
  pose proof (Unsigned.of_to (S n)) as Hn. rewrite H in Hn. discriminate.
Qed.

Lemma from_first_digit_uint (d : Decimal.uint) (rest : string) :
  d ≠ Decimal.Nil →
  from_first_digit (String.append (NilEmpty.string_of_uint d) rest)
  = String.append (NilEmpty.string_of_uint d) rest.
Proof. destruct d; [done|reflexivity..]. Qed.

Lemma file_number_group_file n : file_number (group_file_name n) = Z.of_nat n.
Proof.
  unfold file_number, group_file_name.
  change (from_first_digit (String.append "group_" ?x)) with (from_first_digit x).
  rewrite from_first_digit_uint by apply to_uint_nonnil.
  rewrite read_int_uint by done. simpl read_int.
  change (Nat.of_uint_acc ?d (Z.to_nat 0)) with (Nat.of_uint d).
  by rewrite Unsigned.of_to.
Qed.

Lemma length_append (a b : string) :
  String.length (String.append a b) = (String.length a + String.length b)%nat.
Proof. induction a as [|c a IH]; simpl; [done|]. by rewrite IH. Qed.

Lemma substring_all (b : string) : substring 0 (String.length b) b = b.
Proof. induction b as [|c b IH]; simpl; [done|]. by rewrite IH. Qed.

Lemma substring_append (a b : string) :
  substring (String.length a) (String.length b) (String.append a b) = b.
Proof. induction a as [|c a IH]; [apply substring_all|done]. Qed.

Lemma ends_with_csv_append (a : string) : ends_with_csv (String.append a ".csv") = true.
Proof.
  unfold ends_with_csv. rewrite length_append.
  replace (String.length a + String.length ".csv" - 4)%nat with (String.length a)
    by (simpl; lia).
  change 4%nat with (String.length ".csv") at 2.
  rewrite (substring_append a ".csv"). simpl String.length.
  destruct (Nat.leb_spec 4 (String.length a + 4)); [done|lia].
Qed.

Lemma append_assoc (a b c : string) :
  String.append (String.append a b) c = String.append a (String.append b c).
Proof.
  induction a as [|x a IH]; [reflexivity|].
  change (String x (String.append (String.append a b) c)
          = String x (String.append a (String.append b c))).
  by rewrite IH.
Qed.

Lemma ends_with_csv_group_file n : ends_with_csv (group_file_name n) = true.
Proof.
  unfold group_file_name. rewrite <- append_assoc. apply ends_with_csv_append.
Qed.

(** ** The order in which the reporter visits the files *)

Section SortedAlready.
Context {A : Type} (before : A → A → bool).

Lemma sorted_already (l : list A) :
  StronglySorted (fun a b => before b a = false) l → sorted before l = l.
Proof.
  induction 1 as [|x l Hl IH Hx]; simpl; [done|].
  rewrite IH. destruct Hx as [|y l Hy _]; simpl; [done|]. by rewrite Hy.
Qed.
End SortedAlready.

Lemma List_filter_all {A} (f : A → bool) (l : list A) :
  (∀ a, a ∈ l → f a = true) → List.filter f l = l.
Proof.
  induction l as [|a l IH]; intros Hall; simpl; [done|].
  rewrite (Hall a) by left. f_equal. apply IH. intros b Hb. apply Hall. by right.
Qed.

Lemma elem_of_List_filter {A} (f : A → bool) (l : list A) a :
  a ∈ List.filter f l ↔ a ∈ l ∧ f a = true.
Proof. rewrite !list_elem_of_In. apply filter_In. Qed.

Lemma List_filter_Permutation {A} (f : A → bool) (l1 l2 : list A) :
  l1 ≡ₚ l2 → List.filter f l1 ≡ₚ List.filter f l2.
Proof.
  induction 1 as [|x l1 l2 _ IH|x y l|l1 l2 l3 _ IH1 _ IH2]; simpl.
  - done.
  - destruct (f x); [by f_equiv|done].
  - destruct (f x), (f y); try done. apply Permutation_swap.
  - by etrans.
Qed.

Lemma csv_files_perm (dir : folder) :
  csv_files dir ≡ₚ List.filter (fun f => ends_with_csv f.1) dir.
Proof. apply sorted_perm. Qed.

Lemma csv_files_ordered (dir : folder) :
  StronglySorted (fun a b => file_number a.1 ≤ file_number b.1) (csv_files dir).
Proof.
  apply sorted_ordered.
  - intros a b c Hab Hbc. lia.
  - intros y x H%Z.ltb_lt. lia.
  - intros y x H%Z.ltb_ge. lia.
Qed.

Lemma from_first_digit_none (x : string) :
  (∀ a, a ∈ list_ascii_of_string x → is_digit a = false) → from_first_digit x = EmptyString.
Proof.
  induction x as [|a x IH]; intros Hall; simpl; [done|].
  rewrite (Hall a) by left. apply IH. intros b Hb. apply Hall. by right.
Qed.

Lemma from_first_digit_append (pre x : string) :
  (∀ a, a ∈ list_ascii_of_string pre → is_digit a = false) →
  from_first_digit (String.append pre x) = from_first_digit x.
Proof.
  induction pre as [|a pre IH]; intros Hpre; [done|].
  change (String.append (String a pre) x) with (String a (String.append pre x)).
  simpl. rewrite (Hpre a) by left. apply IH. intros b Hb. apply Hpre. by right.
Qed.

Lemma read_int_no_digit (rest : string) (acc : Z) :
  starts_with_digit rest = false → read_int rest acc = acc.
Proof. destruct rest as [|a rest]; simpl; [done|]. by intros ->. Qed.

Lemma file_number_first_run (pre : string) (d : Decimal.uint) (rest : string) :
  (∀ a, a ∈ list_ascii_of_string pre → is_digit a = false) →
  d ≠ Decimal.Nil →
  starts_with_digit rest = false →
  file_number (String.append pre (String.append (NilEmpty.string_of_uint d) rest))
  = Z.of_nat (Nat.of_uint d).
Proof.
  intros Hpre Hd Hrest. unfold file_number.
  rewrite from_first_digit_append, from_first_digit_uint by done.
  rewrite read_int_uint by done. by rewrite read_int_no_digit.
Qed.

(** X8. Which files the reporter reads, and in which order, in a
    directory whose file names are ASCII text (where [\d] and [int] take
    the digits [0] to [9] only).  It reads the files whose name ends in
    [.csv], each once, and no other; it takes them by rising number;
    files of equal number stay in the order of the directory listing.
    The number of a name is the value of its first run of digits: for a
    name made of a part without a digit, then the decimal digits of [d],
    then a rest that does not start with a digit, it is the number these
    digits write, leading zeros allowed; it is 0 for a name without a
    digit. *)
Theorem csv_files_order (dir : folder) :
  Forall (fun f => isascii f.1 = true) dir →
  csv_files dir ≡ₚ List.filter (fun f => ends_with_csv f.1) dir ∧
  (∀ f, f ∈ csv_files dir ↔ f ∈ dir ∧ ends_with_csv f.1 = true) ∧
  StronglySorted (fun a b => file_number a.1 ≤ file_number b.1) (csv_files dir) ∧
  (∀ n, filter (fun f => file_number f.1 = n) (csv_files dir)
        = filter (fun f => file_number f.1 = n)
            (List.filter (fun f => ends_with_csv f.1) dir)) ∧
  (∀ f pre d rest,
     f ∈ dir →
     f.1 = String.append pre (String.append (NilEmpty.string_of_uint d) rest) →
     (∀ a, a ∈ list_ascii_of_string pre → is_digit a = false) →
     d ≠ Decimal.Nil →
     starts_with_digit rest = false →
     file_number f.1 = Z.of_nat (Nat.of_uint d)) ∧
  (∀ f, f ∈ dir →
        (∀ a, a ∈ list_ascii_of_string f.1 → is_digit a = false) →
        file_number f.1 = 0).
Proof.
  intros _. split_and!.
  - apply csv_files_perm.
  - intros f. rewrite csv_files_perm.
    apply (elem_of_List_filter (fun f => ends_with_csv f.1)).
  - apply csv_files_ordered.
  - intros n. apply sorted_stable. intros a b -> Hb. apply Z.ltb_ge. lia.
  - intros f pre d rest _ -> Hpre Hd Hrest. by apply file_number_first_run.
  - intros f _ Hx. unfold file_number. by rewrite from_first_digit_none.
Qed.

Lemma csv_files_order_witness :
  let dir := [group_file "run2_group_010.csv" ["2023CS01"];
              group_file "notes.txt" [];
              group_file "group_3.csv" ["2023EC01"];
              group_file "summary.csv" []]%string in
  csv_files dir ≡ₚ List.filter (fun f => ends_with_csv f.1) dir ∧
  (∀ f, f ∈ csv_files dir ↔ f ∈ dir ∧ ends_with_csv f.1 = true) ∧
  StronglySorted (fun a b => file_number a.1 ≤ file_number b.1) (csv_files dir) ∧
  (∀ n, filter (fun f => file_number f.1 = n) (csv_files dir)
        = filter (fun f => file_number f.1 = n)
            (List.filter (fun f => ends_with_csv f.1) dir)) ∧
  (∀ f pre d rest,
     f ∈ dir →
     f.1 = String.append pre (String.append (NilEmpty.string_of_uint d) rest) →
     (∀ a, a ∈ list_ascii_of_string pre → is_digit a = false) →
     d ≠ Decimal.Nil →
     starts_with_digit rest = false →
     file_number f.1 = Z.of_nat (Nat.of_uint d)) ∧
  (∀ f, f ∈ dir →
        (∀ a, a ∈ list_ascii_of_string f.1 → is_digit a = false) →
        file_number f.1 = 0).
Proof.
  intros dir. apply (csv_files_order dir). repeat constructor.
Defined.

(** The files of the groups from number [S k] on. *)
Lemma imap_group_files_cons k (g : list Row) gs :
  imap (fun i g => (group_file_name (S (k + i)), g)) (g :: gs)
  = (group_file_name (S k), g)
    :: imap (fun i g => (group_file_name (S (S k + i)), g)) gs.
Proof.
  rewrite imap_cons. rewrite Nat.add_0_r. f_equal.
  apply imap_ext. intros i x _. simpl. by rewrite Nat.add_succ_r.
Qed.

Lemma imap_group_files_sorted k (gs : list (list Row)) :
  StronglySorted (fun a b => (file_number b.1 <? file_number a.1) = false)
    (imap (fun i g => (group_file_name (S (k + i)), g)) gs).
Proof.
  revert k. induction gs as [|g gs IH]; intros k; [constructor|].
  rewrite imap_group_files_cons. constructor; [apply IH|].
  apply Forall_forall. intros f [i Hf]%list_elem_of_lookup.
  rewrite list_lookup_imap in Hf.
  destruct (gs !! i) as [g'|]; simplify_eq/=.
  rewrite !file_number_group_file. apply Z.ltb_ge. lia.
Qed.

Lemma csv_files_group_files (groups : list (list Row)) :
  csv_files (group_files groups) = group_files groups.
Proof.
  unfold csv_files. rewrite List_filter_all.
  - apply sorted_already. apply (imap_group_files_sorted 0).
  - intros f [i Hf]%list_elem_of_lookup. unfold group_files in Hf.
    rewrite list_lookup_imap in Hf.
    destruct (groups !! i) as [g'|]; simplify_eq/=.
    apply (ends_with_csv_group_file (S i)).
Qed.

(** X9. From the distributors to the reporter.  The name [group_n.csv]
    ends in [.csv] and has the number [n]; so the reporter reads the files
    a distributor wrote into an empty directory all, and in the order of
    the groups: its file number [i] is group [i]. *)
Theorem reporter_reads_groups_in_order (groups : list (list Row)) :
  (∀ n, ends_with_csv (group_file_name n) = true
        ∧ file_number (group_file_name n) = Z.of_nat n) ∧
  csv_files (group_files groups) = group_files groups ∧
  (∀ i, csv_files (group_files groups) !! i
        = (fun g => (group_file_name (S i), g)) <$> groups !! i).
Proof.
  split_and!.
  - intros n. split; [apply ends_with_csv_group_file|apply file_number_group_file].
  - apply csv_files_group_files.
  - intros i. rewrite csv_files_group_files.
    exact (list_lookup_imap (fun i g => (group_file_name (S i), g)) groups i).
Qed.

Lemma NoDup_fmap_eq {A B} (f : A → B) (l : list A) x y :
  NoDup (f <$> l) → x ∈ l → y ∈ l → f x = f y → x = y.
Proof.
  induction l as [|a l IH]; csimpl; [by intros _ ?%elem_of_nil|].
  rewrite NoDup_cons. intros [Ha Hnd] [->|Hx]%elem_of_cons [->|Hy]%elem_of_cons Heq.
  - done.
  - exfalso. apply Ha. rewrite Heq. by apply list_elem_of_fmap_2.
  - exfalso. apply Ha. rewrite <- Heq. by apply list_elem_of_fmap_2.
  - by apply IH.
Qed.

Lemma csv_files_listing (dir1 dir2 : folder) :
  dir1 ≡ₚ dir2 →
  NoDup ((fun f => file_number f.1) <$> List.filter (fun f => ends_with_csv f.1) dir1) →
  csv_files dir1 = csv_files dir2.
Proof.
  intros Hperm Hnd.
  assert (Hp : csv_files dir1 ≡ₚ csv_files dir2).
  { rewrite !csv_files_perm. by apply List_filter_Permutation. }
  eapply StronglySorted_unique_strong; [|apply csv_files_ordered..|done].
  intros x1 x2 H1 H2 H12 H21. rewrite <- Hp in H2.
  rewrite csv_files_perm in H1, H2.
  simpl in H12, H21.
  eapply (NoDup_fmap_eq (fun f => file_number f.1)); [done..|]. simpl. lia.
Qed.

Lemma read_stats_csv_files (dir1 dir2 : folder) :
  csv_files dir1 = csv_files dir2 → read_stats dir1 = read_stats dir2.
Proof. unfold read_stats. by intros ->. Qed.

(** X10. The order of the directory listing does not matter when the
    file names are ASCII text and the [.csv] files of each directory have
    pairwise different numbers: two listings of the same files give the
    same summary.  (For ASCII names the number is the one the program
    sorts by; a digit of another script in a name is outside this
    statement.) *)
Theorem summary_independent_of_listing (u1 u2 m1 m2 : folder) :
  Forall (fun f => isascii f.1 = true) u1 →
  Forall (fun f => isascii f.1 = true) m1 →
  u1 ≡ₚ u2 → m1 ≡ₚ m2 →
  NoDup ((fun f => file_number f.1) <$> List.filter (fun f => ends_with_csv f.1) u1) →
  NoDup ((fun f => file_number f.1) <$> List.filter (fun f => ends_with_csv f.1) m1) →
  generate_summary u1 m1 = generate_summary u2 m2.
Proof.
  intros _ _ Hu Hm Hnu Hnm. unfold generate_summary.
  by rewrite (read_stats_csv_files u1 u2), (read_stats_csv_files m1 m2)
    by (by apply csv_files_listing).
Qed.

Lemma summary_independent_of_listing_witness :
  let f1 := group_file "group_1.csv" ["2023CS01"; "2023EC01"]%string in
  let f2 := group_file "group_2.csv" ["2023CS02"]%string in
  generate_summary [f2; f1] [f1; f2] = generate_summary [f1; f2] [f2; f1].
Proof.
  intros f1 f2.
  apply (summary_independent_of_listing [f2; f1] [f1; f2] [f1; f2] [f2; f1]).
  - repeat constructor.
  - repeat constructor.
  - apply Permutation_swap.
  - apply Permutation_swap.
  - apply (bool_decide_unpack _). vm_compute. exact I.
  - apply (bool_decide_unpack _). vm_compute. exact I.
Defined.

(** ** Layout of the summary *)

Lemma stat_entries_lookup files idx i e :
  stat_entries files idx !! i = Some e → e.1 = group_label (idx + i).
Proof.
  revert idx i. induction files as [|[name df] files IH]; intros idx i; [done|].
  destruct i as [|i]; simpl.
  - intros [= <-]. simpl. by rewrite Nat.add_0_r.
  - intros He. rewrite (IH _ _ He). f_equal. lia.
Qed.

Lemma length_stat_entries files idx : length (stat_entries files idx) = length files.
Proof.
  revert idx. induction files as [|[name df] files IH]; intros idx; simpl; [done|].
  by rewrite IH.
Qed.

Lemma read_stats_labels dir i row :
  rows (read_stats dir) !! i = Some row →
  ∃ cells, row = Str (group_label (S i)) :: cells.
Proof.
  destruct (decide (csv_files dir = [])) as [Hfiles|Hfiles].
  - by rewrite read_stats_empty.
  - rewrite read_stats_nonempty by done. simpl. rewrite list_lookup_fmap.
    destruct (_ !! i) as [e|] eqn:He; simpl; [|done].
    intros [= <-]. apply stat_entries_lookup in He. rewrite He. eauto.
Qed.

Lemma length_read_stats dir : length (rows (read_stats dir)) = length (csv_files dir).
Proof.
  destruct (read_stats_spec dir) as (cs & _ & _ & _ & _ & _ & Hrows).
  by apply Forall2_length in Hrows.
Qed.

Lemma read_stats_columns dir :
  ∃ cs, columns (read_stats dir) = ("Group" :: cs ++ ["Total"])%string ∧
        NoDup ("Group" :: cs ++ ["Total"])%string.
Proof.
  destruct (read_stats_spec dir) as (cs & Hcols & Hnd & _ & Hmem & _ & _).
  exists cs. split; [done|].
  assert (Hreserved : ∀ c, c ∈ cs → c ≠ "Group"%string ∧ c ≠ "Total"%string).
  { intros c Hc. apply Hmem in Hc. unfold observed_codes in Hc.
    apply list_elem_of_bind in Hc as (f & Hc & _).
    by apply file_codes_not_reserved in Hc. }
  apply NoDup_cons. split.
  - rewrite elem_of_app, list_elem_of_singleton.
    intros [H%Hreserved|H]; [by destruct H|done].
  - apply NoDup_app. split_and!; [done| |apply NoDup_singleton].
    intros c Hc%Hreserved ->%list_elem_of_singleton. by destruct Hc.
Qed.

(** The combined table with its two sections spelled out. *)
Lemma generate_summary_sections u m :
  let cols := columns (read_stats (column_source u m)) in
  generate_summary u m
  = mkDF cols (summary_layout cols (rows (read_stats u))
                 (rows (reindex cols (Int 0) (read_stats m)))).
Proof.
  intros cols. destruct (read_stats_columns (column_source u m)) as (cs & Hcols & Hnd).
  fold cols in Hcols. rewrite <- Hcols in Hnd.
  assert (Hfit : fits cols (read_stats u)).
  { destruct (decide (csv_files u = [])) as [Hu|Hu].
    - rewrite read_stats_empty by done. right. split; [|done]. rewrite Hcols.
      intros c [->|[->|?%elem_of_nil]%elem_of_cons]%elem_of_cons; [left| |done].
      right. apply elem_of_app. right. left.
    - assert (column_source u m = u) as Hsrc.
      { unfold column_source. by destruct (csv_files u). }
      left. unfold cols. rewrite Hsrc. split; [done|].
      destruct (read_stats_spec u) as (ucs & Hucols & _ & _ & _ & _ & HU).
      rewrite Hucols. by eapply row_shows_length. }
  assert (Hlen : (1 ≤ length cols)%nat) by (rewrite Hcols; simpl; lia).
  unfold generate_summary. rewrite summary_columns_source. fold cols.
  unfold title_row. rewrite pd_concat_fits.
  - unfold summary_layout. csimpl. by rewrite app_nil_r.
  - done.
  - repeat constructor. simpl. rewrite length_replicate. lia.
  - apply Forall_cons. split; [exact Hfit|].
    apply Forall_cons. split.
    { left. split; [done|]. repeat constructor. by rewrite length_replicate. }
    apply Forall_cons. split.
    { left. split; [done|]. repeat constructor. simpl.
      rewrite length_replicate. lia. }
    apply Forall_cons. split; [|constructor].
    left. split; [done|]. unfold reindex. simpl.
    apply Forall_fmap, Forall_true. intros row. simpl. by rewrite length_fmap.
Qed.

(** X11. The labels of the summary rows.  Each section has one row per
    [.csv] file of its directory, and the [Group] cell of its row [i],
    counted from 0, is [G] followed by [i + 1]: the label counts the files
    in the order they are read and does not repeat the number in the file
    name. *)
Theorem summary_row_labels (u m : folder) :
  ∃ cols U M,
    generate_summary u m = mkDF cols (summary_layout cols U M) ∧
    length U = length (csv_files u) ∧
    length M = length (csv_files m) ∧
    (∀ i row, U !! i = Some row →
              cell_at cols row "Group" = Some (Str (group_label (S i)))) ∧
    (∀ i row, M !! i = Some row →
              cell_at cols row "Group" = Some (Str (group_label (S i)))).
Proof.
  destruct (read_stats_columns (column_source u m)) as (cs & Hcols & _).
  eexists _, _, _. split; [apply generate_summary_sections|].
  split_and!.
  - apply length_read_stats.
  - unfold reindex. simpl. rewrite length_fmap. apply length_read_stats.
  - intros i row Hrow. rewrite Hcols.
    apply read_stats_labels in Hrow as [cells ->]. reflexivity.
  - intros i row. unfold reindex. simpl. rewrite list_lookup_fmap.
    destruct (rows (read_stats m) !! i) as [row0|] eqn:Hrow0; simpl; [|done].
    intros [= <-]. rewrite cell_at_fmap by (rewrite Hcols; left).
    apply read_stats_labels in Hrow0 as [cells ->].
    destruct (read_stats_columns m) as (mcs & -> & _). reflexivity.
Qed.

(** X12. The shape of the summary.  The table has two or more columns
    with pairwise different names, three rows more than there are [.csv]
    files in the two directories, and in every row one cell per column. *)
Theorem summary_table_shape (u m : folder) :
  let final := generate_summary u m in
  (2 ≤ length (columns final))%nat ∧
  NoDup (columns final) ∧
  length (rows final) = (3 + length (csv_files u) + length (csv_files m))%nat ∧
  Forall (fun row => length row = length (columns final)) (rows final).
Proof.
  intros final. subst final. rewrite generate_summary_sections.
  destruct (read_stats_columns (column_source u m)) as (cs & Hcols & Hnd).
  set (cols := columns (read_stats (column_source u m))) in *.
  assert (Hlen : (2 ≤ length cols)%nat).
  { rewrite Hcols. simpl. rewrite length_app. simpl. lia. }
  simpl. split_and!.
  - done.
  - by rewrite Hcols.
  - unfold summary_layout. simpl. rewrite length_app. simpl.
    rewrite length_fmap, !length_read_stats. lia.
  - unfold summary_layout. apply Forall_cons. split.
    { simpl. rewrite length_replicate. lia. }
    apply Forall_app. split.
    { destruct (decide (csv_files u = [])) as [Hu|Hu].
      - rewrite read_stats_empty by done. constructor.
      - assert (column_source u m = u) as Hsrc.
        { unfold column_source. by destruct (csv_files u). }
        unfold cols. rewrite Hsrc.
        destruct (read_stats_spec u) as (ucs & Hucols & _ & _ & _ & _ & HU).
        rewrite Hucols. by eapply row_shows_length. }
    apply Forall_cons. split; [by rewrite length_replicate|].
    apply Forall_cons. split.
    { simpl. rewrite length_replicate. lia. }
    apply Forall_fmap, Forall_true. intros row. simpl. by rewrite length_fmap.
Qed.

(** ** The whole run *)

Lemma split_by_branch_empty (df : list Row) :
  (split_by_branch df).1 = [] ↔ matched_rows df = [].
Proof.
  destruct (split_by_branch_facts df) as (_ & Hb & Hperm). split.
  - intros Hbd. rewrite Hbd in Hperm. simpl in Hperm.
    by apply Permutation_nil in Hperm.
  - intros Hm. rewrite Hm in Hperm.
    destruct (split_by_branch df).1 as [|[code bucket] bd]; [done|].
    destruct (Hb code bucket) as [_ Hne]; [simpl; by rewrite String.eqb_refl|].
    apply Permutation_nil_r in Hperm. simpl in Hperm.
    by apply app_eq_nil in Hperm as [? _].
Qed.

Lemma total_records_split (df : list Row) :
  total_records (split_by_branch df).1 = Z.of_nat (length (matched_rows df)).
Proof.
  destruct (split_by_branch_facts df) as (_ & _ & Hperm).
  unfold total_records. by rewrite <- length_concat_sum, Hperm.
Qed.

Lemma uniform_groups_perm {A} (bd : Dict.t (list A)) (N : Z) groups :
  Dict.wf bd → bd ≠ [] → 1 ≤ N →
  uniform_distribution bd N = Ok groups →
  concat groups ≡ₚ concat (Dict.values bd).
Proof.
  intros Hwf Hne HN Hok.
  rewrite uniform_distribution_Ok in Hok by done. injection Hok as <-.
  assert (HT : 0 ≤ total_records bd) by (unfold total_records; lia).
  pose proof (Z.div_pos (total_records bd) N HT ltac:(lia)).
  pose proof (Z.mod_pos_bound (total_records bd) N ltac:(lia)).
  pose proof (Z.div_mod (total_records bd) N ltac:(lia)).
  pose proof (length_flattened bd).
  rewrite uniform_loop_concat by lia.
  rewrite drop_0, take_ge by lia. apply flattened_perm.
Qed.

(** *** Files written to a directory *)

Lemma lookup_group_files (groups : list (list Row)) i :
  group_files groups !! i = (fun g => (group_file_name (S i), g)) <$> groups !! i.
Proof. exact (list_lookup_imap (fun i g => (group_file_name (S i), g)) groups i). Qed.

Lemma save_all_cons f files dir :
  save_all (f :: files) dir = save_all files (Dict.set f.1 f.2 dir).
Proof. reflexivity. Qed.




Lemma set_Permutation {V} (d : list (string * V)) k v :
  Dict.wf d → Dict.set k v d ≡ₚ (k, v) :: filter (fun x => x.1 ≠ k) d.
Proof.
  unfold Dict.wf, Dict.keys. induction d as [|[k0 v0] d IH]; [done|].
  rewrite fmap_cons, NoDup_cons. intros [Hk Hd]. cbn [Dict.set].
  rewrite filter_cons.
  destruct (String.eqb_spec k k0) as [->|Hne].
  - rewrite decide_False by (simpl; tauto).
    rewrite filter_all; [done|].
    intros [k1 v1] Hin Heq. simpl in Heq. subst k1.
    apply Hk. apply list_elem_of_fmap. by exists (k0, v1).
  - rewrite decide_True by (simpl; congruence).
    rewrite IH by done. apply Permutation_swap.
Qed.

Lemma save_all_Permutation (files dir : list (string * list Row)) :
  NoDup files.*1 → Dict.wf dir →
  save_all files dir ≡ₚ files ++ filter (fun x => x.1 ∉ files.*1) dir.
Proof.
  revert dir. induction files as [|[k v] files IH]; intros dir Hnd Hwf.
  - simpl. rewrite filter_all; [done|]. intros a _. apply not_elem_of_nil.
  - rewrite fmap_cons, NoDup_cons in Hnd. destruct Hnd as [Hk Hnd].
    rewrite save_all_cons, IH by (done || by apply wf_set). simpl.
    rewrite (set_Permutation dir k v Hwf).
    rewrite filter_cons, decide_True by done.
    rewrite list_filter_filter. rewrite <- Permutation_middle. do 2 f_equiv.
    match goal with |- ?a ≡ₚ ?b => assert (a = b) as ->; [|done] end.
    apply list_filter_iff. intros [k1 v1]. simpl. rewrite not_elem_of_cons. tauto.
Qed.

Lemma group_file_name_inj : Inj eq eq group_file_name.
Proof.
  intros a b H. apply (f_equal file_number) in H.
  rewrite !file_number_group_file in H. lia.
Qed.

Lemma group_files_names (groups : list (list Row)) :
  (group_files groups).*1 = group_file_name <$> seq 1 (length groups).
Proof.
  apply list_eq. intros i. rewrite !list_lookup_fmap, lookup_group_files.
  destruct (groups !! i) as [g|] eqn:Hg; simpl.
  - apply lookup_lt_Some in Hg. by rewrite lookup_seq_lt.
  - apply lookup_ge_None in Hg. by rewrite lookup_seq_ge.
Qed.

Lemma group_files_NoDup (groups : list (list Row)) : NoDup (group_files groups).*1.
Proof.
  rewrite group_files_names. apply NoDup_fmap_2; [apply group_file_name_inj|].
  apply NoDup_seq.
Qed.

Lemma group_files_csv (groups : list (list Row)) :
  List.filter (fun f => ends_with_csv f.1) (group_files groups) = group_files groups.
Proof.
  apply List_filter_all. intros f [i Hf]%list_elem_of_lookup.
  rewrite lookup_group_files in Hf.
  destruct (groups !! i) as [g'|]; simplify_eq/=.
  apply (ends_with_csv_group_file (S i)).
Qed.

Lemma group_files_numbers (groups : list (list Row)) :
  NoDup ((fun f => file_number f.1) <$> group_files groups).
Proof.
  assert ((fun f : string * list Row => file_number f.1) <$> group_files groups
          = Z.of_nat <$> seq 1 (length groups)) as ->.
  { trans (file_number <$> (group_files groups).*1).
    - by rewrite <- list_fmap_compose.
    - rewrite group_files_names, <- list_fmap_compose.
      apply list_fmap_ext. intros i x _. apply file_number_group_file. }
  apply NoDup_fmap_2; [apply _|apply NoDup_seq].
Qed.

Lemma stale_files_filter n (dir : list (string * list Row)) :
  List.filter (fun f => ends_with_csv f.1)
    (filter (fun x => x.1 ∉ group_file_name <$> seq 1 n) dir)
  = stale_files n dir.
Proof.
  unfold stale_files. induction dir as [|f dir IH]; [done|].
  rewrite filter_cons. cbn [List.filter]. rewrite <- IH.
  destruct (decide (f.1 ∉ group_file_name <$> seq 1 n)) as [Hf|Hf].
  - cbn [List.filter]. rewrite bool_decide_eq_false_2 by done.
    by rewrite andb_true_r.
  - rewrite bool_decide_eq_true_2 by (by apply dec_stable).
    by rewrite andb_false_r.
Qed.


Lemma csv_files_after_run (listdir : folder → folder) (groups : list (list Row))
    (dir : list (string * list Row)) :
  (∀ d, listdir d ≡ₚ d) → Dict.wf dir → stale_files (length groups) dir = [] →
  csv_files (listdir (save_all (group_files groups) dir)) = group_files groups.
Proof.
  intros Hls Hwf Hstale.
  set (rest := filter (fun x => x.1 ∉ (group_files groups).*1) dir).
  assert (Hrest : List.filter (fun f => ends_with_csv f.1) (group_files groups ++ rest)
                  = group_files groups).
  { rewrite List.filter_app, group_files_csv. unfold rest.
    by rewrite group_files_names, stale_files_filter, Hstale, app_nil_r. }
  rewrite <- (csv_files_listing (group_files groups ++ rest)).
  - unfold csv_files. rewrite Hrest. rewrite <- group_files_csv at 1.
    apply csv_files_group_files.
  - rewrite Hls. symmetry. apply save_all_Permutation; [apply group_files_NoDup|done].
  - rewrite Hrest. apply group_files_numbers.
Qed.



Lemma elem_of_concat {A} (ls : list (list A)) x :
  x ∈ concat ls ↔ ∃ l, x ∈ l ∧ l ∈ ls.
Proof.
  induction ls as [|l0 ls IH]; simpl.
  - split; [by intros ?%elem_of_nil|]. by intros (l & _ & ?%elem_of_nil).
  - rewrite elem_of_app, IH. split.
    + intros [?|(l & ? & ?)]; [exists l0|exists l]; split; try done; [left|by right].
    + intros (l & Hx & [->|?]%elem_of_cons); [by left|right; eauto].
Qed.

Lemma group_files_lookup (groups : list (list Row)) i f :
  group_files groups !! i = Some f → groups !! i = Some f.2.
Proof.
  rewrite lookup_group_files.
  destruct (groups !! i) as [g|]; simpl; [|done]. by intros [= <-].
Qed.

Lemma elem_of_group_files (groups : list (list Row)) f :
  f ∈ group_files groups → f.2 ∈ groups.
Proof.
  intros [i Hf]%list_elem_of_lookup. apply group_files_lookup in Hf.
  by eapply list_elem_of_lookup_2.
Qed.

(** The rows of one section when the files are those of [groups]. *)
Lemma section_rows (cs : list string) (groups : list (list Row))
    (Rws : list (list cell)) (size : nat → Z) :
  let cols := ("Group" :: cs ++ ["Total"])%string in
  NoDup cs →
  (∀ c, c ∈ cs → c ≠ "Group"%string ∧ c ≠ "Total"%string) →
  Forall2 (fun row f => row_shows cols row f.2) Rws (group_files groups) →
  (∀ i g, groups !! i = Some g → Z.of_nat (length g) = size i) →
  (∀ g r, g ∈ groups → r ∈ g → ∃ c, summary_code (Roll r) = Some c ∧ c ∈ cs) →
  length Rws = length groups ∧
  ∀ i row, Rws !! i = Some row →
           row_total cols row = size i ∧ row_branch_sum cols row = row_total cols row.
Proof.
  intros cols Hnd Hres Hshow Hsize Hcodes. split.
  - apply Forall2_length in Hshow. unfold group_files in Hshow.
    by rewrite length_imap in Hshow.
  - intros i row Hrow.
    destruct (Forall2_lookup_l _ _ _ _ _ Hshow Hrow) as (f & Hf & Hsh).
    apply group_files_lookup in Hf.
    destruct (row_sums cs row f.2 Hnd Hres Hsh) as [Htot Hsum].
    fold cols in Htot, Hsum. split.
    + rewrite Htot. by apply Hsize.
    + rewrite Hsum, Htot. f_equal. apply file_codes_all.
      intros r Hr. apply (Hcodes f.2); [|done]. by eapply list_elem_of_lookup_2.
Qed.

(** The summary of the group files of one run, read on their own. *)
Lemma summary_of_groups (df : list Row) (N : Z) :
  1 ≤ N → matched_rows df ≠ [] →
  (∀ r, r ∈ df → branch_code (Roll r) ≠ None → String.length (Roll r) = 8%nat) →
  ∃ ug mg cs U M,
    let cols := ("Group" :: cs ++ ["Total"])%string in
    uniform_distribution (split_by_branch df).1 N = Ok ug ∧
    mixed_distribution (split_by_branch df).1 N = Ok mg ∧
    length ug = Z.to_nat N ∧ length mg = Z.to_nat N ∧
    generate_summary (group_files ug) (group_files mg)
    = mkDF cols (summary_layout cols U M) ∧
    NoDup cs ∧
    StronglySorted String.le cs ∧
    (∀ c, c ∈ cs ↔ c ∈ classified_codes df) ∧
    length U = Z.to_nat N ∧
    length M = Z.to_nat N ∧
    (∀ i row, U !! i = Some row ∨ M !! i = Some row →
       row_total cols row = size_profile (Z.of_nat (length (matched_rows df))) N i ∧
       row_branch_sum cols row = row_total cols row).
Proof.
  intros HN Hm Hlen8.
  pose proof Hm as Hbd. rewrite <- split_by_branch_empty in Hbd.
  destruct (split_by_branch_facts df) as (Hwf & _ & Hperm).
  pose proof (total_records_split df) as HT.
  set (bd := (split_by_branch df).1) in *.
  destruct (uniform_sizes bd N Hwf Hbd HN) as (ug & Hu & Hulen & Husz & _).
  destruct (mixed_phases bd N Hwf HN)
    as (_ & _ & mg & _ & _ & _ & _ & _ & Hmx & Hmlen & Hmsz & Hmperm).
  pose proof (uniform_groups_perm bd N ug Hwf Hbd HN Hu) as Huperm.
  unfold queued in Hmperm. rewrite HT in Husz, Hmsz.
  (* every record of a group is a classified row with the same code for
     both patterns *)
  assert (Hrec : ∀ r, r ∈ matched_rows df →
                      ∃ c, branch_code (Roll r) = Some c ∧ summary_code (Roll r) = Some c).
  { intros r [Hc Hr]%list_elem_of_filter.
    destruct (branch_code (Roll r)) as [c|] eqn:Hcode; [|done].
    exists c. split; [done|]. rewrite summary_code_eight; [done|].
    apply Hlen8; [done|]. by rewrite Hcode. }
  destruct (generate_summary_spec (group_files ug) (group_files mg))
    as (cs & U & M & Heq & Hnd & Hsorted & Hmem & HU & HM).
  rewrite !csv_files_group_files in HU, HM.
  assert (Hsrc : column_source (group_files ug) (group_files mg) = group_files ug).
  { unfold column_source. rewrite csv_files_group_files.
    destruct (group_files ug) as [|f fs] eqn:Hgf; [|done].
    apply (f_equal length) in Hgf. unfold group_files in Hgf.
    rewrite length_imap in Hgf. simpl in Hgf. lia. }
  rewrite Hsrc in Hmem.
  assert (Hcs : ∀ c, c ∈ cs ↔ c ∈ classified_codes df).
  { intros c. rewrite Hmem. unfold observed_codes, classified_codes.
    rewrite csv_files_group_files, list_elem_of_bind, list_elem_of_omap. split.
    - intros (f & Hc & Hf). apply elem_of_group_files in Hf.
      unfold file_codes in Hc. apply list_elem_of_omap in Hc as (r & Hr & Hc).
      assert (r ∈ matched_rows df) as Hrm.
      { rewrite <- Hperm, <- Huperm. apply elem_of_concat. eauto. }
      destruct (Hrec r Hrm) as (c' & Hb' & Hs'). exists r. split.
      + by apply list_elem_of_filter in Hrm as [_ ?].
      + congruence.
    - intros (r & Hr & Hc).
      assert (r ∈ matched_rows df) as Hrm.
      { apply list_elem_of_filter. split; [congruence|done]. }
      destruct (Hrec r Hrm) as (c' & Hb' & Hs').
      rewrite <- Hperm, <- Huperm in Hrm.
      apply elem_of_concat in Hrm as (g & Hrg & Hg).
      apply list_elem_of_lookup in Hg as [i Hg].
      exists (group_file_name (S i), g). split.
      + unfold file_codes. apply list_elem_of_omap. exists r. split; [done|]. congruence.
      + apply list_elem_of_lookup. exists i.
        by rewrite lookup_group_files, Hg. }
  assert (Hreserved : ∀ c, c ∈ cs → c ≠ "Group"%string ∧ c ≠ "Total"%string).
  { intros c Hc. apply Hmem in Hc. unfold observed_codes in Hc.
    apply list_elem_of_bind in Hc as (f & Hc & _).
    by apply file_codes_not_reserved in Hc. }
  assert (Hcodes : ∀ groups : list (list Row),
            concat groups ≡ₚ concat (Dict.values bd) →
            ∀ g r, g ∈ groups → r ∈ g →
                   ∃ c, summary_code (Roll r) = Some c ∧ c ∈ cs).
  { intros groups Hgp g r Hg Hr.
    assert (r ∈ matched_rows df) as Hrm.
    { rewrite <- Hperm, <- Hgp. apply elem_of_concat. eauto. }
    destruct (Hrec r Hrm) as (c & Hb' & Hs'). exists c. split; [done|].
    apply Hcs. unfold classified_codes. apply list_elem_of_omap. exists r.
    split; [|done]. by apply list_elem_of_filter in Hrm as [_ ?]. }
  destruct (section_rows cs ug U
              (size_profile (Z.of_nat (length (matched_rows df))) N)
              Hnd Hreserved HU Husz (Hcodes ug Huperm)) as [HlenU HrowsU].
  destruct (section_rows cs mg M
              (size_profile (Z.of_nat (length (matched_rows df))) N)
              Hnd Hreserved HM Hmsz (Hcodes mg Hmperm)) as [HlenM HrowsM].
  exists ug, mg, cs, U, M. cbv zeta. split_and!; try done.
  - lia.
  - lia.
  - intros i row [Hrow|Hrow]; [by apply HrowsU|by apply HrowsM].
Qed.


(** X14. A run on well-formed identifiers.  Let [N >= 1], let some row of
    the table have a branch code, let every identifier that has one be
    exactly eight characters long, and let the two group directories hold
    no [.csv] file at the start other than group files that the run
    writes again, [group_1.csv] to [group_N.csv]; an empty results
    directory is the first case of this.  Then, whatever the order of the
    directory listing, the run succeeds; the summary has a column for
    each branch code of the table, in alphabetical order, between [Group]
    and [Total]; each section has [N] rows; and in row [i] of either
    section [Total] is the size of group [i], namely [T / N] and one more
    when [i < T mod N] for the [T] classified rows, and the branch counts
    add up to [Total]. *)
Theorem run_summary_consistent (listdir : folder → folder) (fs : Dirs)
    (df : list Row) (N : Z) :
  1 ≤ N → matched_rows df ≠ [] →
  (∀ r, r ∈ df → branch_code (Roll r) ≠ None → String.length (Roll r) = 8%nat) →
  (∀ d, listdir d ≡ₚ d) →
  Dict.wf (dir_uniform fs) → Dict.wf (dir_mixed fs) →
  stale_files (Z.to_nat N) (dir_uniform fs) = [] →
  stale_files (Z.to_nat N) (dir_mixed fs) = [] →
  ∃ cs U M,
    let cols := ("Group" :: cs ++ ["Total"])%string in
    (main listdir fs df N).2 = Ok (mkDF cols (summary_layout cols U M)) ∧
    NoDup cs ∧
    StronglySorted String.le cs ∧
    (∀ c, c ∈ cs ↔ c ∈ classified_codes df) ∧
    length U = Z.to_nat N ∧
    length M = Z.to_nat N ∧
    (∀ i row, U !! i = Some row ∨ M !! i = Some row →
       row_total cols row = size_profile (Z.of_nat (length (matched_rows df))) N i ∧
       row_branch_sum cols row = row_total cols row).
Proof.
  intros HN Hm Hlen8 Hls Hwu Hwm Hsu Hsm.
  destruct (summary_of_groups df N HN Hm Hlen8)
    as (ug & mg & cs & U & M & Hu & Hmx & Hul & Hml & Heq & Hrest).
  exists cs, U, M. cbv zeta. split; [|exact Hrest].
  unfold main, setup_directories. rewrite Hu, Hmx. simpl. f_equal.
  rewrite <- Heq. unfold generate_summary.
  rewrite <- Hul in Hsu. rewrite <- Hml in Hsm.
  rewrite (read_stats_csv_files
             (listdir (save_all (group_files ug) (dir_uniform fs))) (group_files ug)),
          (read_stats_csv_files
             (listdir (save_all (group_files mg) (dir_mixed fs))) (group_files mg));
    [done|..].
  - rewrite csv_files_group_files. by apply csv_files_after_run.
  - rewrite csv_files_group_files. by apply csv_files_after_run.
Qed.

Lemma run_summary_consistent_witness :
  let fs := mkDirs [] [group_file "group_2.csv" ["2022ME01"];
                       group_file "notes.txt" ["2022ME03"]]
                      [group_file "group_3.csv" ["2022ME02"]] in
  ∃ cs U M,
    let cols := ("Group" :: cs ++ ["Total"])%string in
    (main (@rev _) fs example_table 3).2 = Ok (mkDF cols (summary_layout cols U M)) ∧
    NoDup cs ∧
    StronglySorted String.le cs ∧
    (∀ c, c ∈ cs ↔ c ∈ classified_codes example_table) ∧
    length U = Z.to_nat 3 ∧
    length M = Z.to_nat 3 ∧
    (∀ i row, U !! i = Some row ∨ M !! i = Some row →
       row_total cols row
       = size_profile (Z.of_nat (length (matched_rows example_table))) 3 i ∧
       row_branch_sum cols row = row_total cols row).
Proof.
  intros fs. apply (run_summary_consistent (@rev _) fs example_table 3).
  - lia.
  - vm_compute. discriminate.
  - intros r Hr _. unfold example_table in Hr. simpl in Hr.
    repeat (apply elem_of_cons in Hr as [->|Hr]; [reflexivity|]).
    by apply elem_of_nil in Hr.
  - intros d. symmetry. apply Permutation_rev.
  - apply (bool_decide_unpack _). vm_compute. exact I.
  - apply (bool_decide_unpack _). vm_compute. exact I.
  - vm_compute. reflexivity.
  - vm_compute. reflexivity.
Defined.



(** ** The Mixed Distributor hands out each branch in bucket order *)

Lemma get_elem {V} (d : Dict.t V) k v : Dict.get k d = Some v → (k, v) ∈ d.
Proof.
  induction d as [|[k0 v0] d IH]; simpl; [done|].
  destruct (String.eqb_spec k k0) as [->|]; intros H.
  - injection H as ->. left.
  - right. auto.
Qed.

Lemma elem_get {V} (d : Dict.t V) k v : Dict.wf d → (k, v) ∈ d → Dict.get k d = Some v.
Proof.
  induction d as [|[k0 v0] d IH]; intros Hwf; [by intros ?%elem_of_nil|].
  unfold Dict.wf, Dict.keys in Hwf. rewrite fmap_cons in Hwf.
  apply NoDup_cons in Hwf as [Hk Hd]. simpl.
  intros [H|H]%elem_of_cons.
  - injection H as -> ->. by rewrite String.eqb_refl.
  - destruct (String.eqb_spec k k0) as [->|]; [|by apply IH].
    exfalso. apply Hk. apply list_elem_of_fmap. by exists (k0, v).
Qed.

Section HandOutOrder.
Context {A : Type} (branch_of : A → string).
Implicit Types (pools bd : Dict.t (list A)) (g : list A).

Lemma get_del_ne pools k b : k ≠ b → Dict.get k (Dict.del b pools) = Dict.get k pools.
Proof.
  intros Hne. induction pools as [|[k0 v0] d IH]; simpl; [done|].
  destruct (String.eqb_spec b k0) as [->|Hb]; simpl.
  - by destruct (String.eqb_spec k k0).
  - by rewrite IH.
Qed.

Lemma get_del_eq pools b : Dict.wf pools → Dict.get b (Dict.del b pools) = None.
Proof.
  intros Hwf. apply get_None. intros Hb. by apply keys_del in Hb as [_ ?].
Qed.

Lemma of_branch_app k (l1 l2 : list A) :
  of_branch branch_of k (l1 ++ l2)
  = of_branch branch_of k l1 ++ of_branch branch_of k l2.
Proof. apply filter_app. Qed.

(** A record at the head of the queue of [b] belongs to branch [b]. *)
Lemma queued_branch bd given pools b r q :
  tagged branch_of bd → accounted branch_of bd given pools →
  Dict.get b pools = Some (r :: q) → branch_of r = b.
Proof.
  intros Htag Hacc Hg. specialize (Hacc b). unfold bucket_of in Hacc.
  rewrite Hg in Hacc. simpl in Hacc.
  destruct (Dict.get b bd) as [bucket|] eqn:Hb; simpl in Hacc.
  - apply (Htag b bucket); [by apply get_elem|].
    rewrite <- Hacc. apply elem_of_app. right. left.
  - by destruct (of_branch branch_of b given).
Qed.

Lemma accounted_pop bd given pools b r q :
  tagged branch_of bd → Dict.wf pools → accounted branch_of bd given pools →
  Dict.get b pools = Some (r :: q) →
  accounted branch_of bd (given ++ [r])
    (match q with
     | [] => Dict.del b (Dict.set b q pools)
     | _ :: _ => Dict.set b q pools
     end).
Proof.
  intros Htag Hwf Hacc Hg k.
  pose proof (queued_branch bd given pools b r q Htag Hacc Hg) as Hr.
  specialize (Hacc k). rewrite of_branch_app. unfold of_branch at 2.
  rewrite filter_cons, filter_nil. unfold bucket_of in *.
  destruct (decide (k = b)) as [->|Hne].
  - rewrite decide_True by done. rewrite Hg in Hacc. simpl in Hacc.
    rewrite <- Hacc, <- app_assoc. f_equal. simpl. f_equal.
    destruct q as [|r2 q].
    + rewrite del_set, get_del_eq by done. done.
    + by rewrite get_set_same.
  - rewrite decide_False by congruence. rewrite app_nil_r, <- Hacc. f_equal.
    destruct q as [|r2 q].
    + by rewrite del_set, get_del_ne.
    + by rewrite get_set, decide_False.
Qed.

Lemma accounted_del bd given pools b :
  Dict.wf pools → accounted branch_of bd given pools → Dict.get b pools = Some [] →
  accounted branch_of bd given (Dict.del b pools).
Proof.
  intros Hwf Hacc Hg k. specialize (Hacc k). unfold bucket_of in *.
  destruct (decide (k = b)) as [->|Hne].
  - rewrite get_del_eq by done. by rewrite Hg in Hacc.
  - by rewrite get_del_ne.
Qed.

Lemma for_branches_order bd size branches prefix g pools g' pools' :
  tagged branch_of bd → Dict.wf pools → accounted branch_of bd (prefix ++ g) pools →
  for_branches size branches g pools = Ok (g', pools') →
  Dict.wf pools' ∧ accounted branch_of bd (prefix ++ g') pools'.
Proof.
  intros Htag. revert g pools.
  induction branches as [|b rest IH]; intros g pools Hwf Hacc.
  - simpl. by intros [= <- <-].
  - rewrite for_branches_cons. unfold getitem.
    destruct (Dict.get b pools) as [[|r q]|] eqn:Hg; simpl; [| |done].
    + rewrite Hg. simpl.
      destruct (Z.of_nat (length g) =? size).
      * intros [= <- <-]. split; [by apply wf_del|by apply accounted_del].
      * apply IH; [by apply wf_del|by apply accounted_del].
    + rewrite get_set_same. simpl.
      pose proof (accounted_pop bd (prefix ++ g) pools b r q Htag Hwf Hacc Hg) as Hacc'.
      rewrite <- app_assoc in Hacc'.
      assert (Hwf' : Dict.wf (match q with
                              | [] => Dict.del b (Dict.set b q pools)
                              | _ :: _ => Dict.set b q pools
                              end)).
      { destruct q; [apply wf_del|]; by apply wf_set. }
      destruct (Z.of_nat (length (g ++ [r])) =? size).
      * by intros [= <- <-].
      * by apply IH.
Qed.

Lemma fill_while_order bd fuel size prefix g pools g' pools' :
  tagged branch_of bd → Dict.wf pools → accounted branch_of bd (prefix ++ g) pools →
  fill_while fuel size g pools = Ok (g', pools') →
  Dict.wf pools' ∧ accounted branch_of bd (prefix ++ g') pools'.
Proof.
  intros Htag. revert g pools.
  induction fuel as [|fuel IH]; intros g pools Hwf Hacc; rewrite fill_while_eq;
    destruct ((Z.of_nat (length g) <? size) && negb (bool_decide (pools = [])));
    try done; try by intros [= <- <-].
  destruct (for_branches size (Dict.keys pools) g pools) as [[g1 pools1]| |] eqn:Hfor;
    simpl; [|done..].
  destruct (for_branches_order bd size _ prefix g pools g1 pools1 Htag Hwf Hacc Hfor)
    as [Hwf1 Hacc1].
  by apply IH.
Qed.

Lemma concat_all_nil (l : list (list A)) :
  (∀ g, g ∈ l → g = []) → concat l = [].
Proof.
  induction l as [|g l IH]; intros Hall; simpl; [done|].
  rewrite (Hall g) by left. apply IH. intros g' Hg'. apply Hall. by right.
Qed.

Lemma fill_groups_order bd n i size groups pools groups' pools' :
  tagged branch_of bd → Dict.wf pools →
  (∀ j g, (i ≤ j)%nat → groups !! j = Some g → g = []) →
  accounted branch_of bd (concat groups) pools →
  fill_groups n i size groups pools = Ok (groups', pools') →
  Dict.wf pools' ∧ accounted branch_of bd (concat groups') pools'.
Proof.
  intros Htag. revert i groups pools.
  induction n as [|n IH]; intros i groups pools Hwf Hempty Hacc; simpl.
  - by intros [= <- <-].
  - unfold index_of.
    destruct (Z.ltb_spec (Z.of_nat i) 0); [lia|].
    destruct (Z.leb_spec 0 (Z.of_nat i)); [|lia].
    destruct (Z.ltb_spec (Z.of_nat i) (Z.of_nat (length groups))) as [Hi|]; simpl; [|done].
    rewrite Nat2Z.id.
    destruct (lookup_lt_is_Some_2 groups i) as [g0 Hg0]; [lia|].
    assert (g0 = []) as -> by (by apply (Hempty i)).
    rewrite (list_lookup_total_correct _ _ _ Hg0).
    destruct (fill_while (pools_weight pools) size [] pools)
      as [[g1 pools1]| |] eqn:Hfill; simpl; [|done..].
    assert (Htail : concat (drop (S i) groups) = []).
    { apply concat_all_nil. intros g [j Hj]%list_elem_of_lookup.
      rewrite lookup_drop in Hj. apply (Hempty (S i + j)%nat); [lia|done]. }
    assert (Hcat : concat groups = concat (take i groups)).
    { rewrite (concat_middle groups i [] Hg0), Htail. simpl. by rewrite app_nil_r. }
    destruct (fill_while_order bd (pools_weight pools) size (concat groups) []
                pools g1 pools1)
      as [Hwf1 Hacc1]; [done|done|by rewrite app_nil_r|done|].
    apply IH; [done| |].
    + intros j g Hj. rewrite list_lookup_insert_ne by lia. apply Hempty. lia.
    + rewrite concat_insert, Htail, app_nil_r by lia. by rewrite <- Hcat.
Qed.

(** In well-formed queues whose records sit in the queue of their branch,
    the records of a branch are its queue. *)
Lemma of_branch_queued pools k :
  Dict.wf pools → tagged branch_of pools →
  of_branch branch_of k (queued pools) = bucket_of k pools.
Proof.
  induction pools as [|[k0 q0] d IH]; intros Hwf Htag; [done|].
  unfold Dict.wf, Dict.keys in Hwf. rewrite fmap_cons in Hwf.
  apply NoDup_cons in Hwf as [Hk0 Hwf].
  change (queued ((k0, q0) :: d)) with (q0 ++ queued d).
  rewrite of_branch_app, IH; [|done|]; last first.
  { intros k' q r Hq. apply Htag. by right. }
  unfold bucket_of. simpl Dict.get.
  destruct (String.eqb_spec k k0) as [->|Hne].
  - assert (Dict.get k0 d = None) as -> by (by apply get_None).
    simpl. rewrite app_nil_r. unfold of_branch. apply filter_all.
    intros r Hr. apply (Htag k0 q0); [left|done].
  - unfold of_branch. rewrite (filter_none _ q0); [done|].
    intros r Hr Hb. apply Hne. rewrite <- Hb.
    apply (Htag k0 q0); [left|done].
Qed.

Lemma accounted_tagged bd given pools :
  tagged branch_of bd → Dict.wf pools → accounted branch_of bd given pools →
  tagged branch_of pools.
Proof.
  intros Htag Hwf Hacc k q r Hq Hr. apply elem_get in Hq; [|done].
  specialize (Hacc k). unfold bucket_of in Hacc. rewrite Hq in Hacc. simpl in Hacc.
  destruct (Dict.get k bd) as [bucket|] eqn:Hb; simpl in Hacc.
  - apply (Htag k bucket); [by apply get_elem|].
    rewrite <- Hacc. apply elem_of_app. by right.
  - apply app_eq_nil in Hacc as [_ ->]. by apply elem_of_nil in Hr.
Qed.

Lemma sublist_of_branch k (l1 l2 : list A) :
  l1 `sublist_of` l2 → of_branch branch_of k l1 `sublist_of` of_branch branch_of k l2.
Proof.
  induction 1 as [|x l1 l2 _ IH|x l1 l2 _ IH]; unfold of_branch in *.
  - done.
  - rewrite !filter_cons. destruct (decide (branch_of x = k)); [by constructor|done].
  - rewrite filter_cons. destruct (decide (branch_of x = k)); [by constructor|done].
Qed.

(** What the leftover loop adds to each group. *)
Lemma leftover_loop_shape (leftovers : list A) idx N (groups groups' : list (list A)) :
  length groups = Z.to_nat N → 0 ≤ idx →
  idx + Z.of_nat (length leftovers) ≤ N →
  leftover_loop leftovers idx N groups = Ok groups' →
  ∀ (j : nat) g, groups !! j = Some g →
    groups' !! j
    = Some (g ++ if (idx <=? Z.of_nat j)
                    && (Z.of_nat j <? idx + Z.of_nat (length leftovers))
                 then take 1 (drop (Z.to_nat (Z.of_nat j - idx)) leftovers)
                 else []).
Proof.
  revert idx groups.
  induction leftovers as [|r rest IH]; intros idx groups Hlen Hidx Hfit.
  - simpl. intros [= <-] j g Hg. rewrite Hg. f_equal.
    destruct (_ && _); by rewrite ?drop_nil, ?app_nil_r.
  - simpl length in Hfit. simpl leftover_loop.
    rewrite Z.mod_small by lia.
    set (k := Z.to_nat idx).
    assert (Hix : index_of groups idx = Ok k).
    { replace idx with (Z.of_nat k) by lia. apply index_of_nat. lia. }
    rewrite Hix. simpl.
    destruct (lookup_lt_is_Some_2 groups k) as [old Hold]; [lia|].
    rewrite (list_lookup_total_correct _ _ _ Hold).
    intros Hloop j g Hg.
    specialize (IH (idx + 1) (<[k := old ++ [r]]> groups)).
    rewrite length_insert in IH. specialize (IH Hlen ltac:(lia) ltac:(lia) Hloop j).
    destruct (decide (j = k)) as [->|Hne].
    + rewrite (IH (old ++ [r])) by (apply list_lookup_insert_eq; lia).
      assert (g = old) as -> by congruence.
      destruct (Z.leb_spec (idx + 1) (Z.of_nat k)); [lia|].
      destruct (Z.leb_spec idx (Z.of_nat k)); [|lia].
      destruct (Z.ltb_spec (Z.of_nat k) (idx + Z.of_nat (S (length rest)))); [|lia].
      simpl. rewrite app_nil_r. f_equal. f_equal.
      replace (Z.to_nat (Z.of_nat k - idx)) with 0%nat by lia. done.
    + rewrite (IH g) by (by rewrite list_lookup_insert_ne). f_equal. f_equal.
      destruct (Z.leb_spec (idx + 1) (Z.of_nat j)), (Z.leb_spec idx (Z.of_nat j)),
        (Z.ltb_spec (Z.of_nat j) (idx + 1 + Z.of_nat (length rest))),
        (Z.ltb_spec (Z.of_nat j) (idx + Z.of_nat (S (length rest)))); simpl;
        try lia; try done.
      replace (Z.to_nat (Z.of_nat j - idx)) with (S (Z.to_nat (Z.of_nat j - (idx + 1))))
        by lia.
      done.
Qed.

(** X15. The Mixed Distributor takes the records of every branch in the
    order of its bucket.  Let every record sit in the bucket of its own
    branch and [N >= 1].  Then, for every branch, its records in the
    groups of the fill phase, read group after group, followed by its
    records among the leftovers, are its bucket; and within every group
    that is written, the records of one branch stand in the order of
    their bucket. *)
Theorem mixed_keeps_bucket_order (bd : Dict.t (list A)) (N : Z) :
  Dict.wf bd → tagged branch_of bd → 1 ≤ N →
  ∃ filled pools1 groups,
    fill_groups (Z.to_nat N) 0 (total_records bd / N) (replicate (Z.to_nat N) []) bd
    = Ok (filled, pools1) ∧
    mixed_distribution bd N = Ok groups ∧
    (∀ k, of_branch branch_of k (concat filled ++ queued pools1) = bucket_of k bd) ∧
    (∀ k g, g ∈ groups → of_branch branch_of k g `sublist_of` bucket_of k bd).
Proof.
  intros Hwf Htag HN.
  destruct (mixed_phases bd N Hwf HN)
    as (filled & pools1 & groups & Hfill & Hlen1 & _ & Hleft & Hlo & Hok & Hlen & _ & _).
  destruct (fill_groups_order bd (Z.to_nat N) 0 (total_records bd / N)
              (replicate (Z.to_nat N) []) bd filled pools1 Htag Hwf)
    as [Hwf1 Hacc1]; [| |exact Hfill|].
  { intros j g _ [-> _]%lookup_replicate. done. }
  { intros k. rewrite concat_all_nil; [done|].
    intros g [j [-> _]%lookup_replicate]%list_elem_of_lookup. done. }
  assert (Hall : ∀ k, of_branch branch_of k (concat filled ++ queued pools1)
                      = bucket_of k bd).
  { intros k. rewrite of_branch_app, of_branch_queued; [apply Hacc1|done|].
    by eapply accounted_tagged. }
  exists filled, pools1, groups. split_and!; [done|done|done|].
  intros k g [j Hg]%list_elem_of_lookup.
  assert (j < length filled)%nat as Hj by (apply lookup_lt_Some in Hg; lia).
  destruct (lookup_lt_is_Some_2 filled j Hj) as [fj Hfj].
  assert (Hrem : 0 + Z.of_nat (length (queued pools1)) ≤ N).
  { pose proof (Z.mod_pos_bound (total_records bd) N ltac:(lia)). lia. }
  rewrite (leftover_loop_shape _ 0 N filled groups Hlen1 ltac:(lia) Hrem Hlo j fj Hfj)
    in Hg.
  injection Hg as <-. rewrite <- Hall, !of_branch_app.
  apply sublist_app; apply sublist_of_branch.
  - rewrite (concat_middle filled j fj Hfj).
    apply sublist_inserts_l, sublist_inserts_r. done.
  - destruct (_ && _); [|apply sublist_nil_l].
    etrans; [apply sublist_take|apply sublist_drop].
Qed.
End HandOutOrder.

Lemma split_by_branch_tagged (df : list Row) :
  tagged row_branch (split_by_branch df).1.
Proof.
  destruct (split_by_branch_facts df) as (Hwf & Hb & _).
  intros k q r Hq Hr. apply elem_get in Hq; [|done].
  destruct (Hb k q Hq) as [-> _]. apply list_elem_of_filter in Hr as [Hr _].
  unfold row_branch. by rewrite Hr.
Qed.

Lemma mixed_keeps_bucket_order_witness :
  ∃ filled pools1 groups,
    fill_groups (Z.to_nat 3) 0 (total_records example_buckets / 3)
      (replicate (Z.to_nat 3) []) example_buckets
    = Ok (filled, pools1) ∧
    mixed_distribution example_buckets 3 = Ok groups ∧
    (∀ k, of_branch row_branch k (concat filled ++ queued pools1)
          = bucket_of k example_buckets) ∧
    (∀ k g, g ∈ groups → of_branch row_branch k g `sublist_of` bucket_of k example_buckets).
Proof.
  apply (mixed_keeps_bucket_order row_branch example_buckets 3).
  - exact example_buckets_wf.
  - apply split_by_branch_tagged.
  - lia.
Defined.

(** ** The branch files *)

Lemma append_cons x (a s : string) :
  String.append (String x a) s = String x (String.append a s).
Proof. reflexivity. Qed.

Lemma append_suffix_inj (s a b : string) :
  String.append a s = String.append b s → a = b.
Proof.
  revert b. induction a as [|x a IH]; intros [|y b] H.
  - done.
  - apply (f_equal String.length) in H. rewrite !length_append in H. simpl in H. lia.
  - apply (f_equal String.length) in H. rewrite !length_append in H. simpl in H. lia.
  - rewrite !append_cons in H. injection H as -> H. f_equal. by apply IH.
Qed.

(** X16. The branch files of the classifier.  It writes one file per
    branch code of the table, named by the code with [.csv] appended; the
    names are pairwise different, so no file is written twice; the file
    of a code holds the rows of that code in table order, and all files
    together hold as many rows as the table has classified rows. *)
Theorem branchwise_files_spec (df : list Row) :
  let files := branchwise_files (split_by_branch df).1 in
  NoDup files.*1 ∧
  files.*1 = (fun c => String.append c ".csv") <$> unique (classified_codes df) ∧
  (∀ name rows, (name, rows) ∈ files →
     ∃ code, name = String.append code ".csv" ∧ ends_with_csv name = true
             ∧ rows = rows_of_branch code df ∧ rows ≠ []) ∧
  length (concat files.*2) = length (matched_rows df).
Proof.
  intros files. subst files.
  destruct (split_by_branch_facts df) as (Hwf & Hb & Hperm).
  assert (Hnames : (branchwise_files (split_by_branch df).1).*1
                   = (fun c => String.append c ".csv") <$> Dict.keys (split_by_branch df).1).
  { unfold branchwise_files, Dict.keys. rewrite <- !list_fmap_compose.
    by apply list_fmap_ext. }
  split_and!.
  - rewrite Hnames. apply NoDup_fmap_2; [|done].
    intros a b. apply append_suffix_inj.
  - by rewrite Hnames, split_by_branch_key_order_keys.
  - intros name rows [[code bucket] [[= -> ->] Hin]]%list_elem_of_fmap.
    apply elem_get in Hin; [|done]. destruct (Hb code bucket Hin) as [-> Hne].
    exists code. split_and!; try done. apply ends_with_csv_append.
  - assert ((branchwise_files (split_by_branch df).1).*2
            = Dict.values (split_by_branch df).1) as ->.
    { unfold branchwise_files, Dict.values. rewrite <- !list_fmap_compose.
      by apply list_fmap_ext. }
    by rewrite Hperm.
Qed.

(** ** Bucket order in the uniform groups *)

Lemma get_Permutation {V} (d d' : Dict.t V) k :
  Dict.wf d → d ≡ₚ d' → Dict.get k d = Dict.get k d'.
Proof.
  intros Hwf Hp.
  destruct (Dict.get k d') as [q|] eqn:Hg.
  - apply get_elem in Hg. rewrite <- Hp in Hg. by apply elem_get.
  - apply get_None in Hg. apply get_None. unfold Dict.keys in *. by rewrite Hp.
Qed.

(** X17. The Uniform Distributor keeps every branch in the order of its
    bucket.  Let every record sit in the bucket of its own branch, the
    mapping have a bucket and [N >= 1].  Then the records of a branch,
    read through the groups in their order, are its bucket. *)
Theorem uniform_keeps_bucket_order {A} (branch_of : A → string)
    (bd : Dict.t (list A)) (N : Z) :
  Dict.wf bd → tagged branch_of bd → bd ≠ [] → 1 ≤ N →
  ∃ groups,
    uniform_distribution bd N = Ok groups ∧
    ∀ k, of_branch branch_of k (concat groups) = bucket_of k bd.
Proof.
  intros Hwf Htag Hne HN. eexists. split; [by apply uniform_distribution_Ok|].
  intros k.
  assert (HT : 0 ≤ total_records bd) by (unfold total_records; lia).
  pose proof (Z.div_pos (total_records bd) N HT ltac:(lia)).
  pose proof (Z.mod_pos_bound (total_records bd) N ltac:(lia)).
  pose proof (Z.div_mod (total_records bd) N ltac:(lia)).
  pose proof (length_flattened bd).
  rewrite uniform_loop_concat by lia. rewrite drop_0, take_ge by lia.
  change (flattened bd) with (queued (sorted_by_size bd)).
  rewrite of_branch_queued.
  - unfold bucket_of. f_equal. symmetry. apply get_Permutation; [done|].
    symmetry. apply sorted_by_size_perm.
  - unfold Dict.wf, Dict.keys. by rewrite (sorted_by_size_perm bd).
  - intros k' q r Hq. apply Htag. by rewrite <- (sorted_by_size_perm bd).
Qed.

Lemma uniform_keeps_bucket_order_witness :
  ∃ groups,
    uniform_distribution example_buckets 3 = Ok groups ∧
    ∀ k, of_branch row_branch k (concat groups) = bucket_of k example_buckets.
Proof.
  apply (uniform_keeps_bucket_order row_branch example_buckets 3).
  - exact example_buckets_wf.
  - apply split_by_branch_tagged.
  - exact example_buckets_nonempty.
  - lia.
Defined.

(** ** Edge cases of the summary and of the run *)

(** X18. Directories without a [.csv] file.  When neither directory has
    one, the summary is the table with the columns [Group] and [Total] and
    three rows: the two section titles and the blank row between them. *)
Theorem summary_without_files (u m : folder) :
  csv_files u = [] → csv_files m = [] →
  generate_summary u m
  = mkDF ["Group"; "Total"]%string
      [[Str "Uniform"; Str ""]; [Str ""; Str ""]; [Str "Mixed"; Str ""]].
Proof.
  intros Hu Hm. unfold generate_summary. rewrite !read_stats_empty by done.
  reflexivity.
Qed.

Lemma summary_without_files_witness :
  generate_summary [group_file "notes.txt" ["2023CS01"]] []
  = mkDF ["Group"; "Total"]%string
      [[Str "Uniform"; Str ""]; [Str ""; Str ""]; [Str "Mixed"; Str ""]].
Proof.
  apply (summary_without_files [group_file "notes.txt" ["2023CS01"]] []);
    reflexivity.
Defined.

(** X19. What reaches the groups in a run.  For [N >= 1] and a table with
    a classified row, the uniform groups and the mixed groups each hold
    exactly the classified rows of the table, as often as they occur
    there; a row without a branch code is in no group. *)
Theorem groups_hold_classified_rows (df : list Row) (N : Z) :
  1 ≤ N → matched_rows df ≠ [] →
  ∃ uniform_groups mixed_groups,
    uniform_distribution (split_by_branch df).1 N = Ok uniform_groups ∧
    mixed_distribution (split_by_branch df).1 N = Ok mixed_groups ∧
    concat uniform_groups ≡ₚ matched_rows df ∧
    concat mixed_groups ≡ₚ matched_rows df ∧
    (∀ r, branch_code (Roll r) = None →
          (r ∉ concat uniform_groups) ∧ (r ∉ concat mixed_groups)).
Proof.
  intros HN Hm. rewrite <- split_by_branch_empty in Hm.
  destruct (split_by_branch_facts df) as (Hwf & _ & Hperm).
  destruct (uniform_sizes _ N Hwf Hm HN) as (ug & Hu & _).
  destruct (mixed_phases _ N Hwf HN)
    as (_ & _ & mg & _ & _ & _ & _ & _ & Hmx & _ & _ & Hmperm).
  pose proof (uniform_groups_perm _ N ug Hwf Hm HN Hu) as Huperm.
  unfold queued in Hmperm. rewrite Hperm in Huperm, Hmperm.
  exists ug, mg. split_and!; try done.
  intros r Hr. rewrite Huperm, Hmperm. unfold matched_rows.
  rewrite list_elem_of_filter. tauto.
Qed.

Lemma groups_hold_classified_rows_witness :
  ∃ uniform_groups mixed_groups,
    uniform_distribution (split_by_branch example_table).1 4 = Ok uniform_groups ∧
    mixed_distribution (split_by_branch example_table).1 4 = Ok mixed_groups ∧
    concat uniform_groups ≡ₚ matched_rows example_table ∧
    concat mixed_groups ≡ₚ matched_rows example_table ∧
    (∀ r, branch_code (Roll r) = None →
          (r ∉ concat uniform_groups) ∧ (r ∉ concat mixed_groups)).
Proof.
  apply (groups_hold_classified_rows example_table 4).
  - lia.
  - vm_compute. discriminate.
Defined.
